(** * Simple Notes: the record store and the page of the notes application

    A shallow embedding of the notes application: its storage layer
    (STORAGE_PREFIX, getStore, genId, saveNote, loadNote, addNote, updateNote,
    deleteNote, listNotes), the rendering of the page (setStatus,
    createNoteCard, renderNotes) and its event handlers (search, form,
    storage selection, "clear all", demo note, the buttons of a card), with
    the properties its specification states about the store and further
    properties of the store and of the page.

    Scope of the embedding.
    - JavaScript values are the JSON-shaped ones: undefined, null, booleans,
      numbers, strings, arrays and plain objects.  Numbers are integers
      ([Z]), taken exactly; fractions, NaN as a stored value, and the
      rounding and the exponent notation of very large numbers are not
      represented.  Strings are strings of the code units below 256.
    - The conversions of values to strings and to numbers throw where the
      engine's do: on an object (or on an array that holds one) with a
      property [toString] of its own, which cannot be called.  A run whose
      result is no value of the embedding (the order of records whose
      [updatedAt] is a string that holds a fraction, the array that
      [saveNote] returns with an added property) ends in [Unmodelled],
      after its storage calls were made.
    - [Object.assign] on a stored array, or with a field [__proto__] that
      replaces the prototype of a stored object, leaves the JSON-shaped
      values.  What the engine makes of such an assignment is read from
      the world ([exotic_assign]), so that the storage calls of every run
      of [updateNote] are represented.
    - [Date.now()] and [Math.random()] are read from two oracles carried by
      the world, one reading per call, so that successive readings inside
      one operation may differ.
    - Web Storage is an ordered list of entries without capacity limit:
      [setItem] never raises a quota error.  The world also records the
      calls made on the storage objects, for the properties that say which
      keys an operation touches.
    - [JSON.parse] and [JSON.stringify] belong to the platform; the store is
      parametrised by them (class [JSON]) and [EcmaJSON] is one executable
      instance. *)

From Stdlib Require Import ZArith NArith Lia Ascii.
From stdpp Require Import list strings sorting.

Set Warnings "-register-all".
Local Open Scope Z_scope.

(** ** Strings *)

Module JsString.

(** [s.startsWith(p)] *)
Definition startsWith (p s : string) : bool := String.prefix p s.

(** [s.slice(n)] for [0 <= n] *)
Fixpoint slice_from (n : nat) (s : string) : string :=
  match n, s with
  | O, _ => s
  | S n', String _ s' => slice_from n' s'
  | S _, EmptyString => EmptyString
  end.

(** [s.slice(a, b)] for [0 <= a <= b] *)
Definition slice (a b : nat) (s : string) : string :=
  String.substring a (b - a) s.

(** [s.includes(c)] for a single character *)
Fixpoint has_char (c : ascii) (s : string) : bool :=
  match s with
  | EmptyString => false
  | String c' s' => if Ascii.eqb c' c then true else has_char c s'
  end.

(** [a || b] on strings: the empty string is the only falsy one *)
Definition or_else (a b : string) : string :=
  if String.eqb a "" then b else a.

(** White space and line terminators among the code units below 256, as
    [trim] removes them: tab, line feed, vertical tab, form feed, carriage
    return, space and no-break space. *)
Definition is_space (c : ascii) : bool :=
  let n := N_of_ascii c in
  ((9 <=? n) && (n <=? 13) || (n =? 32) || (n =? 160))%N.

Fixpoint trimStart (s : string) : string :=
  match s with
  | String c s' => if is_space c then trimStart s' else s
  | EmptyString => EmptyString
  end.

Fixpoint trimEnd (s : string) : string :=
  match s with
  | String c s' =>
      let t := trimEnd s' in
      if is_space c && String.eqb t "" then EmptyString else String c t
  | EmptyString => EmptyString
  end.

(** [s.trim()] *)
Definition trim (s : string) : string := trimEnd (trimStart s).

(** The lower-case mapping of the code units below 256: [A-Z] and the
    capital letters of Latin-1 (U+00C0 to U+00DE without the
    multiplication sign U+00D7) move up by 32. *)
Definition lower_char (c : ascii) : ascii :=
  let n := N_of_ascii c in
  if ((65 <=? n) && (n <=? 90)
      || (192 <=? n) && (n <=? 222) && negb (n =? 215))%N
  then ascii_of_N (n + 32) else c.

(** [s.toLowerCase()] *)
Fixpoint toLowerCase (s : string) : string :=
  match s with
  | String c s' => String (lower_char c) (toLowerCase s')
  | EmptyString => EmptyString
  end.

(** [s.includes(q)] *)
Fixpoint includes (q s : string) : bool :=
  String.prefix q s ||
  match s with
  | String _ s' => includes q s'
  | EmptyString => false
  end.

End JsString.

(** ** Numbers to text: [Number.prototype.toString(radix)] on integers *)

Module Radix.

(** digit [d < 36] as a character of [0-9a-z] *)
Definition digit_char (d : N) : ascii :=
  if (d <? 10)%N then ascii_of_N (48 + d) else ascii_of_N (87 + d).

Definition char_digit (c : ascii) : option N :=
  let n := N_of_ascii c in
  if ((48 <=? n) && (n <=? 57))%N then Some (n - 48)%N
  else if ((97 <=? n) && (n <=? 122))%N then Some (n - 87)%N
  else None.

(** most significant digit first *)
Fixpoint digits_go (fuel : nat) (radix n : N) : string :=
  match fuel with
  | O => EmptyString
  | S f =>
      if (n <? radix)%N then String (digit_char n) EmptyString
      else digits_go f radix (n / radix) +:+
           String (digit_char (n mod radix)) EmptyString
  end.

Definition N_toString (radix n : N) : string :=
  digits_go (S (N.to_nat (N.size n))) radix n.

Definition Number_toString (radix : N) (z : Z) : string :=
  match z with
  | Z0 => "0"
  | Zpos p => N_toString radix (Npos p)
  | Zneg p => "-" +:+ N_toString radix (Npos p)
  end.

Fixpoint parse_go (radix acc : N) (s : string) : option N :=
  match s with
  | EmptyString => Some acc
  | String c s' =>
      match char_digit c with
      | Some d =>
          if (d <? radix)%N then parse_go radix (acc * radix + d) s'
          else None
      | None => None
      end
  end.

Definition parse_digits (radix : N) (s : string) : option N :=
  parse_go radix 0 s.

End Radix.

(** ** JavaScript values *)

Inductive value : Type :=
| VUndefined
| VNull
| VBool (b : bool)
| VNum (n : Z)
| VStr (s : string)
| VArr (elems : list value)
| VObj (props : list (string * value)).

(** Truthiness, as tested by [if (x)], [!x] and [x || y]. *)
Definition ToBoolean (v : value) : bool :=
  match v with
  | VUndefined | VNull => false
  | VBool b => b
  | VNum n => negb (n =? 0)
  | VStr s => negb (String.eqb s "")
  | VArr _ | VObj _ => true
  end.

(** [a || b] *)
Definition js_or (a b : value) : value := if ToBoolean a then a else b.

(** ** Exceptions

    [Unmodelled] marks a run whose result lies outside the values of the
    embedding: the number that a string holds, an object in memory that is
    no longer JSON-shaped.  Where a function of the script ends in it, the
    storage calls of the run have all been made. *)

Inductive exn : Type :=
| Error (msg : string)
| SyntaxError
| TypeError
| RangeError.

Inductive outcome (A : Type) : Type :=
| Ret (a : A)
| Throw (e : exn)
| Unmodelled.
Arguments Ret {A} a.
Arguments Throw {A} e.
Arguments Unmodelled {A}.

Global Instance outcome_ret : MRet outcome := fun A a => Ret a.

Global Instance outcome_bind : MBind outcome := fun A B k m =>
  match m with
  | Ret a => k a
  | Throw e => Throw e
  | Unmodelled => Unmodelled
  end.

(** ** Conversions

    A JSON-shaped object converts to a primitive through the methods it
    inherits, unless it has a property [toString] of its own: that
    property is not callable, the inherited [valueOf] returns the object
    itself, and the conversion throws a TypeError.  An array converts
    through [join], which converts its elements. *)

(** the object has an own property [k] *)
Definition has_prop (k : string) (props : list (string * value)) : bool :=
  existsb (fun p => String.eqb (fst p) k) props.

Fixpoint converts (v : value) : bool :=
  match v with
  | VArr l => forallb converts l
  | VObj props => negb (has_prop "toString" props)
  | _ => true
  end.

(** The text of a value that [converts], as a string concatenation
    ([STORAGE_PREFIX + x]) and the setters of the document take it. *)
Fixpoint ToString (v : value) : string :=
  match v with
  | VUndefined => "undefined"
  | VNull => "null"
  | VBool true => "true"
  | VBool false => "false"
  | VNum n => Radix.Number_toString 10 n
  | VStr s => s
  | VArr l =>
      String.concat ","
        (map (fun e => match e with
                       | VUndefined | VNull => EmptyString
                       | _ => ToString e
                       end) l)
  | VObj _ => "[object Object]"
  end.

(** [String(v)], [prefix + v] *)
Definition to_string (v : value) : outcome string :=
  if converts v then Ret (ToString v) else Throw TypeError.

(** The number that a string holds, for the strings that hold nothing but
    white space (zero) or decimal digits (an integer, which a number
    represents exactly up to 2^53).  The other numeric literals (a sign, a
    fraction, an exponent, [Infinity], another radix) and the strings that
    hold no number at all, which give NaN, are left out. *)
Definition StringToNumber (s : string) : outcome (option Z) :=
  let t := JsString.trim s in
  if String.eqb t "" then Ret (Some 0)
  else match Radix.parse_digits 10 t with
       | Some n =>
           if (n <=? 9007199254740992)%N then Ret (Some (Z.of_N n))
           else Unmodelled
       | None => Unmodelled
       end.

(** [Number(v)], the operands of [-]; [None] is NaN. *)
Definition ToNumber (v : value) : outcome (option Z) :=
  match v with
  | VUndefined => Ret None
  | VNull => Ret (Some 0)
  | VBool b => Ret (Some (if b then 1 else 0))
  | VNum n => Ret (Some n)
  | VStr s => StringToNumber s
  | VArr _ => s ← to_string v; StringToNumber s
  | VObj _ => s ← to_string v; Ret None
  end.

(** [a - b]: the left operand is converted first. *)
Definition js_sub (a b : value) : outcome (option Z) :=
  x ← ToNumber a;
  y ← ToNumber b;
  Ret (match x, y with
       | Some x, Some y => Some (x - y)
       | _, _ => None
       end).

(** *** Own properties of plain objects

    The property list of an object is kept in the order in which JavaScript
    enumerates it: names that are array indices first, in ascending numeric
    order, then the other names in creation order. *)

Definition array_index (k : string) : option N :=
  match Radix.parse_digits 10 k with
  | Some n =>
      if (String.eqb (Radix.N_toString 10 n) k && (n <? 4294967295)%N)%bool
      then Some n else None
  | None => None
  end.

(** [o[k]] on own data properties; [undefined] when there is none *)
Fixpoint get_prop (k : string) (props : list (string * value)) : value :=
  match props with
  | [] => VUndefined
  | (k', v) :: rest => if String.eqb k' k then v else get_prop k rest
  end.

Fixpoint replace_prop (k : string) (v : value) (props : list (string * value))
  : list (string * value) :=
  match props with
  | [] => []
  | (k', v') :: rest =>
      if String.eqb k' k then (k', v) :: rest
      else (k', v') :: replace_prop k v rest
  end.

Fixpoint insert_index (n : N) (k : string) (v : value)
    (props : list (string * value)) : list (string * value) :=
  match props with
  | [] => [(k, v)]
  | (k', v') :: rest =>
      match array_index k' with
      | Some n' =>
          if (n' <? n)%N then (k', v') :: insert_index n k v rest
          else (k, v) :: props
      | None => (k, v) :: props
      end
  end.

(** [o[k] = v] on a plain object, for a name [k] that the object has or
    that no object of its prototype chain has: the own property is
    replaced or created.  ([JSON.parse] creates every property in this
    way, whatever its name.) *)
Definition set_prop (k : string) (v : value) (props : list (string * value))
  : list (string * value) :=
  if has_prop k props then replace_prop k v props
  else match array_index k with
       | Some n => insert_index n k v props
       | None => props ++ [(k, v)]
       end.

(** the properties [props] created on [target] one after the other *)
Definition create_props (target props : list (string * value))
  : list (string * value) :=
  fold_left (fun o p => set_prop (fst p) (snd p) o) props target.

(** [v.k] for the names the script reads ([id], [title], [body],
    [updatedAt]): the own property of a plain object, as no prototype
    carries these names, and undefined on primitives and arrays.  For any
    other name it is the own property of a plain object. *)
Definition member (v : value) (k : string) : value :=
  match v with
  | VObj props => get_prop k props
  | _ => VUndefined
  end.

(** Own enumerable properties of the source of [Object.assign]. *)
Definition own_props (v : value) : list (string * value) :=
  match v with
  | VObj props => props
  | VArr l => imap (fun i e => (Radix.N_toString 10 (N.of_nat i), e)) l
  | VStr s =>
      imap (fun i c => (Radix.N_toString 10 (N.of_nat i),
                        VStr (String c EmptyString)))
           (String.list_ascii_of_string s)
  | _ => []
  end.

(** *** [Object.assign(target, source)]

    Every own enumerable property of the source is assigned to the
    target, in order.  The name [__proto__] is special on a target that
    has no own property of that name: the assignment then runs the setter
    that [Object.prototype] provides, which creates no property; it does
    nothing for a primitive value and replaces the prototype of the target
    for an object or null. *)

Definition is_object_or_null (v : value) : bool :=
  match v with
  | VNull | VArr _ | VObj _ => true
  | _ => false
  end.

(** the assignment replaces the prototype of a plain-object target *)
Definition replaces_prototype (target : list (string * value))
    (source : value) : bool :=
  negb (has_prop "__proto__" target)
  && existsb (fun p => String.eqb (fst p) "__proto__"
                       && is_object_or_null (snd p))
             (own_props source).

Definition assign_prop (o : list (string * value)) (p : string * value)
  : list (string * value) :=
  if String.eqb (fst p) "__proto__" && negb (has_prop "__proto__" o) then o
  else set_prop (fst p) (snd p) o.

(** The own properties of a plain-object target after
    [Object.assign(target, source)]. *)
Definition Object_assign (target : list (string * value)) (source : value)
  : list (string * value) :=
  fold_left assign_prop (own_props source) target.

(** [Object.assign(s, source)] for a string [s]: the fields land on a
    wrapper object that is dropped, unless one of them names a character
    position of [s] or [length], which are read-only: the assignment then
    throws a TypeError. *)
Definition names_read_only (s : string) (source : value) : bool :=
  existsb (fun p => String.eqb (fst p) "length"
                    || match array_index (fst p) with
                       | Some n => (n <? N.of_nat (String.length s))%N
                       | None => false
                       end)
          (own_props source).

(** ** Web Storage

    A [Storage] object is its list of entries in the order in which [key(i)]
    enumerates them.  Web Storage leaves that order to the implementation;
    here a fresh key is appended and an existing key keeps its place. *)

Module Storage.

Definition t : Type := list (string * string).

Definition length (s : t) : nat := List.length s.

Definition key (s : t) (i : nat) : option string := fst <$> s !! i.

Fixpoint getItem (s : t) (k : string) : option string :=
  match s with
  | [] => None
  | (k', v) :: rest => if String.eqb k' k then Some v else getItem rest k
  end.

Fixpoint setItem (s : t) (k v : string) : t :=
  match s with
  | [] => [(k, v)]
  | (k', v') :: rest =>
      if String.eqb k' k then (k', v) :: rest
      else (k', v') :: setItem rest k v
  end.

Definition removeItem (s : t) (k : string) : t :=
  List.filter (fun e => negb (String.eqb (fst e) k)) s.

Definition keys (s : t) : list string := map fst s.

End Storage.

(** ** The platform's JSON codec

    [JSON_parse raw] is [None] when [JSON.parse(raw)] throws. *)

Class JSON : Type := {
  JSON_parse : string -> option value;
  JSON_stringify : value -> string
}.

(** ** The world: both storage areas, the preference flag, the oracles *)

Inductive backend : Type := Local | Session.

(** Calls made on a [Storage] object (a record of what an operation touched;
    no operation reads it). *)
Inductive call : Type :=
| GetItem (b : backend) (k : string)
| SetItem (b : backend) (k v : string)
| RemoveItem (b : backend) (k : string)
| KeyAt (b : backend) (i : nat)
| Length (b : backend).

(** What the engine makes of [Object.assign(note, fields)] when the object
    that results is not JSON-shaped (see [updateNote]): the exception that
    the assignment throws, or, for the clock reading that [saveNote] then
    puts under [updatedAt], the value of [note.id] and the text
    [JSON.stringify(note)]. *)
Definition exotic : Type := exn + (Z -> value * string).

Record world : Type := mkWorld {
  localStorage : Storage.t;
  sessionStorage : Storage.t;
  storeType : string;          (* 'local' | 'session' *)
  now : nat -> Z;              (* successive readings of Date.now() *)
  now_reads : nat;
  random36 : nat -> string;    (* successive Math.random().toString(36) *)
  random_reads : nat;
  exotic_assign : value -> value -> exotic;
  calls : list call
}.

Definition store_of (b : backend) (w : world) : Storage.t :=
  match b with
  | Local => localStorage w
  | Session => sessionStorage w
  end.

Definition set_store (b : backend) (s : Storage.t) (w : world) : world :=
  mkWorld (match b with Local => s | Session => localStorage w end)
          (match b with Local => sessionStorage w | Session => s end)
          (storeType w) (now w) (now_reads w) (random36 w) (random_reads w)
          (exotic_assign w) (calls w).

Definition add_calls (cs : list call) (w : world) : world :=
  mkWorld (localStorage w) (sessionStorage w) (storeType w) (now w)
          (now_reads w) (random36 w) (random_reads w) (exotic_assign w)
          (calls w ++ cs).

Definition log (c : call) (w : world) : world := add_calls [c] w.

Definition read_clock (w : world) : world :=
  mkWorld (localStorage w) (sessionStorage w) (storeType w) (now w)
          (S (now_reads w)) (random36 w) (random_reads w) (exotic_assign w)
          (calls w).

Definition read_random (w : world) : world :=
  mkWorld (localStorage w) (sessionStorage w) (storeType w) (now w)
          (now_reads w) (random36 w) (S (random_reads w)) (exotic_assign w)
          (calls w).

(** the storage object that [storeType] selects *)
Definition selected (w : world) : backend :=
  if String.eqb (storeType w) "session" then Session else Local.

Definition other (b : backend) : backend :=
  match b with Local => Session | Session => Local end.

(** ** Effects: state, exceptions *)

Definition M (A : Type) : Type := world -> outcome A * world.

Global Instance M_ret : MRet M := fun A a w => (Ret a, w).

Global Instance M_bind : MBind M := fun A B k m w =>
  match m w with
  | (Ret a, w') => k a w'
  | (Throw e, w') => (Throw e, w')
  | (Unmodelled, w') => (Unmodelled, w')
  end.

Definition throw {A : Type} (e : exn) : M A := fun w => (Throw e, w).

Definition unmodelled {A : Type} : M A := fun w => (Unmodelled, w).

(** a computation that does not touch the world *)
Definition lift {A : Type} (o : outcome A) : M A := fun w => (o, w).

(** [try { m } catch { h }] *)
Definition try_catch {A : Type} (m : M A) (h : exn -> M A) : M A := fun w =>
  match m w with
  | (Throw e, w') => h e w'
  | r => r
  end.

(** [for (const x of l) acc = body(acc, x)] *)
Fixpoint for_each {A B : Type} (body : B -> A -> M B) (l : list A) (acc : B)
  : M B :=
  match l with
  | [] => mret acc
  | x :: l' => acc' ← body acc x; for_each body l' acc'
  end.

Definition Date_now : M Z := fun w =>
  (Ret (now w (now_reads w)), read_clock w).

(** [Math.random().toString(36)] *)
Definition Math_random_toString36 : M string := fun w =>
  (Ret (random36 w (random_reads w)), read_random w).

Definition Storage_length (b : backend) : M nat := fun w =>
  (Ret (Storage.length (store_of b w)), log (Length b) w).

Definition Storage_key (b : backend) (i : nat) : M (option string) := fun w =>
  (Ret (Storage.key (store_of b w) i), log (KeyAt b i) w).

Definition Storage_getItem (b : backend) (k : string) : M (option string) :=
  fun w => (Ret (Storage.getItem (store_of b w) k), log (GetItem b k) w).

Definition Storage_setItem (b : backend) (k v : string) : M unit := fun w =>
  (Ret tt, log (SetItem b k v) (set_store b (Storage.setItem (store_of b w) k v) w)).

Definition Storage_removeItem (b : backend) (k : string) : M unit := fun w =>
  (Ret tt, log (RemoveItem b k) (set_store b (Storage.removeItem (store_of b w) k) w)).

(** [for (let i = 0; i < s.length; i++) acc = body(acc, i)] for a body
    that leaves the number of entries as it is: [s.length] is read for the
    test before every turn and for the test that ends the loop. *)
Definition for_index {B : Type} (s : backend) (body : B -> nat -> M B)
    (acc : B) : M B :=
  n ← Storage_length s;
  for_each (fun acc i => acc ← body acc i; Storage_length s;; mret acc)
           (seq 0 n) acc.

(** ** [Array.prototype.sort(compareFn)]

    The sort is stable; a comparator result that is NaN counts as [+0].
    [compareFn a b > 0] places [a] after [b].  An exception of the
    comparator ends the sort.  The engine chooses the pairs it compares;
    in an array of two or more elements every element is compared at
    least once, here as there. *)

Fixpoint sort_insert_with {A : Type} (compareFn : A -> A -> outcome (option Z))
    (x : A) (l : list A) : outcome (list A) :=
  match l with
  | [] => Ret [x]
  | y :: l' =>
      r ← compareFn x y;
      if 0 <? default 0 r
      then l'' ← sort_insert_with compareFn x l'; Ret (y :: l'')
      else Ret (x :: l)
  end.

Fixpoint Array_sort_with {A : Type} (compareFn : A -> A -> outcome (option Z))
    (l : list A) : outcome (list A) :=
  match l with
  | [] => Ret []
  | x :: l' =>
      sorted ← Array_sort_with compareFn l';
      sort_insert_with compareFn x sorted
  end.

(** The sort with a comparator that returns on every pair. *)

Fixpoint sort_insert {A : Type} (compareFn : A -> A -> option Z) (x : A)
    (l : list A) : list A :=
  match l with
  | [] => [x]
  | y :: l' =>
      if 0 <? default 0 (compareFn x y) then y :: sort_insert compareFn x l'
      else x :: l
  end.

Definition Array_sort {A : Type} (compareFn : A -> A -> option Z)
    (l : list A) : list A :=
  foldr (sort_insert compareFn) [] l.

(** The comparator of [listNotes]: [(a, b) => b.updatedAt - a.updatedAt]. *)
Definition by_updatedAt (a b : value) : outcome (option Z) :=
  js_sub (member b "updatedAt") (member a "updatedAt").

(** Its result on two records where it returns one that the embedding
    represents (NaN otherwise). *)
Definition recent_first (a b : value) : option Z :=
  match by_updatedAt a b with
  | Ret r => r
  | _ => None
  end.

(** ** The store (app.js, "Storage config" and "Core data functions") *)

Definition STORAGE_PREFIX : string := "sn:note:".

Section Store.

Context `{JSON}.

(** [getStore()]: the storage object selected by [storeType] *)
Definition getStore : M backend := fun w => (Ret (selected w), w).

Definition genId : M string :=
  t ← Date_now;
  r ← Math_random_toString36;
  mret (Radix.Number_toString 36 t +:+ "-" +:+ JsString.slice 2 8 r).

Definition JSON_parse_M (raw : string) : M value :=
  match JSON_parse raw with
  | Some v => mret v
  | None => throw SyntaxError
  end.

(** [saveNote(note)].  The script runs in sloppy mode: the assignment to
    [updatedAt] is dropped on a primitive, whose [id] is undefined, and it
    throws a TypeError on null and undefined, after the clock was read for
    the right-hand side.  An array takes the property [updatedAt] beside
    its elements, [JSON.stringify] writes the elements only, and the array
    that is returned is no JSON-shaped value any more. *)
Definition saveNote (note : value) : M value :=
  t ← Date_now;
  match note with
  | VUndefined | VNull => throw TypeError
  | VObj props =>
      let note := VObj (set_prop "updatedAt" (VNum t) props) in
      s ← getStore;
      id ← lift (to_string (member note "id"));
      Storage_setItem s (STORAGE_PREFIX +:+ id) (JSON_stringify note);;
      mret note
  | VArr _ =>
      s ← getStore;
      id ← lift (to_string (member note "id"));
      Storage_setItem s (STORAGE_PREFIX +:+ id) (JSON_stringify note);;
      unmodelled
  | _ =>
      s ← getStore;
      id ← lift (to_string (member note "id"));
      Storage_setItem s (STORAGE_PREFIX +:+ id) (JSON_stringify note);;
      mret note
  end.

Definition loadNote (id : string) : M value :=
  s ← getStore;
  raw ← Storage_getItem s (STORAGE_PREFIX +:+ id);
  match raw with
  | None => mret VNull
  | Some raw =>
      if String.eqb raw "" then mret VNull
      else try_catch (JSON_parse_M raw) (fun _ => mret VNull)
  end.

Definition addNote (arg : value) : M value :=
  match arg with
  | VUndefined | VNull => throw TypeError
  | _ =>
      let title := member arg "title" in
      let body := member arg "body" in
      id ← genId;
      createdAt ← Date_now;
      updatedAt ← Date_now;
      saveNote (VObj [("id", VStr id);
                      ("title", js_or title (VStr "Untitled"));
                      ("body", js_or body (VStr ""));
                      ("createdAt", VNum createdAt);
                      ("updatedAt", VNum updatedAt)])
  end.

(** [saveNote] on an object in memory that is not JSON-shaped, known by
    what the engine makes of it (see [exotic]). *)
Definition saveNote_exotic (observed : Z -> value * string) : M value :=
  t ← Date_now;
  s ← getStore;
  id ← lift (to_string (fst (observed t)));
  Storage_setItem s (STORAGE_PREFIX +:+ id) (snd (observed t));;
  unmodelled.

(** [Object.assign(note, fields)] followed by [saveNote(note)], for a
    [note] that is an array, or a plain object the prototype of which the
    fields replace. *)
Definition update_exotic (note fields : value) : M value := fun w =>
  match exotic_assign w note fields with
  | inl e => throw e w
  | inr observed => saveNote_exotic observed w
  end.

(** [updateNote(id, fields)].  A stored value that [loadNote] returns
    and that is truthy may be a number, [true], a string, an array or a
    plain object.  The fields assigned to a number or a boolean land on a
    wrapper object that is dropped. *)
Definition updateNote (id : string) (fields : value) : M value :=
  note ← loadNote id;
  if negb (ToBoolean note) then throw (Error "Note not found")
  else match note with
       | VObj props =>
           if replaces_prototype props fields then update_exotic note fields
           else saveNote (VObj (Object_assign props fields))
       | VArr _ =>
           match own_props fields with
           | [] => saveNote note
           | _ => update_exotic note fields
           end
       | VStr s =>
           if names_read_only s fields then throw TypeError
           else saveNote note
       | _ => saveNote note
       end.

Definition deleteNote (id : string) : M unit :=
  s ← getStore;
  Storage_removeItem s (STORAGE_PREFIX +:+ id).

(** [key && key.startsWith(STORAGE_PREFIX)] *)
Definition is_note_key (key : option string) : option string :=
  match key with
  | Some k =>
      if negb (String.eqb k "") && JsString.startsWith STORAGE_PREFIX k
      then Some k else None
  | None => None
  end.

(** One turn of the loop of [listNotes]. *)
Definition listNotes_body (s : backend) (notes : list value) (i : nat)
  : M (list value) :=
  key ← Storage_key s i;
  match is_note_key key with
  | Some k =>
      note ← loadNote (JsString.slice_from (String.length STORAGE_PREFIX) k);
      mret (if ToBoolean note then notes ++ [note] else notes)
  | None => mret notes
  end.

(** The body of the loop does not change the storage. *)
Definition listNotes : M (list value) :=
  s ← getStore;
  notes ← for_index s (listNotes_body s) [];
  lift (Array_sort_with by_updatedAt notes).

(** One turn of the loop of the [clearAllBtn] handler. *)
Definition clearAll_body (s : backend) (toRemove : list string) (i : nat)
  : M (list string) :=
  k ← Storage_key s i;
  match is_note_key k with
  | Some k => mret (toRemove ++ [k])
  | None => mret toRemove
  end.

(** The click handler of [clearAllBtn]; [ok] is the answer to [confirm]. *)
Definition clearAllBtn_click (ok : bool) : M unit :=
  s ← getStore;
  if negb ok then mret tt
  else
    toRemove ← for_index s (clearAll_body s) [];
    for_each (fun _ k => Storage_removeItem s k) toRemove tt.

End Store.

(** ** The page (app.js: "DOM", "DOM rendering", "Search/filter", "Form
    handling", "Storage selection", "Clear all", "Demo note", "Init")

    The document is the part of its state that the script reads or
    writes: the values of the two form fields, of the search box and of
    the storage selector, the text of the status line, and the cards of
    the notes container in document order.  Of a card the model keeps the
    id of its data set, its three texts, its [display] style, whether it
    is in edit mode (the texts editable, Save and Cancel shown, Edit
    hidden: [enterEdit] and [exitEdit] switch all of these together) and
    the closure variable [original].  The focus is not represented.

    The markup is not among the sources.  What the script depends on is a
    parameter: the values of the options of the selector and the initial
    values of the two form fields, to which [form.reset()] returns.  The
    form is taken to hold the two fields and no other control that the
    script reads, and the notes container to hold only the cards that
    [createNoteCard] makes.  A card is addressed by its position in the
    container. *)

Record markup : Type := mkMarkup {
  option_values : list string;   (* of storeSelect *)
  title_default : string;
  body_default : string
}.

Record card : Type := mkCard {
  card_id : string;              (* card.dataset.id *)
  card_title : string;           (* titleEl.textContent *)
  card_meta : string;            (* meta.textContent *)
  card_body : string;            (* bodyEl.textContent *)
  card_display : string;         (* card.style.display *)
  card_editing : bool;
  card_original : option (string * string)   (* original: title, body *)
}.

Record page : Type := mkPage {
  title_value : string;          (* els.title.value *)
  body_value : string;           (* els.body.value *)
  search_value : string;         (* els.search.value *)
  select_value : string;         (* els.storeSelect.value *)
  status_text : string;          (* els.status.textContent *)
  cards : list card              (* the children of els.notes *)
}.

Definition set_cards (l : list card) (p : page) : page :=
  mkPage (title_value p) (body_value p) (search_value p) (select_value p)
         (status_text p) l.

Definition set_status (t : string) (p : page) : page :=
  mkPage (title_value p) (body_value p) (search_value p) (select_value p)
         t (cards p).

(** [select.value = v]: the option of that value is selected; without such
    an option none is, and the value reads as the empty string *)
Definition set_select (html : markup) (v : string) (p : page) : page :=
  mkPage (title_value p) (body_value p) (search_value p)
         (if existsb (String.eqb v) (option_values html) then v else "")
         (status_text p) (cards p).

(** [els.form.reset()] *)
Definition form_reset (html : markup) (p : page) : page :=
  mkPage (title_default html) (body_default html) (search_value p)
         (select_value p) (status_text p) (cards p).

Definition set_display (d : string) (c : card) : card :=
  mkCard (card_id c) (card_title c) (card_meta c) (card_body c) d
         (card_editing c) (card_original c).

Definition set_texts (title body : string) (c : card) : card :=
  mkCard (card_id c) title (card_meta c) body (card_display c)
         (card_editing c) (card_original c).

(** [els.notes.insertBefore(c, els.notes.firstElementChild)] *)
Definition insert_first (c : card) (p : page) : page :=
  set_cards (c :: cards p) p.

(** [card.remove()] for the card at position [i] *)
Definition remove_card (i : nat) (p : page) : page :=
  set_cards (delete i (cards p)) p.

Definition update_card (i : nat) (f : card -> card) (p : page) : page :=
  set_cards (alter f i (cards p)) p.

(** The text that [node.textContent = v] sets: null and undefined give the
    empty text, any other value that [converts] its string. *)
Definition textContent (v : value) : string :=
  match v with
  | VUndefined | VNull => EmptyString
  | _ => ToString v
  end.

(** [node.textContent = v] *)
Definition set_textContent (v : value) : outcome string :=
  if converts v then Ret (textContent v) else Throw TypeError.

Definition STORE_PREF_KEY : string := "sn:storeType".

(** [storeType = t] *)
Definition set_storeType (t : string) : M unit := fun w =>
  (Ret tt,
   mkWorld (localStorage w) (sessionStorage w) t (now w) (now_reads w)
           (random36 w) (random_reads w) (exotic_assign w) (calls w)).

Definition get_storeType : M string := fun w => (Ret (storeType w), w).

Section Page.

Context `{JSON}.

(** the markup of the page *)
Variable html : markup.

(** [new Date(ts).toLocaleString()] for a [ts] that [converts]; the text
    depends on the locale and the time zone of the browser *)
Variable Date_toLocaleString : value -> string.

(** the [message] of the exceptions that the engine raises *)
Variable engine_message : exn -> string.

Definition message (e : exn) : value :=
  match e with
  | Error msg => VStr msg
  | _ => VStr (engine_message e)
  end.

Definition setStatus (msg : value) (p : page) : page :=
  set_status (textContent (js_or msg (VStr ""))) p.

(** [new Date(ts)] converts an object to a primitive first. *)
Definition fmtDate (ts : value) : outcome string :=
  if converts ts then Ret (Date_toLocaleString ts) else Throw TypeError.

Definition clearNotesUI (p : page) : page := set_cards [] p.

(** [createNoteCard(note)]: the card is built apart from the document;
    the four texts are set in this order, and each of the conversions can
    throw. *)
Definition createNoteCard (note : value) : outcome card :=
  id ← to_string (member note "id");
  title ← set_textContent (member note "title");
  date ← fmtDate (member note "updatedAt");
  body ← set_textContent (member note "body");
  Ret (mkCard id title ("Updated " +:+ date) body "" false None).

(** The container is emptied before the cards are built. *)
Definition renderNotes (notes : list value) (p : page) : M page :=
  let p := clearNotesUI p in
  frag ← for_each (fun frag n => c ← lift (createNoteCard n);
                                mret (frag ++ [c]))
                  notes [];
  mret (set_cards (cards p ++ frag) p).

(** The [input] handler of the search box.  The title of a card is a
    string, which [|| ''] leaves as it is. *)
Definition search_input (p : page) : page :=
  let q := JsString.toLowerCase (JsString.trim (search_value p)) in
  set_cards
    (map (fun c =>
            let title :=
              JsString.or_else (JsString.toLowerCase (card_title c)) "" in
            set_display (if JsString.includes q title then "" else "none") c)
         (cards p))
    p.

(** The [submit] handler of the form. *)
Definition noteForm_submit (p : page) : M page :=
  let title := JsString.trim (title_value p) in
  let body := JsString.trim (body_value p) in
  if negb (ToBoolean (VStr title)) && negb (ToBoolean (VStr body)) then
    mret (setStatus (VStr "Please add a title or body.") p)
  else
    note ← addNote (VObj [("title", VStr title); ("body", VStr body)]);
    c ← lift (createNoteCard note);
    mret (setStatus (VStr "Note added.")
            (form_reset html (insert_first c p))).

Definition applyStoreTypeUI (p : page) : M page :=
  t ← get_storeType;
  mret (setStatus
          (VStr ("Using " +:+
                 (if String.eqb t "local" then "localStorage"
                  else "sessionStorage") +:+ "."))
          (set_select html t p)).


(** The [click] handler of [clearAllBtn] with what it does to the page;
    [ok] is the answer to [confirm]. *)
Definition clearAllBtn_onclick (ok : bool) (p : page) : M page :=
  clearAllBtn_click ok;;
  if negb ok then mret p
  else
    p ← renderNotes [] p;
    mret (setStatus (VStr "All notes cleared.") p).

(** The [click] handler of [newDemoBtn]. *)
Definition newDemoBtn_click (p : page) : M page :=
  note ← addNote
           (VObj [("title", VStr "Demo note");
                  ("body",
                   VStr "This note shows add/edit/delete and storage persistence.")]);
  c ← lift (createNoteCard note);
  mret (setStatus (VStr "Demo note added.") (insert_first c p)).

Definition init (p : page) : M page :=
  p ← applyStoreTypeUI p;
  notes ← listNotes;
  renderNotes notes p.

(** [let storeType = localStorage.getItem(STORE_PREF_KEY) || 'local'] *)
Definition load_storeType : M unit :=
  raw ← Storage_getItem Local STORE_PREF_KEY;
  set_storeType (match raw with
                 | Some t => JsString.or_else t "local"
                 | None => "local"
                 end).

(** The script from top to bottom: the preference is read, the handlers
    are registered, [init] runs. *)
Definition script (p : page) : M page :=
  load_storeType;;
  init p.

(** *** The handlers of a card *)

Definition enterEdit (c : card) : card :=
  mkCard (card_id c) (card_title c) (card_meta c) (card_body c)
         (card_display c) true (Some (card_title c, card_body c)).

Definition exitEdit (c : card) : card :=
  mkCard (card_id c) (card_title c) (card_meta c) (card_body c)
         (card_display c) false (card_original c).

Definition editBtn_click (i : nat) (p : page) : page :=
  update_card i enterEdit p.

(** what the user types into the texts of a card *)
Definition user_edits (i : nat) (title body : string) (p : page) : page :=
  update_card i (set_texts title body) p.

(** [original] is null until [enterEdit] has run: reading [original.title]
    then raises a TypeError. *)
Definition cancelBtn_click (i : nat) (p : page) : M page :=
  match cards p !! i with
  | None => mret p
  | Some c =>
      match card_original c with
      | None => throw TypeError
      | Some (title, body) =>
          mret (setStatus (VStr "Edit cancelled.")
                  (update_card i (fun c => exitEdit (set_texts title body c))
                     p))
      end
  end.

(** Inside [try], the new text of [meta] and [exitEdit] act on the card
    that [card.remove()] takes out of the document right after.  The
    handler of [catch] finds the document as the statements of [try] left
    it: with the card when [updateNote] or [fmtDate] threw, without it
    when [createNoteCard] did. *)
Definition saveBtn_click (i : nat) (p : page) : M page :=
  match cards p !! i with
  | None => mret p
  | Some c =>
      let id := card_id c in
      let newTitle := JsString.or_else (JsString.trim (card_title c)) "Untitled" in
      let newBody := JsString.trim (card_body c) in
      try_catch
        (updated ← updateNote id (VObj [("title", VStr newTitle);
                                        ("body", VStr newBody)]);
         lift (fmtDate (member updated "updatedAt"));;
         let p := remove_card i p in
         try_catch
           (new ← lift (createNoteCard updated);
            mret (setStatus (VStr "Note saved.") (insert_first new p)))
           (fun err => mret (setStatus (message err) p)))
        (fun err => mret (setStatus (message err) p))
  end.


End Page.

(** ** An executable JSON codec

    [JSON.stringify] without indentation and [JSON.parse] on the values of
    the embedding.  Number literals with a fraction or an exponent and
    [\u] escapes above [00ff] have no counterpart among these values:
    [parse] gives [None] on them. *)

Module EcmaJSON.

Definition hex_char (d : N) : ascii := Radix.digit_char d.

Definition dquote : ascii := "034"%char.

Definition escape_char (c : ascii) : string :=
  let n := N_of_ascii c in
  if (n =? 34)%N then String "\"%char (String dquote "")
  else if (n =? 92)%N then "\\"
  else if (n =? 8)%N then "\b"
  else if (n =? 9)%N then "\t"
  else if (n =? 10)%N then "\n"
  else if (n =? 12)%N then "\f"
  else if (n =? 13)%N then "\r"
  else if (n <? 32)%N then
    "\u00" +:+ String (hex_char (n / 16)) (String (hex_char (n mod 16)) "")
  else String c "".

Fixpoint escape (s : string) : string :=
  match s with
  | EmptyString => EmptyString
  | String c s' => escape_char c +:+ escape s'
  end.

Definition quote (s : string) : string :=
  String dquote (escape s +:+ String dquote "").

Fixpoint stringify (v : value) : string :=
  match v with
  | VUndefined => "undefined"
  | VNull => "null"
  | VBool true => "true"
  | VBool false => "false"
  | VNum n => Radix.Number_toString 10 n
  | VStr s => quote s
  | VArr l =>
      "[" +:+ String.concat ","
                (map (fun e => match e with
                               | VUndefined => "null"
                               | _ => stringify e
                               end) l) +:+ "]"
  | VObj props =>
      "{" +:+ String.concat ","
                (omap (fun p => let '(k, e) := p in
                                match e with
                                | VUndefined => None
                                | _ => Some (quote k +:+ ":" +:+ stringify e)
                                end) props) +:+ "}"
  end.

Definition is_ws (c : ascii) : bool :=
  let n := N_of_ascii c in
  ((n =? 32) || (n =? 9) || (n =? 10) || (n =? 13))%N.

Fixpoint skip_ws (s : string) : string :=
  match s with
  | String c s' => if is_ws c then skip_ws s' else s
  | EmptyString => s
  end.

Definition is_digit (c : ascii) : bool :=
  let n := N_of_ascii c in ((48 <=? n) && (n <=? 57))%N.

Fixpoint span_digits (s : string) : string * string :=
  match s with
  | String c s' =>
      if is_digit c then
        let '(d, r) := span_digits s' in (String c d, r)
      else (EmptyString, s)
  | EmptyString => (EmptyString, s)
  end.

(** the text goes on with [.], [e] or [E] *)
Definition fraction_or_exponent (r : string) : bool :=
  match r with
  | String c _ =>
      let n := N_of_ascii c in ((n =? 46) || (n =? 101) || (n =? 69))%N
  | EmptyString => false
  end.

(** an integer literal without sign: [0] or [[1-9][0-9]*], not followed by
    a fraction or an exponent *)
Definition parse_nat (s : string) : option (N * string) :=
  let '(d, r) := span_digits s in
  if fraction_or_exponent r then None
  else match Radix.parse_digits 10 d with
       | Some n =>
           if String.eqb (Radix.N_toString 10 n) d then Some (n, r) else None
       | None => None
       end.

Definition head_is (c : ascii) (s : string) : bool :=
  match s with
  | String c' _ => Ascii.eqb c' c
  | EmptyString => false
  end.

Definition tail (s : string) : string :=
  match s with
  | String _ s' => s'
  | EmptyString => EmptyString
  end.

Definition hex_digit (c : ascii) : option N :=
  let n := N_of_ascii c in
  if ((65 <=? n) && (n <=? 70))%N then Some (n - 55)%N
  else match Radix.char_digit c with
       | Some d => if (d <? 16)%N then Some d else None
       | None => None
       end.

Definition hex4 (a b c d : ascii) : option ascii :=
  match hex_digit a, hex_digit b, hex_digit c, hex_digit d with
  | Some 0%N, Some 0%N, Some x, Some y => Some (ascii_of_N (16 * x + y))
  | _, _, _, _ => None
  end.

(** the characters of a string literal after its opening quote *)
Fixpoint parse_chars (s : string) (acc : string) : option (string * string) :=
  match s with
  | EmptyString => None
  | String c s' =>
      let n := N_of_ascii c in
      if (n =? 34)%N then Some (acc, s')
      else if (n <? 32)%N then None
      else if (n =? 92)%N then
        match s' with
        | String e s'' =>
            let m := N_of_ascii e in
            let lit (x : N) := parse_chars s'' (acc +:+ String (ascii_of_N x) "") in
            if (m =? 34)%N then lit 34%N
            else if (m =? 92)%N then lit 92%N
            else if (m =? 47)%N then lit 47%N
            else if (m =? 98)%N then lit 8%N
            else if (m =? 102)%N then lit 12%N
            else if (m =? 110)%N then lit 10%N
            else if (m =? 114)%N then lit 13%N
            else if (m =? 116)%N then lit 9%N
            else if (m =? 117)%N then
              match s'' with
              | String a (String b (String c (String d r))) =>
                  match hex4 a b c d with
                  | Some x => parse_chars r (acc +:+ String x "")
                  | None => None
                  end
              | _ => None
              end
            else None
        | EmptyString => None
        end
      else parse_chars s' (acc +:+ String c "")
  end.

(** the elements of an array after the first, up to its closing bracket;
    [pv] parses one value, [n] bounds the number of elements *)
Fixpoint parse_elems (pv : string -> option (value * string)) (n : nat)
    (r : string) (acc : list value) : option (value * string) :=
  match n with
  | O => None
  | S n' =>
      match pv r with
      | Some (v, r') =>
          match skip_ws r' with
          | String "," r'' => parse_elems pv n' r'' (acc ++ [v])
          | String "]" r'' => Some (VArr (acc ++ [v]), r'')
          | _ => None
          end
      | None => None
      end
  end.

(** the members of an object, up to its closing brace *)
Fixpoint parse_members (pv : string -> option (value * string)) (n : nat)
    (r : string) (acc : list (string * value)) : option (value * string) :=
  match n with
  | O => None
  | S n' =>
      match skip_ws r with
      | String c r1 =>
          if Ascii.eqb c dquote then
            match parse_chars r1 "" with
            | Some (k, r2) =>
                match skip_ws r2 with
                | String ":" r3 =>
                    match pv r3 with
                    | Some (v, r4) =>
                        match skip_ws r4 with
                        | String "," r5 =>
                            parse_members pv n' r5 (set_prop k v acc)
                        | String "}" r5 => Some (VObj (set_prop k v acc), r5)
                        | _ => None
                        end
                    | None => None
                    end
                | _ => None
                end
            | None => None
            end
          else None
      | EmptyString => None
      end
  end.

(** a value, and the text that follows it *)
Fixpoint parse_value (fuel : nat) (s : string) : option (value * string) :=
  match fuel with
  | O => None
  | S f =>
      match skip_ws s with
      | String "n" (String "u" (String "l" (String "l" r))) =>
          Some (VNull, r)
      | String "t" (String "r" (String "u" (String "e" r))) =>
          Some (VBool true, r)
      | String "f" (String "a" (String "l" (String "s" (String "e" r)))) =>
          Some (VBool false, r)
      | String "-" r =>
          match parse_nat r with
          | Some (n, r') => Some (VNum (- Z.of_N n), r')
          | None => None
          end
      | String "[" r =>
          if head_is "]" (skip_ws r) then Some (VArr [], tail (skip_ws r))
          else parse_elems (parse_value f) f r []
      | String "{" r =>
          if head_is "}" (skip_ws r) then Some (VObj [], tail (skip_ws r))
          else parse_members (parse_value f) f r []
      | String c r =>
          if Ascii.eqb c dquote then
            match parse_chars r "" with
            | Some (x, r') => Some (VStr x, r')
            | None => None
            end
          else
            match parse_nat (String c r) with
            | Some (n, r') => Some (VNum (Z.of_N n), r')
            | None => None
            end
      | EmptyString => None
      end
  end.

Definition parse (s : string) : option value :=
  match parse_value (S (String.length s)) s with
  | Some (v, r) =>
      match skip_ws r with
      | EmptyString => Some v
      | _ => None
      end
  | None => None
  end.

Definition codec : JSON :=
  {| JSON_parse := parse; JSON_stringify := stringify |}.

End EcmaJSON.

(** * Vocabulary of the properties *)

(** The entries of a storage object that lie outside the namespace. *)
Definition outside (s : Storage.t) : Storage.t :=
  List.filter (fun e => negb (JsString.startsWith STORAGE_PREFIX (fst e))) s.

Definition backend_eqb (a b : backend) : bool :=
  match a, b with
  | Local, Local | Session, Session => true
  | _, _ => false
  end.

(** a storage call that stays inside the namespace of backend [sel] *)
Definition in_namespace (sel : backend) (c : call) : bool :=
  match c with
  | GetItem b k | SetItem b k _ | RemoveItem b k =>
      backend_eqb b sel && JsString.startsWith STORAGE_PREFIX k
  | KeyAt b _ | Length b => backend_eqb b sel
  end.

(** A frame condition for the namespace.

    [stays_in b Q m]: started in a world that selects backend [b], the
    computation [m] leaves the selection as it is, makes only calls that
    are [in_namespace b], leaves the entries of [b] outside the namespace
    and the whole other backend as they were, and a returned value
    satisfies [Q]. *)

Definition stays_in {A : Type} (b : backend) (Q : A → Prop) (m : M A) : Prop :=
  ∀ w, selected w = b →
    selected (snd (m w)) = b
    ∧ (∃ cs, calls (snd (m w)) = calls w ++ cs
             ∧ Forall (λ c, in_namespace b c = true) cs)
    ∧ outside (store_of b (snd (m w))) = outside (store_of b w)
    ∧ store_of (other b) (snd (m w)) = store_of (other b) w
    ∧ ∀ a, fst (m w) = Ret a → Q a.

(** the comparator orders the entries of [l] by [f], descending *)
Definition orders_desc {A : Type} (compareFn : A → A → option Z) (f : A → Z)
    (l : list A) : Prop :=
  ∀ x y, x ∈ l → y ∈ l → compareFn x y = Some (f y - f x).

(** the number under [updatedAt]; [0] when there is none *)
Definition updatedAt_of (n : value) : Z :=
  match member n "updatedAt" with
  | VNum u => u
  | _ => 0
  end.

(** The runs below assign to plain objects only: their worlds carry an
    engine that is never consulted. *)
Definition no_exotic (note fields : value) : exotic := inl TypeError.

Definition empty_world (clock : nat → Z) (rnd : nat → string) : world :=
  mkWorld [] [] "local" clock 0 rnd 0 no_exotic [].

(** An engine for the run that assigns to an array fields that name
    neither an index, [length] nor [__proto__]: the fields become
    properties of the array beside its elements, among them [id] when a
    field has that name, and [JSON.stringify] writes the elements only. *)
Definition named_fields_on_array (stringify : value → string)
    (note fields : value) : exotic :=
  inr (fun _ => (get_prop "id" (create_props [] (own_props fields)),
                 stringify note)).

Section Vocabulary.

Context `{JSON}.

(** what [loadNote] makes of the raw item under a key *)
Definition parse_note (raw : option string) : value :=
  match raw with
  | None => VNull
  | Some raw =>
      if String.eqb raw "" then VNull else default VNull (JSON_parse raw)
  end.

(** the record that [listNotes] pushes for key [k], if any *)
Definition note_under (s : Storage.t) (k : string) : option value :=
  if JsString.startsWith STORAGE_PREFIX k then
    let note := parse_note (Storage.getItem s k) in
    if ToBoolean note then Some note else None
  else None.

(** the array [notes] of [listNotes] before it is sorted *)
Definition collect (s : Storage.t) : list value :=
  omap (note_under s) (Storage.keys s).

(** the record under [id] is missing, or is treated as missing by
    [loadNote] and [updateNote] *)
Definition absent (s : Storage.t) (id : string) : Prop :=
  match Storage.getItem s (STORAGE_PREFIX +:+ id) with
  | None => True
  | Some raw =>
      raw = "" ∨ JSON_parse raw = None
      ∨ ∃ v, JSON_parse raw = Some v ∧ ToBoolean v = false
  end.

(** every record of the listing is stored under the key of its own id, as
    [saveNote] stores it *)
Definition key_consistent (s : Storage.t) : Prop :=
  ∀ id n, note_under s (STORAGE_PREFIX +:+ id) = Some n →
          ToString (member n "id") = id.

(** the codec reads back what it wrote for [v] *)
Definition reads_back (v : value) : Prop :=
  JSON_stringify v ≠ "" ∧ JSON_parse (JSON_stringify v) = Some v.

(** the record that [addNote] builds from its argument in world [w] *)
Definition added_note (arg : value) (w : world) : value :=
  VObj [("id", VStr (Radix.Number_toString 36 (now w (now_reads w)) +:+ "-" +:+
                     JsString.slice 2 8 (random36 w (random_reads w))));
        ("title", js_or (member arg "title") (VStr "Untitled"));
        ("body", js_or (member arg "body") (VStr ""));
        ("createdAt", VNum (now w (S (now_reads w))));
        ("updatedAt", VNum (now w (S (S (S (now_reads w))))))].

End Vocabulary.

(** *** Further vocabulary: strings, the values of the codec, the page *)

(** only white space *)
Fixpoint blank (s : string) : bool :=
  match s with
  | String c s' => JsString.is_space c && blank s'
  | EmptyString => true
  end.

Module EcmaJSONSpec.
Import EcmaJSON.

(** decimal digits only *)
Fixpoint all_digits (s : string) : bool :=
  match s with
  | String c s' => is_digit c && all_digits s'
  | EmptyString => true
  end.

(** the text after a number literal: it does not go on with a digit, a
    fraction or an exponent *)
Definition ends_number (r : string) : bool :=
  match r with
  | String c _ => negb (is_digit c) && negb (fraction_or_exponent r)
  | EmptyString => true
  end.

(** values that [JSON.stringify] writes in full: there is no [undefined]
    inside, and the properties of every object are in the order in which
    assignment puts them *)
Fixpoint plain (v : value) : Prop :=
  match v with
  | VUndefined => False
  | VArr l => foldr (fun x P => plain x ∧ P) True l
  | VObj props =>
      foldr (fun p P => plain (snd p) ∧ P) True props
      ∧ create_props [] props = props
  | _ => True
  end.

(** the number of values inside a value: a bound on the depth and on the
    lengths of its arrays and objects *)
Fixpoint size (v : value) : nat :=
  match v with
  | VArr l => S (foldr (fun x n => size x + n) 0 l)%nat
  | VObj props => S (foldr (fun p n => size (snd p) + n) 0 props)%nat
  | _ => 1%nat
  end.

(** induction on values, with the property on the elements of an array
    and on the values of the properties of an object *)
Definition value_induction (P : value → Prop)
    (HU : P VUndefined) (HN : P VNull) (HB : ∀ b, P (VBool b))
    (HZ : ∀ n, P (VNum n)) (HS : ∀ s, P (VStr s))
    (HA : ∀ l, Forall P l → P (VArr l))
    (HO : ∀ props, Forall (fun p => P (snd p)) props → P (VObj props)) :
  ∀ v, P v :=
  fix go (v : value) : P v :=
    match v with
    | VUndefined => HU
    | VNull => HN
    | VBool b => HB b
    | VNum n => HZ n
    | VStr s => HS s
    | VArr l =>
        HA l ((fix all (l : list value) : Forall P l :=
                 match l with
                 | [] => @List.Forall_nil _ P
                 | x :: l' => @List.Forall_cons _ P x l' (go x) (all l')
                 end) l)
    | VObj props =>
        HO props
           ((fix all (l : list (string * value))
               : Forall (fun p => P (snd p)) l :=
               match l with
               | [] => @List.Forall_nil _ _
               | p :: l' => @List.Forall_cons _ _ p l' (go (snd p)) (all l')
               end) props)
    end.

(** what the loops need of the parser of one value *)
Definition parses (pv : string → option (value * string)) (v : value) : Prop :=
  ∀ rest, ends_number rest = true → pv (stringify v +:+ rest) = Some (v, rest).

(** the text of one property of an object *)
Definition member_text (p : string * value) : string :=
  quote (fst p) +:+ ":" +:+ stringify (snd p).

(** distinct names, none of them an array index: assignment puts them in
    creation order *)
Definition named (props : list (string * value)) : Prop :=
  NoDup (map fst props) ∧ Forall (fun p => array_index (fst p) = None) props.

End EcmaJSONSpec.


(** the properties of a record: names that are not array indices, values
    that the codec writes in full *)
Definition record_props (props : list (string * value)) : Prop :=
  Forall (fun p => array_index (fst p) = None ∧ EcmaJSONSpec.plain (snd p))
         props.

(** the backend that a value of [storeType] selects *)
Definition backend_of (t : string) : backend :=
  if String.eqb t "session" then Session else Local.

(** the text of the status line for a value of [storeType] *)
Definition using_text (t : string) : string :=
  "Using " +:+
  (if String.eqb t "local" then "localStorage" else "sessionStorage") +:+ ".".

(** the id that a card shows for a record *)
Definition note_id (n : value) : string := ToString (member n "id").

(** the four attributes of a record that a card shows convert to text *)
Definition shows (n : value) : bool :=
  converts (member n "id") && converts (member n "title")
  && converts (member n "updatedAt") && converts (member n "body").

(** records that the page can show in the order of a listing: a number
    under [updatedAt], and an id, a title and a body that convert *)
Definition showable (l : list value) : Prop :=
  Forall (λ n, (∃ u, member n "updatedAt" = VNum u) ∧ shows n = true) l.

(** the card that [createNoteCard] builds for a record that [shows] *)
Definition card_of (Date_toLocaleString : value → string) (n : value) : card :=
  mkCard (note_id n) (textContent (member n "title"))
         ("Updated " +:+ Date_toLocaleString (member n "updatedAt"))
         (textContent (member n "body")) "" false None.

(** the fields that the Save button passes to [updateNote] *)
Definition saved_fields (c : card) : value :=
  VObj [("title",
         VStr (JsString.or_else (JsString.trim (card_title c)) "Untitled"));
        ("body", VStr (JsString.trim (card_body c)))].

(** a check of [key_consistent] by evaluation *)
Definition key_consistentb `{JSON} (s : Storage.t) : bool :=
  forallb (λ k, match note_under s k with
                | Some n => String.eqb (STORAGE_PREFIX +:+ note_id n) k
                | None => true
                end)
          (Storage.keys s).

(** the keys of the store are unique and its records lie under the keys
    of their ids *)
Definition well_kept `{JSON} (s : Storage.t) : Prop :=
  NoDup (Storage.keys s) ∧ key_consistent s.

(** ** Data of the concrete runs *)

Definition ticking (n : nat) : Z :=
  if (n <? 2)%nat then 1700000000000 else 1700000000001.

Definition stepping (n : nat) : Z := 1700000000000 + Z.of_nat n.

Definition argA : value := VObj [("title", VStr "A"); ("body", VStr "x")].
Definition argB : value := VObj [("title", VStr "B"); ("body", VStr "y")].

(** random source: first suffix [aaaaaa], then [bbbbbb] *)
Definition rand_ab (n : nat) : string :=
  match n with O => "0.aaaaaaaaaa" | _ => "0.bbbbbbbbbb" end.

(** random source: first suffix [bbbbbb], then [aaaaaa] *)
Definition rand_ba (n : nat) : string :=
  match n with O => "0.bbbbbbbbbb" | _ => "0.aaaaaaaaaa" end.

Definition recordA (id : string) (created updated : Z) : value :=
  VObj [("id", VStr id); ("title", VStr "A"); ("body", VStr "x");
        ("createdAt", VNum created); ("updatedAt", VNum updated)].

Definition recordB (id : string) (created updated : Z) : value :=
  VObj [("id", VStr id); ("title", VStr "B"); ("body", VStr "y");
        ("createdAt", VNum created); ("updatedAt", VNum updated)].

Definition stored_a : value :=
  VObj [("id", VStr "a"); ("title", VStr "T"); ("body", VStr "B");
        ("createdAt", VNum 1000); ("updatedAt", VNum 1000)].

(** local storage holds the record [stored_a] and an unrelated key; the
    clock shows 2000 *)
Definition world_with_a : world :=
  mkWorld [("sw.lastCity", "Cairo");
           ("sn:note:a", EcmaJSON.stringify stored_a)]
          [("sn:note:s", "{}")] "local" (λ _, 2000) 0
          (λ _, "0.4fzyo82mvyr") 0 no_exotic [].

(** as [world_with_a], with a value under [sn:note:bad] that does not parse *)
Definition world_with_corrupt : world :=
  mkWorld [("sn:note:bad", "{oops");
           ("sn:note:a", EcmaJSON.stringify stored_a)]
          [] "local" (λ _, 2000) 0 (λ _, "0.4fzyo82mvyr") 0 no_exotic [].

(** the markup of the runs: the two options of the selector, and form
    fields that start empty *)
Definition markup0 : markup := mkMarkup ["local"; "session"] "" "".

(** a rendering of dates for the runs: the text of the number *)
Definition date_text (ts : value) : string := ToString ts.

Definition engine_text (e : exn) : string := "TypeError".

(** the card of [stored_a] *)
Definition card_a : card := mkCard "a" "T" "Updated 1000" "B" "" false None.

(** the page of [world_with_a] after the script has run, with a title and
    a body typed into the form *)
Definition page_with_a : page :=
  mkPage "  Groceries " "milk  " "" "local" "Using localStorage." [card_a].

(** * Properties *)

(** ** Strings *)

Lemma startsWith_app (p x : string) : JsString.startsWith p (p +:+ x) = true.
Proof.
  unfold JsString.startsWith.
  induction p as [|c p IH]; simpl.
  - by destruct x.
  - destruct (ascii_dec c c); [exact IH | congruence].
Qed.

Lemma slice_from_app (p x : string) :
  JsString.slice_from (String.length p) (p +:+ x) = x.
Proof. induction p as [|c p IH]; simpl; [by destruct x | exact IH]. Qed.

Lemma startsWith_slice (p s : string) :
  JsString.startsWith p s = true →
  p +:+ JsString.slice_from (String.length p) s = s.
Proof.
  unfold JsString.startsWith. revert s.
  induction p as [|c p IH]; intros s Hp; simpl in *.
  - by destruct s.
  - destruct s as [|d s]; simpl in *; [done|].
    destruct (ascii_dec c d) as [->|]; [|done].
    change (String d (p +:+ JsString.slice_from (String.length p) s)
            = String d s).
    f_equal. by apply IH.
Qed.

Lemma startsWith_prefix_inv (p s : string) :
  JsString.startsWith p s = true → ∃ x, s = p +:+ x.
Proof.
  intros Hp. exists (JsString.slice_from (String.length p) s).
  by rewrite startsWith_slice.
Qed.

Lemma has_char_app (c : ascii) (s1 s2 : string) :
  JsString.has_char c (s1 +:+ s2)
  = JsString.has_char c s1 || JsString.has_char c s2.
Proof.
  induction s1 as [|d s1 IH]; simpl; [done|].
  by destruct (Ascii.eqb d c).
Qed.

(** A separator that occurs in neither left part splits a text uniquely. *)
Lemma split_at_separator (c : ascii) (a1 a2 b1 b2 : string) :
  JsString.has_char c a1 = false →
  JsString.has_char c a2 = false →
  a1 +:+ String c b1 = a2 +:+ String c b2 →
  a1 = a2 ∧ b1 = b2.
Proof.
  revert a2. induction a1 as [|x a1 IH]; intros [|y a2]; simpl; intros H1 H2 E.
  - by injection E.
  - injection E as -> _. by rewrite Ascii.eqb_refl in H2.
  - injection E as -> _. by rewrite Ascii.eqb_refl in H1.
  - injection E as -> E.
    destruct (Ascii.eqb y c); [done|].
    destruct (IH a2 H1 H2 E) as [-> ->]. done.
Qed.

(** ** Numbers to text *)

Module RadixFacts.
Import Radix.

Lemma char_digit_digit_char (d : N) :
  (d < 36)%N → char_digit (digit_char d) = Some d.
Proof.
  intros Hd. unfold char_digit, digit_char.
  destruct (N.ltb_spec d 10).
  - rewrite N_ascii_embedding by lia.
    replace ((48 <=? 48 + d)%N && (48 + d <=? 57)%N) with true
      by (symmetry; apply andb_true_intro; split; apply N.leb_le; lia).
    f_equal. lia.
  - rewrite N_ascii_embedding by lia.
    replace ((48 <=? 87 + d)%N && (87 + d <=? 57)%N) with false
      by (symmetry; apply andb_false_iff; right; apply N.leb_gt; lia).
    replace ((97 <=? 87 + d)%N && (87 + d <=? 122)%N) with true
      by (symmetry; apply andb_true_intro; split; apply N.leb_le; lia).
    f_equal. lia.
Qed.

Lemma digit_char_not_dash (d : N) : (d < 36)%N → digit_char d ≠ "-"%char.
Proof.
  intros Hd E. apply (f_equal N_of_ascii) in E. revert E.
  unfold digit_char. destruct (N.ltb_spec d 10);
    rewrite N_ascii_embedding by lia; simpl; lia.
Qed.

Lemma parse_go_app (radix acc : N) (s1 s2 : string) :
  parse_go radix acc (s1 +:+ s2)
  = parse_go radix acc s1 ≫= λ acc', parse_go radix acc' s2.
Proof.
  revert acc. induction s1 as [|c s1 IH]; intros acc; simpl; [done|].
  destruct (char_digit c) as [d|]; [|done].
  destruct (d <? radix)%N; [apply IH | done].
Qed.

Lemma parse_go_digits (fuel : nat) (radix n : N) :
  (2 <= radix <= 36)%N → (n < 2 ^ N.of_nat fuel)%N → (0 < fuel)%nat →
  parse_go radix 0 (digits_go fuel radix n) = Some n.
Proof.
  intros Hr. revert n.
  induction fuel as [|f IH]; intros n Hn Hf; [lia|].
  simpl. destruct (N.ltb_spec n radix) as [Hlt|Hge].
  - simpl. rewrite char_digit_digit_char by lia.
    by replace (n <? radix)%N with true by (symmetry; apply N.ltb_lt; lia).
  - rewrite parse_go_app.
    assert (n / radix < 2 ^ N.of_nat f)%N as Hdiv.
    { apply N.Div0.div_lt_upper_bound.
      replace (N.of_nat (S f)) with (N.succ (N.of_nat f)) in Hn by lia.
      rewrite N.pow_succ_r' in Hn. nia. }
    assert (0 < n / radix)%N as Hpos.
    { apply N.div_str_pos. lia. }
    assert (0 < f)%nat as Hf'.
    { destruct f; [simpl in Hdiv; lia | lia]. }
    rewrite (IH _ Hdiv Hf'). simpl.
    assert (n mod radix < radix)%N as Hm by (apply N.mod_lt; lia).
    rewrite char_digit_digit_char by lia.
    replace (n mod radix <? radix)%N with true
      by (symmetry; apply N.ltb_lt; lia).
    f_equal. pose proof (N.div_mod n radix). lia.
Qed.

Lemma parse_digits_N_toString (radix n : N) :
  (2 <= radix <= 36)%N → parse_digits radix (N_toString radix n) = Some n.
Proof.
  intros Hr. apply parse_go_digits; [done| |lia].
  rewrite Nat2N.inj_succ, N2Nat.id, N.pow_succ_r'.
  pose proof (N.size_gt n). lia.
Qed.

Lemma N_toString_inj (radix n m : N) :
  (2 <= radix <= 36)%N → N_toString radix n = N_toString radix m → n = m.
Proof.
  intros Hr E. apply (f_equal (parse_digits radix)) in E.
  rewrite !parse_digits_N_toString in E by done. congruence.
Qed.

Lemma digits_go_no_dash (fuel : nat) (radix n : N) :
  (2 <= radix <= 36)%N →
  JsString.has_char "-" (digits_go fuel radix n) = false.
Proof.
  intros Hr. revert n. induction fuel as [|f IH]; intros n; simpl; [done|].
  destruct (N.ltb_spec n radix).
  - simpl. destruct (Ascii.eqb_spec (digit_char n) "-"); [|done].
    by destruct (digit_char_not_dash n); [lia|].
  - rewrite has_char_app, IH. simpl.
    assert (n mod radix < radix)%N by (apply N.mod_lt; lia).
    destruct (Ascii.eqb_spec (digit_char (n mod radix)) "-"); [|done].
    by destruct (digit_char_not_dash (n mod radix)); [lia|].
Qed.

Lemma Number_toString_no_dash (radix : N) (z : Z) :
  (2 <= radix <= 36)%N → 0 <= z →
  JsString.has_char "-" (Number_toString radix z) = false.
Proof.
  intros Hr Hz. destruct z as [|p|p]; [done| |lia].
  apply digits_go_no_dash, Hr.
Qed.

Lemma Number_toString_inj (radix : N) (x y : Z) :
  (2 <= radix <= 36)%N → 0 <= x → 0 <= y →
  Number_toString radix x = Number_toString radix y → x = y.
Proof.
  intros Hr Hx Hy.
  assert (∀ z, 0 <= z → Number_toString radix z
                        = N_toString radix (Z.to_N z)) as Hn.
  { intros [|p|p] ?; [|done|lia]. unfold N_toString. simpl.
    by replace (0 <? radix)%N with true by (symmetry; apply N.ltb_lt; lia). }
  rewrite !Hn by done. intros E%N_toString_inj; [lia | done].
Qed.

End RadixFacts.

(** ** The codec reads back what it writes *)

Module EcmaJSONFacts.
Import EcmaJSON EcmaJSONSpec.

Local Arguments String.app !_ _ / : simpl nomatch.

Lemma string_app_assoc (a b c : string) : (a +:+ b) +:+ c = a +:+ (b +:+ c).
Proof. induction a as [|x a IH]; simpl; [done|]. by rewrite IH. Qed.

Lemma string_app_nil_r (a : string) : a +:+ "" = a.
Proof. induction a as [|x a IH]; simpl; [done|]. by rewrite IH. Qed.

(** *** String literals *)

Lemma parse_chars_escape_char (c : ascii) (x acc : string) :
  parse_chars (escape_char c +:+ x) acc = parse_chars x (acc +:+ String c "").
Proof. destruct c as [[] [] [] [] [] [] [] []]; reflexivity. Qed.

Lemma parse_chars_escape (s x acc : string) :
  parse_chars (escape s +:+ String dquote x) acc = Some (acc +:+ s, x).
Proof.
  revert acc. induction s as [|c s IH]; intros acc.
  - simpl. by rewrite string_app_nil_r.
  - change (escape (String c s)) with (escape_char c +:+ escape s).
    rewrite string_app_assoc, parse_chars_escape_char, IH.
    by rewrite string_app_assoc.
Qed.

Lemma parse_chars_quote (s x : string) :
  ∃ t, quote s +:+ x = String dquote t ∧ parse_chars t "" = Some (s, x).
Proof.
  exists (escape s +:+ String dquote x). split.
  - unfold quote. simpl. by rewrite string_app_assoc.
  - apply parse_chars_escape.
Qed.

(** *** Number literals *)

Lemma is_digit_digit_char (d : N) :
  (d < 10)%N → is_digit (Radix.digit_char d) = true.
Proof.
  intros Hd. unfold is_digit, Radix.digit_char.
  replace (d <? 10)%N with true by (symmetry; apply N.ltb_lt; lia).
  rewrite N_ascii_embedding by lia.
  apply andb_true_intro; split; apply N.leb_le; lia.
Qed.

Lemma all_digits_app (a b : string) :
  all_digits (a +:+ b) = all_digits a && all_digits b.
Proof.
  induction a as [|c a IH]; simpl; [done|]. by rewrite IH, andb_assoc.
Qed.

Lemma all_digits_digits_go (fuel : nat) (n : N) :
  all_digits (Radix.digits_go fuel 10 n) = true.
Proof.
  revert n. induction fuel as [|f IH]; intros n; simpl; [done|].
  destruct (N.ltb_spec n 10) as [Hlt|Hge]; simpl.
  - by rewrite is_digit_digit_char.
  - rewrite all_digits_app, IH. simpl.
    rewrite is_digit_digit_char; [done|]. apply N.mod_lt. lia.
Qed.

Lemma digits_go_nonempty (fuel : nat) (n : N) :
  Radix.digits_go (S fuel) 10 n ≠ "".
Proof.
  simpl. destruct (n <? 10)%N; [done|].
  destruct (Radix.digits_go fuel 10 (n / 10)); done.
Qed.

Lemma N_toString_head (n : N) :
  ∃ c t, Radix.N_toString 10 n = String c t ∧ is_digit c = true.
Proof.
  unfold Radix.N_toString.
  pose proof (all_digits_digits_go (S (N.to_nat (N.size n))) n) as Hall.
  pose proof (digits_go_nonempty (N.to_nat (N.size n)) n) as Hne.
  destruct (Radix.digits_go (S (N.to_nat (N.size n))) 10 n) as [|c t];
    [done|].
  exists c, t. split; [done|]. simpl in Hall. by apply andb_prop in Hall as [? _].
Qed.

Lemma span_digits_app (d r : string) :
  all_digits d = true → ends_number r = true →
  span_digits (d +:+ r) = (d, r).
Proof.
  intros Hd Hr. induction d as [|c d IH]; simpl in *.
  - destruct r as [|c r]; [done|]. simpl in Hr.
    apply andb_prop in Hr as [Hc _]. apply negb_true_iff in Hc.
    simpl. by rewrite Hc.
  - apply andb_prop in Hd as [-> Hd]. by rewrite IH.
Qed.

Lemma ends_number_no_fraction (r : string) :
  ends_number r = true → fraction_or_exponent r = false.
Proof.
  destruct r as [|c r]; [done|]. unfold ends_number.
  intros [_ H]%andb_prop. by apply negb_true_iff in H.
Qed.

Lemma parse_nat_N_toString (n : N) (r : string) :
  ends_number r = true →
  parse_nat (Radix.N_toString 10 n +:+ r) = Some (n, r).
Proof.
  intros Hr. unfold parse_nat.
  rewrite span_digits_app; [|apply all_digits_digits_go|done].
  rewrite ends_number_no_fraction by done.
  rewrite RadixFacts.parse_digits_N_toString by lia.
  by rewrite String.eqb_refl.
Qed.

Lemma parse_value_digit (f : nat) (c : ascii) (r : string) :
  is_digit c = true →
  parse_value (S f) (String c r)
  = match parse_nat (String c r) with
    | Some (n, r') => Some (VNum (Z.of_N n), r')
    | None => None
    end.
Proof.
  destruct c as [[] [] [] [] [] [] [] []]; intros Hc; try discriminate Hc;
    reflexivity.
Qed.

Lemma parse_value_number (f : nat) (z : Z) (r : string) :
  ends_number r = true →
  parse_value (S f) (Radix.Number_toString 10 z +:+ r) = Some (VNum z, r).
Proof.
  intros Hr.
  assert (∀ n, parse_value (S f) (Radix.N_toString 10 n +:+ r)
               = Some (VNum (Z.of_N n), r)) as Hnat.
  { intros n. pose proof (parse_nat_N_toString n r Hr) as Hp.
    destruct (N_toString_head n) as (c & t & E & Hc).
    rewrite E in *. simpl String.app in *.
    by rewrite parse_value_digit, Hp. }
  destruct z as [|p|p].
  - apply (Hnat 0%N).
  - apply (Hnat (Npos p)).
  - change (Radix.Number_toString 10 (Z.neg p) +:+ r)
      with (String "-" (Radix.N_toString 10 (Npos p) +:+ r)).
    change (parse_value (S f) (String "-" ?x))
      with (match parse_nat x with
            | Some (n, r') => Some (VNum (- Z.of_N n), r')
            | None => None
            end).
    by rewrite parse_nat_N_toString.
Qed.

(** *** Values *)

Lemma plain_VArr (l : list value) : plain (VArr l) ↔ Forall plain l.
Proof.
  change (plain (VArr l)) with (foldr (fun x P => plain x ∧ P) True l).
  induction l as [|x l IH]; simpl.
  - split; [by constructor | done].
  - rewrite IH. split.
    + intros [? ?]. by constructor.
    + by inversion 1.
Qed.

Lemma plain_VObj (props : list (string * value)) :
  plain (VObj props)
  ↔ Forall (fun p => plain (snd p)) props
    ∧ create_props [] props = props.
Proof.
  change (plain (VObj props))
    with (foldr (fun p P => plain (snd p) ∧ P) True props
          ∧ create_props [] props = props).
  apply and_iff_compat_r.
  induction props as [|p l IH]; simpl.
  - split; [by constructor | done].
  - rewrite IH. split.
    + intros [? ?]. by constructor.
    + by inversion 1.
Qed.

Lemma size_pos (v : value) : (1 ≤ size v)%nat.
Proof. destruct v; simpl; lia. Qed.

Lemma size_elems (l : list value) :
  (length l ≤ foldr (fun x n => size x + n) 0 l)%nat
  ∧ Forall (fun x => size x ≤ foldr (fun x n => size x + n) 0 l)%nat l.
Proof.
  induction l as [|x l [IH1 IH2]]; simpl; [by split; [|constructor]|].
  pose proof (size_pos x). split; [lia|].
  constructor; [lia|]. eapply Forall_impl; [exact IH2|]. simpl. lia.
Qed.

Lemma size_members (l : list (string * value)) :
  (length l ≤ foldr (fun p n => size (snd p) + n) 0 l)%nat
  ∧ Forall (fun p => size (snd p)
                     ≤ foldr (fun p n => size (snd p) + n) 0 l)%nat l.
Proof.
  induction l as [|x l [IH1 IH2]]; simpl; [by split; [|constructor]|].
  pose proof (size_pos (snd x)). split; [lia|].
  constructor; [lia|]. eapply Forall_impl; [exact IH2|]. simpl. lia.
Qed.

(** the text of a plain value starts with a character of its own *)
Lemma is_digit_head (c : ascii) :
  is_digit c = true → is_ws c = false ∧ Ascii.eqb c "]" = false.
Proof.
  destruct c as [[] [] [] [] [] [] [] []]; intros Hc; try discriminate Hc;
    by split.
Qed.

Lemma stringify_head (v : value) (x : string) :
  plain v →
  skip_ws (stringify v +:+ x) = stringify v +:+ x
  ∧ head_is "]" (stringify v +:+ x) = false.
Proof.
  destruct v as [| |[]|z|s|l|props]; intros Hv; try done.
  - assert (∀ n, skip_ws (Radix.N_toString 10 n +:+ x)
                 = Radix.N_toString 10 n +:+ x
                 ∧ head_is "]" (Radix.N_toString 10 n +:+ x) = false) as Hn.
    { intros n. destruct (N_toString_head n) as (c & t & -> & Hc).
      destruct (is_digit_head c Hc) as [Hws Hb]. simpl. by rewrite Hws, Hb. }
    destruct z as [|p|p]; [apply (Hn 0%N) | apply (Hn (Npos p)) | done].
Qed.

(** *** Arrays and objects *)

Lemma parse_value_string (f : nat) (t : string) :
  parse_value (S f) (String dquote t)
  = match parse_chars t "" with
    | Some (x, r') => Some (VStr x, r')
    | None => None
    end.
Proof. reflexivity. Qed.

Lemma parse_value_array (f : nat) (r : string) :
  parse_value (S f) (String "[" r)
  = if head_is "]" (skip_ws r) then Some (VArr [], tail (skip_ws r))
    else parse_elems (parse_value f) f r [].
Proof. reflexivity. Qed.

Lemma parse_value_object (f : nat) (r : string) :
  parse_value (S f) (String "{" r)
  = if head_is "}" (skip_ws r) then Some (VObj [], tail (skip_ws r))
    else parse_members (parse_value f) f r [].
Proof. reflexivity. Qed.

Lemma concat_cons (sep x : string) (l : list string) :
  l ≠ [] → String.concat sep (x :: l) = x +:+ sep +:+ String.concat sep l.
Proof. by destruct l. Qed.

Lemma parse_elems_stringify (pv : string → option (value * string))
    (l : list value) (n : nat) (acc : list value) (rest : string) :
  l ≠ [] → (length l ≤ n)%nat → Forall (parses pv) l →
  parse_elems pv n (String.concat "," (map stringify l) +:+ String "]" rest)
              acc
  = Some (VArr (acc ++ l), rest).
Proof.
  revert n acc. induction l as [|v l IH]; intros n acc Hne Hn Hl; [done|].
  destruct n as [|n]; [simpl in Hn; lia|].
  apply Forall_cons in Hl as [Hv Hl].
  destruct l as [|v' l].
  - simpl. by rewrite Hv.
  - rewrite map_cons, concat_cons by done.
    rewrite !string_app_assoc. simpl parse_elems. rewrite Hv by done.
    simpl. rewrite IH; [|done|simpl in *; lia|done].
    by rewrite <- app_assoc.
Qed.

Lemma parse_members_step (pv : string → option (value * string)) (n : nat)
    (k x : string) (acc : list (string * value)) :
  parse_members pv (S n) (quote k +:+ ":" +:+ x) acc
  = match pv x with
    | Some (v, r4) =>
        match skip_ws r4 with
        | String "," r5 => parse_members pv n r5 (set_prop k v acc)
        | String "}" r5 => Some (VObj (set_prop k v acc), r5)
        | _ => None
        end
    | None => None
    end.
Proof.
  unfold quote. simpl String.app. rewrite string_app_assoc.
  simpl String.app.
  change (parse_members pv (S n) (String dquote ?t) acc)
    with (match parse_chars t "" with
          | Some (k, r2) =>
              match skip_ws r2 with
              | String ":" r3 =>
                  match pv r3 with
                  | Some (v, r4) =>
                      match skip_ws r4 with
                      | String "," r5 =>
                          parse_members pv n r5 (set_prop k v acc)
                      | String "}" r5 => Some (VObj (set_prop k v acc), r5)
                      | _ => None
                      end
                  | None => None
                  end
              | _ => None
              end
          | None => None
          end).
  by rewrite parse_chars_escape.
Qed.

Lemma parse_members_stringify (pv : string → option (value * string))
    (l : list (string * value)) (n : nat) (acc : list (string * value))
    (rest : string) :
  l ≠ [] → (length l ≤ n)%nat → Forall (fun p => parses pv (snd p)) l →
  parse_members pv n
    (String.concat "," (map member_text l) +:+ String "}" rest) acc
  = Some (VObj (fold_left (fun o p => set_prop (fst p) (snd p) o) l acc),
          rest).
Proof.
  revert n acc. induction l as [|[k v] l IH]; intros n acc Hne Hn Hl; [done|].
  destruct n as [|n]; [simpl in Hn; lia|].
  apply Forall_cons in Hl as [Hv Hl]. simpl in Hv.
  destruct l as [|p l].
  - change (String.concat "," (map member_text [(k, v)]))
      with (quote k +:+ ":" +:+ stringify v).
    rewrite !string_app_assoc, parse_members_step, Hv by done. done.
  - rewrite map_cons, concat_cons by done.
    change (member_text (k, v)) with (quote k +:+ ":" +:+ stringify v).
    rewrite !string_app_assoc, parse_members_step, Hv by done.
    simpl skip_ws. cbv iota beta.
    rewrite IH; [done|done|simpl in *; lia|done].
Qed.

Lemma map_stringify_plain (l : list value) :
  Forall plain l →
  map (fun e => match e with
                | VUndefined => "null"
                | _ => stringify e
                end) l
  = map stringify l.
Proof.
  induction 1 as [|v l Hv _ IH]; simpl; [done|]. rewrite IH.
  by destruct v.
Qed.

Lemma omap_stringify_plain (l : list (string * value)) :
  Forall (fun p => plain (snd p)) l →
  omap (fun p => let '(k, e) := p in
                 match e with
                 | VUndefined => None
                 | _ => Some (quote k +:+ ":" +:+ stringify e)
                 end) l
  = map member_text l.
Proof.
  induction 1 as [|[k v] l Hv _ IH]; [done|].
  rewrite map_cons, <- IH. by destruct v.
Qed.

(** [parse_value] reads the text of a plain value back, whatever follows *)
Theorem parse_value_stringify (v : value) :
  plain v → ∀ fuel, (size v ≤ fuel)%nat → parses (parse_value fuel) v.
Proof.
  induction v as [| |b|z|s|l IH|props IH] using value_induction;
    intros Hv [|f] Hf rest Hrest;
    try (pose proof (size_pos VNull); simpl in Hf; lia); try done.
  - by destruct b.
  - by apply parse_value_number.
  - destruct (parse_chars_quote s rest) as (t & E & Hp).
    change (stringify (VStr s)) with (quote s).
    by rewrite E, parse_value_string, Hp.
  - apply plain_VArr in Hv.
    change (stringify (VArr l) +:+ rest)
      with (String "[" ((String.concat ","
              (map (fun e => match e with
                             | VUndefined => "null"
                             | _ => stringify e
                             end) l) +:+ "]") +:+ rest)).
    rewrite map_stringify_plain, string_app_assoc, parse_value_array by done.
    destruct l as [|x l]; [done|].
    simpl in Hf. apply Nat.succ_le_mono in Hf.
    destruct (size_elems (x :: l)) as [Hlen Hsz].
    change ("]" +:+ rest) with (String "]" rest).
    assert (skip_ws (String.concat "," (map stringify (x :: l))
                     +:+ String "]" rest)
            = String.concat "," (map stringify (x :: l)) +:+ String "]" rest
            ∧ head_is "]" (String.concat "," (map stringify (x :: l))
                           +:+ String "]" rest) = false) as [-> ->].
    { apply Forall_cons in Hv as [Hx _]. destruct l as [|y l].
      - apply stringify_head, Hx.
      - rewrite map_cons, concat_cons, string_app_assoc by done.
        apply stringify_head, Hx. }
    rewrite parse_elems_stringify; [done|done|simpl in *; lia|].
    apply Forall_forall. intros y Hy.
    rewrite Forall_forall in IH, Hv, Hsz.
    apply IH; [done|by apply Hv|]. specialize (Hsz y Hy). simpl in Hsz. lia.
  - apply plain_VObj in Hv as [Hv Hord].
    change (stringify (VObj props) +:+ rest)
      with (String "{" ((String.concat ","
              (omap (fun p => let '(k, e) := p in
                              match e with
                              | VUndefined => None
                              | _ => Some (quote k +:+ ":" +:+ stringify e)
                              end) props) +:+ "}") +:+ rest)).
    rewrite omap_stringify_plain, string_app_assoc, parse_value_object
      by done.
    destruct props as [|[k x] l]; [done|].
    simpl in Hf. apply Nat.succ_le_mono in Hf.
    destruct (size_members ((k, x) :: l)) as [Hlen Hsz].
    change ("}" +:+ rest) with (String "}" rest).
    assert (head_is "}" (skip_ws
              (String.concat "," (map member_text ((k, x) :: l))
               +:+ String "}" rest)) = false) as ->.
    { destruct l as [|y l]; done. }
    rewrite parse_members_stringify; [|done|simpl in *; lia|].
    + unfold create_props in Hord.
      by rewrite Hord.
    + apply Forall_forall. intros y Hy.
      rewrite Forall_forall in IH, Hv, Hsz.
      apply IH; [done|by apply Hv|]. specialize (Hsz y Hy). simpl in Hsz. lia.
Qed.

(** *** The whole text *)

Lemma string_length_app (a b : string) :
  String.length (a +:+ b) = (String.length a + String.length b)%nat.
Proof. induction a as [|c a IH]; simpl; [done|]. by rewrite IH. Qed.

Lemma concat_length_sum {A : Type} (f : A → string) (g : A → nat)
    (sep : string) (l : list A) :
  Forall (fun x => g x ≤ String.length (f x))%nat l →
  (foldr (fun x n => g x + n) 0 l
   ≤ String.length (String.concat sep (map f l)))%nat.
Proof.
  induction 1 as [|x l Hx Hl IH]; [done|].
  destruct l as [|y l].
  - simpl. lia.
  - rewrite map_cons, concat_cons, !string_length_app by done.
    change (foldr (fun x n => g x + n) 0 (x :: y :: l))%nat
      with (g x + foldr (fun x n => g x + n) 0 (y :: l))%nat.
    lia.
Qed.

Lemma size_le_length (v : value) :
  plain v → (size v ≤ String.length (stringify v))%nat.
Proof.
  induction v as [| |b|z|s|l IH|props IH] using value_induction;
    intros Hv; try done.
  - simpl. lia.
  - destruct b; simpl; lia.
  - simpl.
    assert (∀ n, 1 ≤ String.length (Radix.N_toString 10 n))%nat as Hn.
    { intros n. destruct (N_toString_head n) as (c & t & -> & _).
      simpl. lia. }
    destruct z as [|p|p]; [simpl; lia | apply Hn |].
    change (Radix.Number_toString 10 (Z.neg p))
      with (String "-" (Radix.N_toString 10 (Npos p))).
    simpl. lia.
  - simpl. lia.
  - apply plain_VArr in Hv.
    change (stringify (VArr l))
      with (String "[" (String.concat ","
              (map (fun e => match e with
                             | VUndefined => "null"
                             | _ => stringify e
                             end) l) +:+ "]")).
    rewrite map_stringify_plain by done.
    change (size (VArr l)) with (S (foldr (fun x n => size x + n) 0 l))%nat.
    pose proof (concat_length_sum stringify size "," l) as Hsum.
    simpl String.length. rewrite string_length_app.
    apply le_n_S. etrans; [apply Hsum|lia].
    apply Forall_forall. intros x Hx.
    rewrite Forall_forall in IH, Hv. by apply IH, Hv.
  - apply plain_VObj in Hv as [Hv _].
    change (stringify (VObj props))
      with (String "{" (String.concat ","
              (omap (fun p => let '(k, e) := p in
                              match e with
                              | VUndefined => None
                              | _ => Some (quote k +:+ ":" +:+ stringify e)
                              end) props) +:+ "}")).
    rewrite omap_stringify_plain by done.
    change (size (VObj props))
      with (S (foldr (fun p n => size (snd p) + n) 0 props))%nat.
    pose proof (concat_length_sum member_text (fun p => size (snd p))
                  "," props) as Hsum.
    simpl String.length. rewrite string_length_app.
    apply le_n_S. etrans; [apply Hsum|lia].
    apply Forall_forall. intros [k x] Hx.
    rewrite Forall_forall in IH, Hv.
    unfold member_text. rewrite !string_length_app. simpl fst. simpl snd.
    specialize (IH _ Hx (Hv _ Hx)). simpl in IH. lia.
Qed.

Theorem parse_stringify (v : value) :
  plain v → parse (stringify v) = Some v.
Proof.
  intros Hv. unfold parse.
  pose proof (parse_value_stringify v Hv (S (String.length (stringify v))))
    as Hp.
  pose proof (size_le_length v Hv).
  specialize (Hp ltac:(lia) "" eq_refl).
  rewrite string_app_nil_r in Hp. by rewrite Hp.
Qed.

Lemma stringify_nonempty (v : value) : plain v → stringify v ≠ "".
Proof.
  intros Hv E. pose proof (size_le_length v Hv) as Hs.
  pose proof (size_pos v). rewrite E in Hs. simpl in Hs. lia.
Qed.

Theorem reads_back_plain (v : value) : plain v → @reads_back codec v.
Proof.
  intros Hv. split; [by apply stringify_nonempty | by apply parse_stringify].
Qed.

(** *** Records whose names are not array indices *)

Lemma has_prop_false (k : string) (props : list (string * value)) :
  has_prop k props = false ↔ k ∉ map fst props.
Proof.
  unfold has_prop. induction props as [|[k' v] l IH]; simpl.
  - split; [intros _; apply not_elem_of_nil | done].
  - rewrite not_elem_of_cons, orb_false_iff, IH.
    split; intros [H1 H2]; (split; [|done]).
    + intros ->. by rewrite String.eqb_refl in H1.
    + apply String.eqb_neq. congruence.
Qed.

Lemma assign_named (l acc : list (string * value)) :
  named (acc ++ l) →
  fold_left (fun o p => set_prop (fst p) (snd p) o) l acc = acc ++ l.
Proof.
  revert acc. induction l as [|[k v] l IH]; intros acc [Hnd Hix]; simpl.
  - by rewrite app_nil_r.
  - assert (set_prop k v acc = acc ++ [(k, v)]) as ->.
    { unfold set_prop.
      rewrite map_app in Hnd. apply NoDup_app in Hnd as (_ & Hdis & _).
      assert (has_prop k acc = false) as ->.
      { apply has_prop_false. intros Hk. apply (Hdis k Hk). simpl. left. }
      apply Forall_app in Hix as [_ Hix]. apply Forall_cons in Hix as [Hk _].
      simpl in Hk. by rewrite Hk. }
    rewrite IH; rewrite <- app_assoc; [done|]. split; done.
Qed.

Lemma plain_named (props : list (string * value)) :
  named props → Forall (fun p => plain (snd p)) props → plain (VObj props).
Proof.
  intros Hn Hv. apply plain_VObj. split; [done|].
  unfold create_props. by rewrite assign_named.
Qed.

End EcmaJSONFacts.

(** ** Web Storage *)

Module StorageFacts.
Import Storage.

Lemma getItem_setItem (s : t) (k v k' : string) :
  getItem (setItem s k v) k'
  = if String.eqb k k' then Some v else getItem s k'.
Proof.
  induction s as [|[k0 v0] s IH]; simpl.
  - done.
  - destruct (String.eqb_spec k0 k) as [->|Hne]; simpl.
    + by destruct (String.eqb_spec k k').
    + rewrite IH. destruct (String.eqb_spec k0 k') as [->|]; [|done].
      by destruct (String.eqb_spec k k').
Qed.

Lemma getItem_removeItem (s : t) (k k' : string) :
  getItem (removeItem s k) k'
  = if String.eqb k k' then None else getItem s k'.
Proof.
  unfold removeItem. induction s as [|[k0 v0] s IH]; simpl.
  - by destruct (String.eqb k k').
  - destruct (String.eqb_spec k0 k) as [->|Hne]; simpl.
    + rewrite IH. by destruct (String.eqb_spec k k').
    + rewrite IH. destruct (String.eqb_spec k0 k') as [->|]; [|done].
      by destruct (String.eqb_spec k k').
Qed.

Lemma removeItem_absent (s : t) (k : string) :
  getItem s k = None → removeItem s k = s.
Proof.
  unfold removeItem. induction s as [|[k0 v0] s IH]; simpl; [done|].
  destruct (String.eqb_spec k0 k); simpl; [done|].
  intros Hk. by rewrite IH.
Qed.

Lemma removeItem_idemp (s : t) (k : string) :
  removeItem (removeItem s k) k = removeItem s k.
Proof.
  apply removeItem_absent. rewrite getItem_removeItem.
  by rewrite String.eqb_refl.
Qed.

Lemma keys_removeItem (s : t) (k : string) :
  keys (removeItem s k)
  = List.filter (fun k' => negb (String.eqb k' k)) (keys s).
Proof.
  unfold removeItem, keys. induction s as [|[k0 v0] s IH]; simpl; [done|].
  destruct (String.eqb k0 k); simpl; by rewrite IH.
Qed.

Lemma key_lookup (s : t) (i : nat) : key s i = keys s !! i.
Proof. unfold key, keys. by rewrite list_lookup_fmap. Qed.

Lemma getItem_is_Some (s : t) (k : string) :
  is_Some (getItem s k) ↔ k ∈ keys s.
Proof.
  unfold keys. induction s as [|[k0 v0] s IH]; simpl.
  - split; [by intros [? ?] | by intros ?%elem_of_nil].
  - rewrite elem_of_cons. destruct (String.eqb_spec k0 k) as [->|Hne].
    + split; [by left | by eexists].
    + rewrite IH. split; [by right | by intros [->|?]].
Qed.

End StorageFacts.

Lemma outside_setItem (s : Storage.t) (k v : string) :
  JsString.startsWith STORAGE_PREFIX k = true →
  outside (Storage.setItem s k v) = outside s.
Proof.
  intros Hk. unfold outside. induction s as [|[k0 v0] s IH]; simpl.
  - by rewrite Hk.
  - destruct (String.eqb_spec k0 k) as [->|Hne]; simpl.
    + by rewrite Hk.
    + by rewrite IH.
Qed.

Lemma outside_removeItem (s : Storage.t) (k : string) :
  JsString.startsWith STORAGE_PREFIX k = true →
  outside (Storage.removeItem s k) = outside s.
Proof.
  intros Hk. unfold outside, Storage.removeItem.
  induction s as [|[k0 v0] s IH]; simpl; [done|].
  destruct (String.eqb_spec k0 k) as [->|Hne]; simpl.
  - by rewrite Hk.
  - by rewrite IH.
Qed.

Lemma outside_getItem (s s' : Storage.t) (k : string) :
  outside s = outside s' →
  JsString.startsWith STORAGE_PREFIX k = false →
  Storage.getItem s k = Storage.getItem s' k.
Proof.
  assert (∀ s, JsString.startsWith STORAGE_PREFIX k = false →
               Storage.getItem s k = Storage.getItem (outside s) k) as Hout.
  { intros s0 Hk. unfold outside.
    induction s0 as [|[k0 v0] s0 IH]; simpl; [done|].
    destruct (String.eqb_spec k0 k) as [->|Hne].
    - rewrite Hk. simpl. by rewrite String.eqb_refl.
    - destruct (negb _); simpl; [|done].
      by destruct (String.eqb_spec k0 k). }
  intros E Hk. by rewrite (Hout s), (Hout s'), E.
Qed.

(** ** Object properties *)

Lemma get_prop_replace (k k' : string) (v : value) props :
  has_prop k props = true →
  get_prop k' (replace_prop k v props)
  = if String.eqb k k' then v else get_prop k' props.
Proof.
  unfold has_prop. induction props as [|[k0 v0] props IH]; simpl; [done|].
  destruct (String.eqb_spec k0 k) as [->|Hne]; simpl.
  - intros _. by destruct (String.eqb_spec k k').
  - intros Hk. rewrite (IH Hk).
    destruct (String.eqb_spec k0 k') as [->|]; [|done].
    by destruct (String.eqb_spec k k').
Qed.

Lemma get_prop_absent (k : string) props :
  has_prop k props = false → get_prop k props = VUndefined.
Proof.
  unfold has_prop. induction props as [|[k0 v0] props IH]; simpl; [done|].
  destruct (String.eqb k0 k); simpl; [done | exact IH].
Qed.

Lemma get_prop_insert_index (n : N) (k k' : string) (v : value) props :
  has_prop k props = false →
  get_prop k' (insert_index n k v props)
  = if String.eqb k k' then v else get_prop k' props.
Proof.
  unfold has_prop. induction props as [|[k0 v0] props IH]; simpl.
  - intros _. by destruct (String.eqb k k').
  - destruct (String.eqb_spec k0 k) as [->|Hne]; simpl; [done|].
    intros Hk.
    destruct (array_index k0) as [n0|]; [destruct (n0 <? n)%N|]; simpl;
      try done.
    rewrite (IH Hk). destruct (String.eqb_spec k0 k') as [->|]; [|done].
    by destruct (String.eqb_spec k k').
Qed.

Lemma get_prop_app (k : string) props1 props2 :
  get_prop k (props1 ++ props2)
  = if has_prop k props1 then get_prop k props1 else get_prop k props2.
Proof.
  unfold has_prop. induction props1 as [|[k0 v0] props1 IH]; simpl; [done|].
  by destruct (String.eqb k0 k).
Qed.

Lemma get_set_prop (k k' : string) (v : value) props :
  get_prop k' (set_prop k v props)
  = if String.eqb k k' then v else get_prop k' props.
Proof.
  unfold set_prop. destruct (has_prop k props) eqn:Hk.
  - by apply get_prop_replace.
  - destruct (array_index k) as [n|].
    + by apply get_prop_insert_index.
    + rewrite get_prop_app. simpl.
      destruct (String.eqb_spec k k') as [->|Hne].
      * by rewrite Hk.
      * destruct (has_prop k' props) eqn:Hk'; [done|].
        by rewrite get_prop_absent.
Qed.

Lemma has_prop_app (k : string) props1 props2 :
  has_prop k (props1 ++ props2) = has_prop k props1 || has_prop k props2.
Proof. unfold has_prop. apply existsb_app. Qed.

Lemma has_prop_elem_of (k : string) props :
  has_prop k props = true ↔ k ∈ map fst props.
Proof.
  unfold has_prop. induction props as [|[k0 v0] props IH]; simpl.
  - split; [done | by intros ?%elem_of_nil].
  - rewrite elem_of_cons. destruct (String.eqb_spec k0 k) as [->|Hne]; simpl.
    + split; [by left | done].
    + rewrite IH. split; [by right | by intros [->|?]].
Qed.

Lemma has_prop_rev (k : string) props :
  has_prop k (rev props) = has_prop k props.
Proof.
  apply eq_true_iff_eq. rewrite !has_prop_elem_of, map_rev.
  rewrite !list_elem_of_In. symmetry. apply in_rev.
Qed.

(** With distinct names, the last assignment to a name is the only one. *)
Lemma get_prop_rev (k : string) props :
  NoDup (map fst props) → get_prop k (rev props) = get_prop k props.
Proof.
  induction props as [|[k0 v0] props IH]; simpl; [done|].
  intros [Hk0 Hnd]%NoDup_cons. rewrite get_prop_app, (IH Hnd). simpl.
  destruct (String.eqb_spec k0 k) as [->|Hne].
  - rewrite has_prop_rev.
    destruct (has_prop k props) eqn:Hk; [|done].
    destruct Hk0. by apply has_prop_elem_of.
  - rewrite has_prop_rev.
    destruct (has_prop k props) eqn:Hk; [done|].
    by rewrite get_prop_absent.
Qed.

Lemma has_prop_set_prop (k k' : string) (v : value) props :
  has_prop k (set_prop k' v props) = has_prop k props || String.eqb k' k.
Proof.
  apply eq_true_iff_eq. rewrite orb_true_iff, !has_prop_elem_of.
  rewrite String.eqb_eq. unfold set_prop.
  destruct (has_prop k' props) eqn:Hk'.
  - apply has_prop_elem_of in Hk'.
    assert (map fst (replace_prop k' v props) = map fst props) as ->.
    { clear Hk'. induction props as [|[k0 v0] l IH]; simpl; [done|].
      destruct (String.eqb k0 k'); simpl; by rewrite ?IH. }
    split; [tauto|]. intros [?| <-]; done.
  - destruct (array_index k') as [n|].
    + assert (∀ x, x ∈ map fst (insert_index n k' v props)
                   ↔ x = k' ∨ x ∈ map fst props) as Hin.
      { clear Hk'. intros x. induction props as [|[k0 v0] l IH]; simpl.
        - rewrite elem_of_cons, elem_of_nil. tauto.
        - destruct (array_index k0) as [n0|]; simpl.
          + destruct (n0 <? n)%N; simpl.
            * rewrite !elem_of_cons, IH. tauto.
            * rewrite !elem_of_cons. tauto.
          + rewrite !elem_of_cons. tauto. }
      rewrite Hin. split; [intros [->|?]; auto | intros [?| <-]; auto].
    + rewrite map_app, elem_of_app. simpl. rewrite elem_of_cons, elem_of_nil.
      split; [intros [?|[->|[]]]; auto | intros [?| <-]; auto].
Qed.

(** What the creation of properties leaves under each name. *)
Lemma get_prop_create_props (k : string) target l :
  get_prop k (create_props target l)
  = if has_prop k l then get_prop k (rev l) else get_prop k target.
Proof.
  unfold create_props.
  induction l as [|[k0 v0] l IH] using rev_ind; simpl; [done|].
  rewrite fold_left_app. simpl. rewrite get_set_prop, IH.
  rewrite has_prop_app, rev_app_distr. simpl.
  destruct (String.eqb_spec k0 k) as [->|Hne].
  - by rewrite orb_true_r.
  - by rewrite orb_false_r.
Qed.

(** [Object.assign] neither creates nor removes an own [__proto__]. *)
Lemma has_proto_Object_assign target (source : value) :
  has_prop "__proto__" (Object_assign target source)
  = has_prop "__proto__" target.
Proof.
  unfold Object_assign. generalize (own_props source) as l.
  induction l as [|[k0 v0] l IH] using rev_ind; simpl; [done|].
  rewrite fold_left_app. simpl. unfold assign_prop at 1. simpl.
  destruct (String.eqb_spec k0 "__proto__") as [->|Hne]; simpl.
  - destruct (has_prop "__proto__" (fold_left assign_prop l target)) eqn:Hp;
      simpl.
    + by rewrite has_prop_set_prop, Hp, <- IH.
    + by rewrite Hp, <- IH.
  - rewrite has_prop_set_prop, IH.
    apply String.eqb_neq in Hne. by rewrite Hne, orb_false_r.
Qed.

(** What [Object.assign] leaves under each name but [__proto__]. *)
Lemma get_prop_Object_assign (k : string) target (source : value) :
  k ≠ "__proto__" →
  get_prop k (Object_assign target source)
  = if has_prop k (own_props source)
    then get_prop k (rev (own_props source))
    else get_prop k target.
Proof.
  intros Hk. unfold Object_assign. generalize (own_props source) as l.
  induction l as [|[k0 v0] l IH] using rev_ind; simpl; [done|].
  rewrite fold_left_app. simpl. unfold assign_prop at 1. simpl.
  rewrite has_prop_app, rev_app_distr. simpl.
  destruct (String.eqb k0 "__proto__"
            && negb (has_prop "__proto__" (fold_left assign_prop l target)))
    eqn:Hskip.
  - apply andb_true_iff in Hskip as [->%String.eqb_eq _].
    rewrite IH.
    assert (String.eqb "__proto__" k = false) as ->
      by (apply String.eqb_neq; congruence).
    by rewrite orb_false_r.
  - rewrite get_set_prop, IH.
    destruct (String.eqb_spec k0 k) as [->|Hne].
    + by rewrite orb_true_r.
    + by rewrite orb_false_r.
Qed.

(** On a target with an own [__proto__] every name is assigned alike. *)
Lemma get_prop_Object_assign_own (k : string) target (source : value) :
  has_prop "__proto__" target = true →
  get_prop k (Object_assign target source)
  = if has_prop k (own_props source)
    then get_prop k (rev (own_props source))
    else get_prop k target.
Proof.
  intros Hp. unfold Object_assign.
  assert (∀ l, has_prop "__proto__" (fold_left assign_prop l target) = true)
    as Hinv.
  { intros l. pose proof (has_proto_Object_assign target (VObj l)) as E.
    unfold Object_assign in E. simpl in E. by rewrite E. }
  generalize (own_props source) as l.
  induction l as [|[k0 v0] l IH] using rev_ind; simpl; [done|].
  rewrite fold_left_app. simpl. unfold assign_prop at 1. simpl.
  rewrite has_prop_app, rev_app_distr, Hinv, andb_false_r. simpl.
  rewrite get_set_prop, IH.
  destruct (String.eqb_spec k0 k) as [->|Hne].
  - by rewrite orb_true_r.
  - by rewrite orb_false_r.
Qed.

(** Without a field [__proto__] the fields are created or replaced one
    after the other. *)
Lemma Object_assign_create target (source : value) :
  has_prop "__proto__" (own_props source) = false →
  Object_assign target source = create_props target (own_props source).
Proof.
  unfold Object_assign, create_props. generalize (own_props source) as l.
  intros l. revert target. induction l as [|[k0 v0] l IH]; intros target Hl;
    simpl; [done|].
  simpl in Hl. apply orb_false_iff in Hl as [Hk0 Hl].
  unfold assign_prop at 2. simpl. rewrite Hk0. simpl. by apply IH.
Qed.

(** An own [__proto__], as [JSON.parse] creates it, is assigned like any
    other property; without one the name stays absent. *)
Lemma get_proto_Object_assign target (source : value) :
  has_prop "__proto__" target = false →
  get_prop "__proto__" (Object_assign target source) = VUndefined.
Proof.
  intros Hp. apply get_prop_absent. by rewrite has_proto_Object_assign.
Qed.

(** ** Sorting *)

Ltac distinct_strings :=
  apply (bool_decide_unpack _); vm_compute; exact I.

Ltac solve_elem_of_cons :=
  repeat match goal with
         | H : _ ∈ _ :: _ |- _ => rewrite elem_of_cons in H
         end;
  rewrite ?elem_of_cons; tauto.

Section Sort.

Context {A : Type} (compareFn : A → A → option Z) (f : A → Z).

Local Abbreviation orders_desc := (orders_desc compareFn f).

Lemma sort_insert_perm (x : A) (l : list A) :
  sort_insert compareFn x l ≡ₚ x :: l.
Proof.
  induction l as [|y l IH]; simpl; [done|].
  destruct (0 <? default 0 (compareFn x y)); [|done].
  rewrite IH. apply Permutation_swap.
Qed.

Lemma Array_sort_perm (l : list A) : Array_sort compareFn l ≡ₚ l.
Proof.
  induction l as [|x l IH]; simpl; [done|].
  by rewrite sort_insert_perm, IH.
Qed.

Lemma sort_insert_sorted (x : A) (l : list A) :
  orders_desc (x :: l) →
  StronglySorted (λ a b, f b <= f a) l →
  StronglySorted (λ a b, f b <= f a) (sort_insert compareFn x l).
Proof.
  intros Hc. induction l as [|y l IH]; simpl; intros Hs.
  - repeat constructor.
  - apply StronglySorted_inv in Hs as [Hs Hy].
    rewrite (Hc x y) by solve_elem_of_cons. simpl.
    destruct (Z.ltb_spec 0 (f y - f x)).
    + constructor.
      * apply IH; [|done]. intros a b Ha Hb. apply Hc; solve_elem_of_cons.
      * rewrite sort_insert_perm. constructor; [lia | done].
    + constructor; [by constructor|].
      constructor; [lia|].
      eapply Forall_impl; [exact Hy|]. simpl. intros; lia.
Qed.

Lemma Array_sort_sorted (l : list A) :
  orders_desc l →
  StronglySorted (λ a b, f b <= f a) (Array_sort compareFn l).
Proof.
  induction l as [|x l IH]; simpl; intros Hc; [constructor|].
  apply sort_insert_sorted.
  - intros a b Ha Hb. apply Hc.
    + revert Ha. rewrite !elem_of_cons, Array_sort_perm. tauto.
    + revert Hb. rewrite !elem_of_cons, Array_sort_perm. tauto.
  - apply IH. intros a b Ha Hb. apply Hc; solve_elem_of_cons.
Qed.

(** Stability: entries with the same [f] keep their relative order. *)
Lemma sort_insert_stable (u : Z) (x : A) (l : list A) :
  orders_desc (x :: l) →
  List.filter (λ a, f a =? u) (sort_insert compareFn x l)
  = List.filter (λ a, f a =? u) (x :: l).
Proof.
  intros Hc. induction l as [|y l IH]; [done|].
  simpl. rewrite (Hc x y) by solve_elem_of_cons. simpl.
  destruct (Z.ltb_spec 0 (f y - f x)); [|done].
  simpl. rewrite IH by (intros a b Ha Hb; apply Hc; solve_elem_of_cons).
  simpl. destruct (Z.eqb_spec (f x) u), (Z.eqb_spec (f y) u); try done.
  lia.
Qed.

Lemma Array_sort_stable (u : Z) (l : list A) :
  orders_desc l →
  List.filter (λ a, f a =? u) (Array_sort compareFn l)
  = List.filter (λ a, f a =? u) l.
Proof.
  induction l as [|x l IH]; simpl; intros Hc; [done|].
  rewrite sort_insert_stable.
  - simpl. rewrite IH; [done|]. intros a b Ha Hb. apply Hc; solve_elem_of_cons.
  - intros a b Ha Hb. apply Hc.
    + revert Ha. rewrite !elem_of_cons, Array_sort_perm. tauto.
    + revert Hb. rewrite !elem_of_cons, Array_sort_perm. tauto.
Qed.

End Sort.

(** The sort with a comparator that returns on every pair of the array. *)
Section SortWith.

Context {A : Type} (compareFn : A → A → outcome (option Z))
        (pure : A → A → option Z).

Lemma sort_insert_with_returns (x : A) (l : list A) :
  (∀ y, y ∈ l → compareFn x y = Ret (pure x y)) →
  sort_insert_with compareFn x l = Ret (sort_insert pure x l).
Proof.
  induction l as [|y l IH]; intros Hc; simpl; [done|].
  rewrite (Hc y) by solve_elem_of_cons.
  unfold mbind, outcome_bind.
  destruct (0 <? default 0 (pure x y)); [|done].
  rewrite IH; [done|]. intros z Hz. apply Hc. solve_elem_of_cons.
Qed.

Lemma Array_sort_with_returns (l : list A) :
  (∀ x y, x ∈ l → y ∈ l → compareFn x y = Ret (pure x y)) →
  Array_sort_with compareFn l = Ret (Array_sort pure l).
Proof.
  induction l as [|x l IH]; intros Hc; simpl; [done|].
  rewrite IH by (intros a b Ha Hb; apply Hc; solve_elem_of_cons).
  unfold mbind, outcome_bind. apply sort_insert_with_returns.
  intros y Hy. apply Hc; [solve_elem_of_cons|].
  rewrite elem_of_cons. right. revert Hy. by rewrite Array_sort_perm.
Qed.

(** A sort that returns has rearranged the array. *)
Lemma sort_insert_with_perm (x : A) (l s : list A) :
  sort_insert_with compareFn x l = Ret s → s ≡ₚ x :: l.
Proof.
  revert s. induction l as [|y l IH]; intros s; simpl.
  - by intros [= <-].
  - destruct (compareFn x y) as [r| |]; unfold mbind, outcome_bind; try done.
    destruct (0 <? default 0 r); [|by intros [= <-]].
    destruct (sort_insert_with compareFn x l) as [s'| |]; try done.
    intros [= <-]. rewrite (IH s' eq_refl). apply Permutation_swap.
Qed.

Lemma Array_sort_with_perm (l s : list A) :
  Array_sort_with compareFn l = Ret s → s ≡ₚ l.
Proof.
  revert s. induction l as [|x l IH]; intros s; simpl.
  - by intros [= <-].
  - destruct (Array_sort_with compareFn l) as [s'| |];
      unfold mbind, outcome_bind; try done.
    intros Hs%sort_insert_with_perm. by rewrite Hs, (IH s' eq_refl).
Qed.

(** An exception of the comparator on the first pair that is compared
    ends the sort. *)
Lemma Array_sort_with_throws (x y : A) (l : list A) (e : exn) :
  (∀ a b, a ∈ x :: y :: l → b ∈ x :: y :: l →
          compareFn a b = Throw e ∨ ∃ r, compareFn a b = Ret r) →
  (∀ b, b ∈ x :: y :: l → compareFn x b = Throw e) →
  Array_sort_with compareFn (x :: y :: l) = Throw e.
Proof.
  intros Hall Hx.
  assert (∀ l', (∀ a b, a ∈ l' → b ∈ l' →
                   compareFn a b = Throw e ∨ ∃ r, compareFn a b = Ret r) →
                Array_sort_with compareFn l' = Throw e
                ∨ ∃ s, Array_sort_with compareFn l' = Ret s ∧ s ≡ₚ l')
    as Hsort.
  { induction l' as [|a l' IH]; intros Hc; simpl; [right; by exists []|].
    destruct IH as [-> | (s & -> & Hs)].
    { intros c d Hc' Hd. apply Hc; solve_elem_of_cons. }
    { by left. }
    unfold mbind, outcome_bind.
    assert (∀ s', s' ⊆ l' →
              sort_insert_with compareFn a s' = Throw e
              ∨ ∃ s'', sort_insert_with compareFn a s' = Ret s''
                       ∧ s'' ≡ₚ a :: s') as Hins.
    { induction s' as [|b s' IH']; intros Hsub; simpl; [right; by exists [a]|].
      destruct (Hc a b) as [-> | [r ->]];
        [solve_elem_of_cons
        |rewrite elem_of_cons; right; apply Hsub; solve_elem_of_cons
        |by left|].
      unfold mbind, outcome_bind.
      destruct (0 <? default 0 r); [|right; by eexists].
      destruct IH' as [-> | (s'' & -> & Hs'')].
      { intros z Hz. apply Hsub. solve_elem_of_cons. }
      { by left. }
      right. eexists. split; [done|]. rewrite Hs''. apply Permutation_swap. }
    destruct (Hins s) as [-> | (s'' & -> & Hs'')].
    { intros z Hz. by rewrite <- Hs. }
    { by left. }
    right. exists s''. split; [done|]. by rewrite Hs'', Hs. }
  simpl. destruct (Hsort (y :: l)) as [Hthrow | (s & Hs & Hperm)].
  { intros a b Ha Hb. apply Hall; solve_elem_of_cons. }
  { simpl in Hthrow. by rewrite Hthrow. }
  simpl in Hs. rewrite Hs. unfold mbind, outcome_bind.
  destruct s as [|z s]; [by apply Permutation_nil_cons in Hperm|].
  simpl. rewrite Hx; [done|].
  rewrite elem_of_cons. right. rewrite <- Hperm. solve_elem_of_cons.
Qed.

End SortWith.

Lemma by_updatedAt_numbers (a b : value) (ua ub : Z) :
  member a "updatedAt" = VNum ua → member b "updatedAt" = VNum ub →
  by_updatedAt a b = Ret (Some (ub - ua)).
Proof. unfold by_updatedAt. by intros -> ->. Qed.

Lemma recent_first_numbers (a b : value) (ua ub : Z) :
  member a "updatedAt" = VNum ua → member b "updatedAt" = VNum ub →
  recent_first a b = Some (ub - ua).
Proof.
  intros Ha Hb. unfold recent_first. by rewrite (by_updatedAt_numbers a b ua ub).
Qed.

Lemma orders_desc_numbers (l : list value) :
  Forall (λ n, ∃ u, member n "updatedAt" = VNum u) l →
  orders_desc recent_first updatedAt_of l.
Proof.
  intros Hl a b Ha Hb. rewrite Forall_forall in Hl.
  destruct (Hl a Ha) as (u & Hu), (Hl b Hb) as (v & Hv).
  rewrite (recent_first_numbers a b u v) by done.
  unfold updatedAt_of. by rewrite Hu, Hv.
Qed.

(** With numbers under [updatedAt] the sort of [listNotes] returns. *)
Lemma Array_sort_numbers (l : list value) :
  Forall (λ n, ∃ u, member n "updatedAt" = VNum u) l →
  Array_sort_with by_updatedAt l = Ret (Array_sort recent_first l).
Proof.
  intros Hl. apply Array_sort_with_returns. intros x y Hx Hy.
  rewrite Forall_forall in Hl.
  destruct (Hl x Hx) as [ux Hux], (Hl y Hy) as [uy Huy].
  by rewrite (by_updatedAt_numbers x y ux uy),
             (recent_first_numbers x y ux uy).
Qed.

(** ** Running the store operations *)

Lemma add_calls_nil (w : world) : add_calls [] w = w.
Proof. destruct w. unfold add_calls. simpl. by rewrite app_nil_r. Qed.

Lemma add_calls_app (cs1 cs2 : list call) (w : world) :
  add_calls cs2 (add_calls cs1 w) = add_calls (cs1 ++ cs2) w.
Proof. unfold add_calls. simpl. by rewrite app_assoc. Qed.

Lemma backend_eqb_refl (b : backend) : backend_eqb b b = true.
Proof. by destruct b. Qed.

Lemma is_note_key_Some (k : string) :
  is_note_key (Some k)
  = if JsString.startsWith STORAGE_PREFIX k then Some k else None.
Proof.
  unfold is_note_key. destruct (String.eqb_spec k "") as [->|]; [done|].
  simpl. done.
Qed.

Lemma omap_lookup_seq {A B : Type} (g : A → option B) (l : list A) :
  omap (λ i, l !! i ≫= g) (seq 0 (length l)) = omap g l.
Proof.
  cut (∀ k, omap (λ i, (k ++ l) !! i ≫= g) (seq (length k) (length l))
            = omap g l).
  { intros Hk. apply (Hk []). }
  induction l as [|x l IH]; intros k; simpl; [done|].
  rewrite list_lookup_middle by done. simpl.
  specialize (IH (k ++ [x])). rewrite length_app in IH. simpl in IH.
  rewrite Nat.add_1_r, <- app_assoc in IH.
  destruct (g x); [f_equal|]; exact IH.
Qed.

Section StoreRuns.

Context `{JSON}.

Local Arguments JsString.slice_from : simpl never.
Local Arguments JsString.startsWith : simpl never.
Local Arguments String.append : simpl never.

Lemma loadNote_run (id : string) (w : world) :
  loadNote id w
  = (Ret (parse_note (Storage.getItem (store_of (selected w) w)
                                      (STORAGE_PREFIX +:+ id))),
     log (GetItem (selected w) (STORAGE_PREFIX +:+ id)) w).
Proof.
  unfold loadNote, mbind, M_bind, getStore, Storage_getItem, parse_note.
  destruct (Storage.getItem _ _) as [raw|]; [|done].
  destruct (String.eqb raw ""); [done|].
  unfold try_catch, JSON_parse_M. by destruct (JSON_parse raw).
Qed.

Lemma saveNote_run props (w : world) :
  let note := VObj (set_prop "updatedAt" (VNum (now w (now_reads w))) props) in
  let key := STORAGE_PREFIX +:+ ToString (member note "id") in
  converts (get_prop "id" props) = true →
  saveNote (VObj props) w
  = (Ret note,
     log (SetItem (selected w) key (JSON_stringify note))
         (set_store (selected w)
            (Storage.setItem (store_of (selected w) w) key
                             (JSON_stringify note))
            (read_clock w))).
Proof.
  intros note key Hid. unfold key, note.
  unfold saveNote, mbind, M_bind, Date_now, getStore, lift, to_string.
  cbn [member]. rewrite !get_set_prop. cbn [String.eqb Ascii.eqb Bool.eqb].
  by rewrite Hid.
Qed.

(** An id that does not convert stops [saveNote] before it writes. *)
Lemma saveNote_throws props (w : world) :
  converts (get_prop "id" props) = false →
  saveNote (VObj props) w = (Throw TypeError, read_clock w).
Proof.
  intros Hid.
  unfold saveNote, mbind, M_bind, Date_now, getStore, lift, to_string.
  cbn [member]. rewrite get_set_prop. cbn [String.eqb Ascii.eqb Bool.eqb].
  by rewrite Hid.
Qed.

Lemma deleteNote_run (id : string) (w : world) :
  deleteNote id w
  = (Ret tt,
     log (RemoveItem (selected w) (STORAGE_PREFIX +:+ id))
         (set_store (selected w)
            (Storage.removeItem (store_of (selected w) w)
                                (STORAGE_PREFIX +:+ id)) w)).
Proof. reflexivity. Qed.

(** A loop whose turns only add calls to the record of the world. *)
Lemma for_each_add_calls {A B : Type} (body : B → A → M B)
    (step : B → A → B) (ok : call → Prop) (w : world) :
  (∀ acc x cs0, ∃ cs,
      body acc x (add_calls cs0 w)
      = (Ret (step acc x), add_calls (cs0 ++ cs) w) ∧ Forall ok cs) →
  ∀ l acc cs0, ∃ cs,
    for_each body l acc (add_calls cs0 w)
    = (Ret (fold_left step l acc), add_calls (cs0 ++ cs) w) ∧ Forall ok cs.
Proof.
  intros Hbody. induction l as [|x l IH]; intros acc cs0.
  - exists []. by rewrite app_nil_r.
  - destruct (Hbody acc x cs0) as (cs1 & Hrun1 & Hok1).
    destruct (IH (step acc x) (cs0 ++ cs1)) as (cs2 & Hrun2 & Hok2).
    exists (cs1 ++ cs2). split; [|by apply Forall_app].
    simpl. unfold mbind, M_bind. rewrite Hrun1, Hrun2.
    by rewrite app_assoc.
Qed.

(** The loop over the entries of the selected storage. *)
Lemma for_index_add_calls {B : Type} (body : B → nat → M B)
    (step : B → nat → B) (ok : call → Prop) (acc : B) (w : world) :
  ok (Length (selected w)) →
  (∀ acc x cs0, ∃ cs,
      body acc x (add_calls cs0 w)
      = (Ret (step acc x), add_calls (cs0 ++ cs) w) ∧ Forall ok cs) →
  ∃ cs,
    for_index (selected w) body acc w
    = (Ret (fold_left step
              (seq 0 (Storage.length (store_of (selected w) w))) acc),
       add_calls cs w)
    ∧ Forall ok cs.
Proof.
  intros Hlen Hbody.
  destruct (for_each_add_calls
              (λ acc i, acc ← body acc i;
                        Storage_length (selected w);; mret acc)
              step ok w) with
    (l := seq 0 (Storage.length (store_of (selected w) w)))
    (acc := acc) (cs0 := [Length (selected w)]) as (cs & Hrun & Hcs).
  - intros acc' x cs0. destruct (Hbody acc' x cs0) as (cs & Hrun & Hcs).
    exists (cs ++ [Length (selected w)]). split.
    + unfold mbind, M_bind. rewrite Hrun.
      unfold Storage_length, log, mret, M_ret.
      by rewrite add_calls_app, app_assoc.
    + apply Forall_app. split; [done|]. by constructor.
  - exists ([Length (selected w)] ++ cs). split.
    + unfold for_index, mbind at 1, M_bind at 1, Storage_length at 1, log.
      exact Hrun.
    + apply Forall_app. split; [|done]. by constructor.
Qed.

Lemma listNotes_body_run (notes : list value) (i : nat) (cs0 : list call)
    (w : world) :
  let s := store_of (selected w) w in
  ∃ cs,
    listNotes_body (selected w) notes i (add_calls cs0 w)
    = (Ret (notes ++ option_list (Storage.key s i ≫= note_under s)),
       add_calls (cs0 ++ cs) w)
    ∧ Forall (λ c, in_namespace (selected w) c = true) cs.
Proof.
  intros s. unfold listNotes_body, mbind at 1, M_bind at 1, Storage_key at 1.
  change (store_of (selected w) (add_calls cs0 w)) with s.
  destruct (Storage.key s i) as [k|] eqn:Hkey.
  - rewrite is_note_key_Some. unfold mbind at 2, option_bind, note_under.
    destruct (JsString.startsWith STORAGE_PREFIX k) eqn:Hk.
    + unfold mbind, M_bind. rewrite loadNote_run.
      assert (STORAGE_PREFIX +:+
              JsString.slice_from (String.length STORAGE_PREFIX) k = k)
        as -> by exact (startsWith_slice _ _ Hk).
      change (store_of _ (log (KeyAt (selected w) i) (add_calls cs0 w)))
        with s.
      change (selected (log (KeyAt (selected w) i) (add_calls cs0 w)))
        with (selected w).
      exists [KeyAt (selected w) i; GetItem (selected w) k]. split.
      * unfold mret, M_ret, log. rewrite !add_calls_app.
        destruct (ToBoolean _); simpl; [done | by rewrite app_nil_r].
      * repeat constructor; simpl; by rewrite backend_eqb_refl.
    + exists [KeyAt (selected w) i]. split.
      * unfold mret, M_ret, log. rewrite add_calls_app. simpl.
        by rewrite app_nil_r.
      * repeat constructor; simpl; by rewrite backend_eqb_refl.
  - exists [KeyAt (selected w) i]. split.
    + unfold mret, M_ret, log. rewrite add_calls_app. simpl.
      by rewrite app_nil_r.
    + repeat constructor; simpl; by rewrite backend_eqb_refl.
Qed.

Lemma fold_left_option_list {A B : Type} (g : A → option B) (l : list A)
    (acc : list B) :
  fold_left (λ acc x, acc ++ option_list (g x)) l acc = acc ++ omap g l.
Proof.
  revert acc. induction l as [|x l IH]; intros acc; simpl.
  - by rewrite app_nil_r.
  - rewrite IH. destruct (g x); simpl; [|by rewrite app_nil_r].
    by rewrite <- app_assoc.
Qed.

Lemma listNotes_sorts (w : world) :
  ∃ cs,
    listNotes w
    = (Array_sort_with by_updatedAt (collect (store_of (selected w) w)),
       add_calls cs w)
    ∧ Forall (λ c, in_namespace (selected w) c = true) cs.
Proof.
  set (s := store_of (selected w) w).
  destruct (for_index_add_calls (listNotes_body (selected w))
              (λ notes i, notes ++ option_list (Storage.key s i ≫= note_under s))
              (λ c, in_namespace (selected w) c = true) [] w)
    as (cs & Hrun & Hcs).
  { simpl. by rewrite backend_eqb_refl. }
  { intros acc x cs0. apply listNotes_body_run. }
  exists cs. split; [|done].
  - unfold listNotes, mbind, M_bind, getStore.
    rewrite Hrun. unfold lift. do 2 f_equal. fold s.
    rewrite fold_left_option_list. simpl.
    unfold collect, Storage.length.
    rewrite <- (omap_lookup_seq (note_under s) (Storage.keys s)).
    unfold Storage.keys at 2. rewrite length_map.
    apply list_omap_ext, Forall2_same_length_lookup. split; [done|].
    intros i x y Hx Hy. rewrite StorageFacts.key_lookup. congruence.
Qed.

Lemma listNotes_run (w : world) :
  Forall (λ n, ∃ u, member n "updatedAt" = VNum u)
         (collect (store_of (selected w) w)) →
  ∃ cs,
    listNotes w
    = (Ret (Array_sort recent_first (collect (store_of (selected w) w))),
       add_calls cs w)
    ∧ Forall (λ c, in_namespace (selected w) c = true) cs.
Proof.
  intros Hn. destruct (listNotes_sorts w) as (cs & Hrun & Hcs).
  exists cs. by rewrite Hrun, (Array_sort_numbers _ Hn).
Qed.

(** The outcome of [listNotes] is the outcome of the sort of the records
    of the selected store. *)
Lemma listNotes_outcome (w : world) :
  fst (listNotes w)
  = Array_sort_with by_updatedAt (collect (store_of (selected w) w)).
Proof. destruct (listNotes_sorts w) as (cs & -> & _). done. Qed.

(** A store without records is listed as the empty array. *)
Lemma listNotes_run_nil (w : world) :
  collect (store_of (selected w) w) = [] →
  ∃ cs, listNotes w = (Ret [], add_calls cs w).
Proof.
  intros Hn. destruct (listNotes_sorts w) as (cs & Hrun & Hcs).
  exists cs. by rewrite Hrun, Hn.
Qed.

End StoreRuns.

Ltac split_frame := split; [|split; [|split; [|split]]].

Section Frame.

Context (b : backend).

Lemma stays_in_ret {A : Type} (Q : A → Prop) (a : A) : Q a → stays_in b Q (mret a).
Proof.
  intros HQ w Hw. split_frame; try done.
  - exists []. by rewrite app_nil_r.
  - by intros a' [= <-].
Qed.

Lemma stays_in_throw {A : Type} (Q : A → Prop) (e : exn) : stays_in b Q (throw e).
Proof.
  intros w Hw. split_frame; try done.
  exists []. by rewrite app_nil_r.
Qed.

Lemma stays_in_unmodelled {A : Type} (Q : A → Prop) : stays_in b Q unmodelled.
Proof.
  intros w Hw. split_frame; try done.
  exists []. by rewrite app_nil_r.
Qed.

Lemma stays_in_lift {A : Type} (Q : A → Prop) (o : outcome A) :
  (∀ a, o = Ret a → Q a) → stays_in b Q (lift o).
Proof.
  intros HQ w Hw. split_frame; try done.
  exists []. by rewrite app_nil_r.
Qed.

Lemma stays_in_bind {A B : Type} (P : A → Prop) (Q : B → Prop) (m : M A) (k : A → M B) :
  stays_in b P m → (∀ a, P a → stays_in b Q (k a)) → stays_in b Q (m ≫= k).
Proof.
  intros Hm Hk w Hw.
  destruct (Hm w Hw) as (Hsel & (cs & Hcs & Hok) & Hout & Hoth & HP).
  unfold mbind, M_bind. destruct (m w) as [[a|e|] w1] eqn:Hrun; simpl in *.
  - destruct (Hk a (HP a eq_refl) w1 Hsel)
      as (Hsel' & (cs' & Hcs' & Hok') & Hout' & Hoth' & HQ).
    split_frame; try congruence; [|done].
    exists (cs ++ cs'). split; [|by apply Forall_app].
    by rewrite Hcs', Hcs, app_assoc.
  - split_frame; try done. by exists cs.
  - split_frame; try done. by exists cs.
Qed.

Lemma stays_in_weaken {A : Type} (P Q : A → Prop) (m : M A) :
  (∀ a, P a → Q a) → stays_in b P m → stays_in b Q m.
Proof.
  intros HPQ Hm w Hw. destruct (Hm w Hw) as (? & ? & ? & ? & HP).
  split_frame; try done. intros a Ha. by apply HPQ, HP.
Qed.

Lemma stays_in_try_catch {A : Type} (Q : A → Prop) (m : M A) (h : exn → M A) :
  stays_in b Q m → (∀ e, stays_in b Q (h e)) → stays_in b Q (try_catch m h).
Proof.
  intros Hm Hh w Hw.
  destruct (Hm w Hw) as (Hsel & (cs & Hcs & Hok) & Hout & Hoth & HQ).
  unfold try_catch. destruct (m w) as [[a|e|] w1] eqn:Hrun; simpl in *.
  - split_frame; try done. by exists cs.
  - destruct (Hh e w1 Hsel)
      as (Hsel' & (cs' & Hcs' & Hok') & Hout' & Hoth' & HQ').
    split_frame; try congruence; [|done].
    exists (cs ++ cs'). split; [|by apply Forall_app].
    by rewrite Hcs', Hcs, app_assoc.
  - split_frame; try done. by exists cs.
Qed.

Lemma stays_in_for_each {A B : Type} (I : B → Prop) (body : B → A → M B) (l : list A)
    (acc : B) :
  (∀ acc x, I acc → stays_in b I (body acc x)) →
  I acc → stays_in b I (for_each body l acc).
Proof.
  intros Hbody. revert acc. induction l as [|x l IH]; intros acc Hacc; simpl.
  - by apply stays_in_ret.
  - eapply stays_in_bind; [by apply Hbody|]. intros acc'. apply IH.
Qed.

End Frame.

Lemma stays_in_getStore {A : Type} (b : backend) (Q : A → Prop)
    (k : backend → M A) :
  stays_in b Q (k b) → stays_in b Q (getStore ≫= k).
Proof.
  intros Hk. eapply (stays_in_bind b (λ s, s = b)).
  - intros w Hw. split_frame; try done.
    + exists []. by rewrite app_nil_r.
    + unfold getStore. simpl. by intros a [= <-].
  - by intros a ->.
Qed.

Ltac frame_of_call b cs0 lem :=
  intros w Hw; split_frame;
  [ done
  | exists cs0; split;
    [ simpl; by rewrite ?app_nil_r
    | repeat first [apply Forall_nil | apply Forall_cons];
      simpl; rewrite ?backend_eqb_refl; done ]
  | match goal with
    | |- context [outside] => destruct b; simpl; try done; by apply lem
    end
  | by destruct b
  | done ].

Lemma stays_in_Date_now (b : backend) : stays_in b (λ _, True) Date_now.
Proof. frame_of_call b (@nil call) I. Qed.

Lemma stays_in_Math_random (b : backend) :
  stays_in b (λ _, True) Math_random_toString36.
Proof. frame_of_call b (@nil call) I. Qed.

Lemma stays_in_Storage_length (b : backend) :
  stays_in b (λ _, True) (Storage_length b).
Proof. frame_of_call b [Length b] I. Qed.

Lemma stays_in_Storage_key (b : backend) (i : nat) :
  stays_in b (λ _, True) (Storage_key b i).
Proof. frame_of_call b [KeyAt b i] I. Qed.

Lemma stays_in_Storage_getItem (b : backend) (k : string) :
  JsString.startsWith STORAGE_PREFIX k = true →
  stays_in b (λ _, True) (Storage_getItem b k).
Proof. intros Hk. frame_of_call b [GetItem b k] I. Qed.

Lemma stays_in_Storage_setItem (b : backend) (k v : string) :
  JsString.startsWith STORAGE_PREFIX k = true →
  stays_in b (λ _, True) (Storage_setItem b k v).
Proof. intros Hk. frame_of_call b [SetItem b k v] outside_setItem. Qed.

Lemma stays_in_Storage_removeItem (b : backend) (k : string) :
  JsString.startsWith STORAGE_PREFIX k = true →
  stays_in b (λ _, True) (Storage_removeItem b k).
Proof. intros Hk. frame_of_call b [RemoveItem b k] outside_removeItem. Qed.

Section StoreFrame.

Context `{JSON}.

Lemma stays_in_loadNote (b : backend) (id : string) :
  stays_in b (λ _, True) (loadNote id).
Proof.
  unfold loadNote. apply stays_in_getStore.
  eapply stays_in_bind.
  { apply stays_in_Storage_getItem, startsWith_app. }
  intros [raw|] _; [|by apply stays_in_ret].
  destruct (String.eqb raw ""); [by apply stays_in_ret|].
  apply stays_in_try_catch; [|intros; by apply stays_in_ret].
  unfold JSON_parse_M. destruct (JSON_parse raw).
  - by apply stays_in_ret.
  - apply stays_in_throw.
Qed.

(** The write of [saveNote]: the key begins with the prefix whatever the
    id is. *)
Lemma stays_in_write (b : backend) (id : outcome string) (v : string)
    (k : M value) :
  stays_in b (λ _, True) k →
  stays_in b (λ _, True)
    (s ← getStore; id ← lift id;
     Storage_setItem s (STORAGE_PREFIX +:+ id) v;; k).
Proof.
  intros Hk. apply stays_in_getStore.
  eapply stays_in_bind; [apply (stays_in_lift b (λ _, True)); done|].
  intros id' _.
  eapply stays_in_bind.
  { apply stays_in_Storage_setItem, startsWith_app. }
  by intros _ _.
Qed.

Lemma stays_in_saveNote (b : backend) (note : value) :
  stays_in b (λ _, True) (saveNote note).
Proof.
  unfold saveNote.
  eapply stays_in_bind; [apply stays_in_Date_now|]. intros t _.
  destruct note; try apply stays_in_throw; apply stays_in_write;
    first [by apply stays_in_ret | apply stays_in_unmodelled].
Qed.

Lemma stays_in_update_exotic (b : backend) (note fields : value) :
  stays_in b (λ _, True) (update_exotic note fields).
Proof.
  intros w Hw. unfold update_exotic.
  destruct (exotic_assign w note fields) as [e|observed].
  - by apply stays_in_throw.
  - revert w Hw. change (stays_in b (λ _, True) (saveNote_exotic observed)).
    unfold saveNote_exotic.
    eapply stays_in_bind; [apply stays_in_Date_now|]. intros t _.
    apply stays_in_write, stays_in_unmodelled.
Qed.

Lemma stays_in_addNote (b : backend) (arg : value) :
  stays_in b (λ _, True) (addNote arg).
Proof.
  assert (stays_in b (λ _ : string, True) genId) as HgenId.
  { unfold genId.
    eapply stays_in_bind; [apply stays_in_Date_now|]. intros t _.
    eapply stays_in_bind; [apply stays_in_Math_random|]. intros r _.
    by apply stays_in_ret. }
  destruct arg; try apply stays_in_throw; unfold addNote;
    (eapply stays_in_bind; [apply HgenId|]; intros id _;
     eapply stays_in_bind; [apply stays_in_Date_now|]; intros c _;
     eapply stays_in_bind; [apply stays_in_Date_now|]; intros u _;
     apply stays_in_saveNote).
Qed.

Lemma stays_in_updateNote (b : backend) (id : string) (fields : value) :
  stays_in b (λ _, True) (updateNote id fields).
Proof.
  unfold updateNote.
  eapply stays_in_bind; [apply stays_in_loadNote|]. intros note _.
  destruct (negb (ToBoolean note)); [apply stays_in_throw|].
  destruct note as [| | | |s|l|props]; try apply stays_in_saveNote.
  - destruct (names_read_only s fields);
      [apply stays_in_throw | apply stays_in_saveNote].
  - destruct (own_props fields);
      [apply stays_in_saveNote | apply stays_in_update_exotic].
  - destruct (replaces_prototype props fields);
      [apply stays_in_update_exotic | apply stays_in_saveNote].
Qed.

Lemma stays_in_deleteNote (b : backend) (id : string) :
  stays_in b (λ _, True) (deleteNote id).
Proof.
  unfold deleteNote. apply stays_in_getStore.
  apply stays_in_Storage_removeItem, startsWith_app.
Qed.

Lemma stays_in_for_index {B : Type} (b : backend) (I : B → Prop)
    (body : B → nat → M B) (acc : B) :
  (∀ acc i, I acc → stays_in b I (body acc i)) →
  I acc → stays_in b I (for_index b body acc).
Proof.
  intros Hbody Hacc. unfold for_index.
  eapply stays_in_bind; [apply stays_in_Storage_length|]. intros n _.
  apply stays_in_for_each; [|done]. intros acc' i Hacc'.
  eapply stays_in_bind; [by apply Hbody|]. intros acc'' Hacc''.
  eapply stays_in_bind; [apply stays_in_Storage_length|]. intros m _.
  by apply stays_in_ret.
Qed.

Lemma stays_in_listNotes (b : backend) : stays_in b (λ _, True) listNotes.
Proof.
  unfold listNotes. apply stays_in_getStore.
  eapply stays_in_bind; [|intros; by apply stays_in_lift].
  apply (stays_in_for_index b (λ _, True)); [|done].
  intros notes i _. unfold listNotes_body.
  eapply stays_in_bind; [apply stays_in_Storage_key|]. intros key _.
  destruct (is_note_key key); [|by apply stays_in_ret].
  eapply stays_in_bind; [apply stays_in_loadNote|]. intros note _.
  by apply stays_in_ret.
Qed.

Lemma stays_in_clearAllBtn_click (b : backend) (ok : bool) :
  stays_in b (λ _, True) (clearAllBtn_click ok).
Proof.
  unfold clearAllBtn_click. apply stays_in_getStore.
  destruct (negb ok); [by apply stays_in_ret|].
  eapply (stays_in_bind b
            (Forall (λ k, JsString.startsWith STORAGE_PREFIX k = true))).
  - apply stays_in_for_index; [|done].
    intros toRemove i Hall. unfold clearAll_body.
    eapply stays_in_bind; [apply stays_in_Storage_key|]. intros [k|] _.
    + rewrite is_note_key_Some.
      destruct (JsString.startsWith STORAGE_PREFIX k) eqn:Hk.
      * apply stays_in_ret, Forall_app. split; [done|]. by constructor.
      * by apply stays_in_ret.
    + by apply stays_in_ret.
  - intros toRemove Hall. induction Hall as [|k l Hk Hl IH]; simpl.
    + by apply stays_in_ret.
    + eapply stays_in_bind; [by apply stays_in_Storage_removeItem|].
      intros [] _. apply IH.
Qed.

End StoreFrame.

(** ** Worlds *)

Lemma set_store_same (b : backend) (w : world) :
  set_store b (store_of b w) w = w.
Proof. by destruct w, b. Qed.

Lemma store_of_set_store (b : backend) (s : Storage.t) (w : world) :
  store_of b (set_store b s w) = s.
Proof. by destruct b. Qed.

Lemma store_of_set_store_other (b : backend) (s : Storage.t) (w : world) :
  store_of (other b) (set_store b s w) = store_of (other b) w.
Proof. by destruct b. Qed.

Lemma store_of_add_calls (b : backend) (cs : list call) (w : world) :
  store_of b (add_calls cs w) = store_of b w.
Proof. by destruct b. Qed.

Lemma set_store_add_calls (b : backend) (s s' : Storage.t) (cs : list call)
    (w : world) :
  set_store b s (add_calls cs (set_store b s' w)) = add_calls cs (set_store b s w).
Proof. by destruct b. Qed.

Lemma set_store_commute (b : backend) (s : Storage.t) (cs : list call)
    (w : world) :
  set_store b s (add_calls cs w) = add_calls cs (set_store b s w).
Proof. reflexivity. Qed.

(** ** Clearing the namespace *)

Lemma outside_idemp (s : Storage.t) : outside (outside s) = outside s.
Proof.
  unfold outside. induction s as [|[k v] s IH]; simpl; [done|].
  destruct (negb _) eqn:Hk; simpl; [|done]. by rewrite Hk, IH.
Qed.

Lemma outside_no_namespace_keys (s : Storage.t) :
  Forall (λ e, JsString.startsWith STORAGE_PREFIX (fst e) = false) s →
  outside s = s.
Proof.
  unfold outside. induction 1 as [|[k v] s Hk Hs IH]; simpl; [done|].
  simpl in Hk. by rewrite Hk, IH.
Qed.

Lemma getItem_outside_namespace (s : Storage.t) (k : string) :
  JsString.startsWith STORAGE_PREFIX k = true →
  Storage.getItem (outside s) k = None.
Proof.
  intros Hk. unfold outside. induction s as [|[k0 v0] s IH]; simpl; [done|].
  destruct (JsString.startsWith STORAGE_PREFIX k0) eqn:Hk0; simpl; [done|].
  destruct (String.eqb_spec k0 k) as [->|]; [congruence | done].
Qed.

(** Removing every namespace key leaves exactly the outside entries. *)
Lemma remove_all_outside (l : list string) (s : Storage.t) :
  Forall (λ k, JsString.startsWith STORAGE_PREFIX k = true) l →
  (∀ k, k ∈ Storage.keys s → JsString.startsWith STORAGE_PREFIX k = true →
        k ∈ l) →
  fold_left Storage.removeItem l s = outside s.
Proof.
  intros Hl. revert s. induction Hl as [|k l Hk Hl IH]; intros s Hin; simpl.
  - symmetry. apply outside_no_namespace_keys, Forall_forall.
    intros [k v] Hkv.
    simpl. destruct (JsString.startsWith STORAGE_PREFIX k) eqn:Hk; [|done].
    exfalso. apply (elem_of_nil k). apply Hin; [|done].
    unfold Storage.keys. by apply (list_elem_of_fmap_2 fst) in Hkv.
  - rewrite IH; [by apply outside_removeItem|].
    intros k' Hk' Hp. rewrite StorageFacts.keys_removeItem in Hk'.
    apply list_elem_of_In, filter_In in Hk' as [Hk' Hne%negb_true_iff].
    apply list_elem_of_In in Hk'. apply String.eqb_neq in Hne.
    specialize (Hin k' Hk' Hp). apply elem_of_cons in Hin as [?|?]; done.
Qed.

Section ClearRuns.

Context `{JSON}.

Lemma clearAll_body_run (toRemove : list string) (i : nat) (cs0 : list call)
    (w : world) :
  let s := store_of (selected w) w in
  ∃ cs,
    clearAll_body (selected w) toRemove i (add_calls cs0 w)
    = (Ret (toRemove ++ option_list (Storage.key s i ≫= λ k,
              if JsString.startsWith STORAGE_PREFIX k then Some k else None)),
       add_calls (cs0 ++ cs) w)
    ∧ Forall (λ c, in_namespace (selected w) c = true) cs.
Proof.
  intros s. exists [KeyAt (selected w) i]. split.
  - unfold clearAll_body, mbind, M_bind, Storage_key, log.
    rewrite store_of_add_calls, add_calls_app. fold s.
    destruct (Storage.key s i) as [k|].
    + rewrite is_note_key_Some. simpl.
      destruct (JsString.startsWith STORAGE_PREFIX k); simpl; [done|].
      by rewrite app_nil_r.
    + simpl. by rewrite app_nil_r.
  - repeat constructor. simpl. apply backend_eqb_refl.
Qed.

Lemma remove_loop_run (b : backend) (l : list string) (w : world) :
  for_each (λ _ k, Storage_removeItem b k) l tt w
  = (Ret tt,
     add_calls (map (RemoveItem b) l)
       (set_store b (fold_left Storage.removeItem l (store_of b w)) w)).
Proof.
  revert w. induction l as [|k l IH]; intros w; simpl.
  - by rewrite set_store_same, add_calls_nil.
  - unfold mbind, M_bind, Storage_removeItem. rewrite IH. unfold log.
    rewrite store_of_add_calls, store_of_set_store, set_store_add_calls.
    by rewrite add_calls_app.
Qed.

Lemma clearAllBtn_click_run (w : world) :
  ∃ cs,
    clearAllBtn_click true w
    = (Ret tt,
       add_calls cs
         (set_store (selected w) (outside (store_of (selected w) w)) w)).
Proof.
  set (s := store_of (selected w) w).
  destruct (for_index_add_calls (clearAll_body (selected w))
              (λ acc i, acc ++ option_list (Storage.key s i ≫= λ k,
                 if JsString.startsWith STORAGE_PREFIX k then Some k
                 else None))
              (λ c, in_namespace (selected w) c = true) [] w)
    as (cs & Hrun & _).
  { simpl. by rewrite backend_eqb_refl. }
  { intros acc x cs0. apply clearAll_body_run. }
  fold s in Hrun. rewrite fold_left_option_list in Hrun. simpl in Hrun.
  eexists. unfold clearAllBtn_click, mbind, M_bind, getStore.
  simpl. rewrite Hrun, remove_loop_run.
  rewrite store_of_add_calls. fold s.
  rewrite remove_all_outside.
  - by rewrite set_store_commute, add_calls_app.
  - apply Forall_forall. intros k (i & _ & Hk)%list_elem_of_omap.
    destruct (Storage.key s i) as [k'|]; [|done]. simpl in Hk.
    by destruct (JsString.startsWith STORAGE_PREFIX k') eqn:Hp;
      simplify_eq.
  - intros k Hk Hp. apply list_elem_of_omap.
    apply list_elem_of_lookup in Hk as [i Hi]. exists i. split.
    + apply elem_of_seq. apply lookup_lt_Some in Hi.
      unfold Storage.keys in Hi. rewrite length_map in Hi.
      unfold Storage.length. lia.
    + rewrite StorageFacts.key_lookup, Hi. simpl. by rewrite Hp.
Qed.

Lemma note_under_outside (s : Storage.t) (k : string) :
  note_under (outside s) k = None.
Proof.
  unfold note_under.
  destruct (JsString.startsWith STORAGE_PREFIX k) eqn:Hk; [|done].
  by rewrite getItem_outside_namespace.
Qed.

Lemma collect_outside (s : Storage.t) : collect (outside s) = [].
Proof.
  unfold collect. generalize (Storage.keys (outside s)) as l.
  induction l as [|k l IH]; [done|].
  unfold omap in *. simpl. by rewrite note_under_outside.
Qed.

End ClearRuns.

(** ** Listing *)

Section ListFacts.

Context `{JSON}.

Lemma elem_of_collect (s : Storage.t) (n : value) :
  n ∈ collect s ↔ ∃ k, k ∈ Storage.keys s ∧ note_under s k = Some n.
Proof. unfold collect. apply list_elem_of_omap. Qed.

Lemma note_under_removeItem (s : Storage.t) (k k' : string) :
  k ≠ k' → note_under (Storage.removeItem s k) k' = note_under s k'.
Proof.
  intros Hne. unfold note_under. rewrite StorageFacts.getItem_removeItem.
  by destruct (String.eqb_spec k k').
Qed.

(** An entry that yields no record can be removed without changing the
    listing. *)
Lemma collect_removeItem (s : Storage.t) (k : string) :
  note_under s k = None → collect (Storage.removeItem s k) = collect s.
Proof.
  intros Hk. unfold collect. rewrite StorageFacts.keys_removeItem.
  induction (Storage.keys s) as [|k' l IH]; [done|]. simpl.
  destruct (String.eqb_spec k' k) as [->|Hne]; simpl.
  - unfold omap in *. simpl. by rewrite Hk.
  - unfold omap in *. simpl. rewrite note_under_removeItem by done.
    by rewrite IH.
Qed.

Lemma collect_removeItem_elem_of (s : Storage.t) (k : string) (n : value) :
  n ∈ collect (Storage.removeItem s k) →
  ∃ k', k' ≠ k ∧ k' ∈ Storage.keys s ∧ note_under s k' = Some n.
Proof.
  intros (k' & Hk' & Hn)%elem_of_collect.
  rewrite StorageFacts.keys_removeItem in Hk'.
  apply list_elem_of_In, filter_In in Hk' as [Hk' Hne%negb_true_iff].
  apply list_elem_of_In in Hk'. apply String.eqb_neq in Hne.
  exists k'. by rewrite note_under_removeItem in Hn.
Qed.

(** What holds of every record of a store holds of those that a removal
    leaves. *)
Lemma Forall_collect_removeItem (P : value → Prop) (s : Storage.t)
    (k : string) :
  Forall P (collect s) → Forall P (collect (Storage.removeItem s k)).
Proof.
  rewrite !Forall_forall. intros Hs n Hn. apply Hs.
  apply collect_removeItem_elem_of in Hn as (k' & _ & Hk' & Hnote).
  apply elem_of_collect. by exists k'.
Qed.

Lemma note_under_Some (s : Storage.t) (k : string) (n : value) :
  note_under s k = Some n ↔
  JsString.startsWith STORAGE_PREFIX k = true
  ∧ parse_note (Storage.getItem s k) = n ∧ ToBoolean n = true.
Proof.
  unfold note_under. destruct (JsString.startsWith STORAGE_PREFIX k).
  - destruct (ToBoolean (parse_note _)) eqn:Hb.
    + split; [by intros [= <-] | by intros (_ & <- & _)].
    + split; [done | intros (_ & <- & ?); congruence].
  - split; [done | by intros [? _]].
Qed.

Lemma parse_note_parsed (s : Storage.t) (k raw : string) (v : value) :
  Storage.getItem s k = Some raw → raw ≠ "" → JSON_parse raw = Some v →
  parse_note (Storage.getItem s k) = v.
Proof.
  intros -> Hraw Hv. simpl. rewrite Hv.
  by destruct (String.eqb_spec raw "").
Qed.

Lemma parse_note_corrupt (s : Storage.t) (k raw : string) :
  Storage.getItem s k = Some raw → JSON_parse raw = None →
  parse_note (Storage.getItem s k) = VNull.
Proof. intros -> Hv. simpl. rewrite Hv. by destruct (String.eqb raw ""). Qed.

End ListFacts.

(** ** The claims about clearing, corrupt entries, missing records,
       deletion, the namespace and the defaults of [addNote] *)

Section Claims.

Context `{JSON}.

Lemma absent_parse_note (s : Storage.t) (id : string) :
  absent s id →
  ToBoolean (parse_note (Storage.getItem s (STORAGE_PREFIX +:+ id))) = false.
Proof.
  unfold absent, parse_note.
  destruct (Storage.getItem s _) as [raw|]; [|done].
  destruct (String.eqb_spec raw ""); [done|].
  intros [?|[->|(v & -> & Hv)]]; done.
Qed.

(** C4: [clear()], the confirmed click on [clearAllBtn], removes every
    entry under the namespace prefix from the selected backend and nothing
    else: entries outside the prefix and the other backend are unchanged,
    and [list()] is empty afterwards. *)
Theorem clear_empties_the_namespace (w : world) :
  let sel := selected w in
  let w' := snd (clearAllBtn_click true w) in
  fst (clearAllBtn_click true w) = Ret tt
  ∧ store_of sel w' = outside (store_of sel w)
  ∧ (∀ k, JsString.startsWith STORAGE_PREFIX k = true →
          Storage.getItem (store_of sel w') k = None)
  ∧ (∀ k, JsString.startsWith STORAGE_PREFIX k = false →
          Storage.getItem (store_of sel w') k
          = Storage.getItem (store_of sel w) k)
  ∧ store_of (other sel) w' = store_of (other sel) w
  ∧ storeType w' = storeType w
  ∧ fst (listNotes w') = Ret [].
Proof.
  intros sel w'. subst sel w'.
  destruct (clearAllBtn_click_run w) as (cs & ->). simpl.
  rewrite store_of_add_calls, store_of_set_store.
  rewrite store_of_add_calls, store_of_set_store_other.
  repeat split.
  - intros k Hk. by apply getItem_outside_namespace.
  - intros k Hk. apply outside_getItem; [apply outside_idemp | done].
  - match goal with |- context [listNotes ?w1] =>
      destruct (listNotes_run_nil w1) as (cs' & ->); [|done]
    end.
    change (selected (add_calls cs (set_store (selected w)
              (outside (store_of (selected w) w)) w))) with (selected w).
    rewrite store_of_add_calls, store_of_set_store.
    apply collect_outside.
Qed.

(** C5 (amended): a value under a namespaced key that [JSON.parse]
    rejects contributes no record to [list()] and does not change its
    outcome, which is the outcome for the store without that entry.  When
    the parseable records carry numbers under [updatedAt], [list()]
    returns: every record of its output lies under another key, and every
    parseable truthy value under the prefix is in it. *)
Theorem corrupt_entry_is_skipped (w : world) (k raw : string) :
  let s := store_of (selected w) w in
  JsString.startsWith STORAGE_PREFIX k = true →
  Storage.getItem s k = Some raw →
  JSON_parse raw = None →
  note_under s k = None
  ∧ collect (Storage.removeItem s k) = collect s
  ∧ fst (listNotes (set_store (selected w) (Storage.removeItem s k) w))
    = fst (listNotes w)
  ∧ (Forall (λ n, ∃ u, member n "updatedAt" = VNum u) (collect s) →
     ∃ notes,
       fst (listNotes w) = Ret notes
       ∧ (∀ n, n ∈ notes →
             ∃ k', k' ≠ k ∧ k' ∈ Storage.keys s ∧ note_under s k' = Some n)
       ∧ (∀ k' raw' v,
             k' ∈ Storage.keys s →
             JsString.startsWith STORAGE_PREFIX k' = true →
             Storage.getItem s k' = Some raw' → raw' ≠ "" →
             JSON_parse raw' = Some v → ToBoolean v = true →
             v ∈ notes)).
Proof.
  intros s Hk Hraw Hparse.
  assert (note_under s k = None) as Hnone.
  { unfold note_under. rewrite Hk.
    by rewrite (parse_note_corrupt _ _ _ Hraw Hparse). }
  split; [done|]. split; [by apply collect_removeItem|]. split.
  { rewrite !listNotes_outcome.
    change (selected (set_store (selected w) (Storage.removeItem s k) w))
      with (selected w).
    by rewrite store_of_set_store, collect_removeItem. }
  intros Hn. destruct (listNotes_run w Hn) as (cs & Hrun & _).
  exists (Array_sort recent_first (collect s)). rewrite Hrun. simpl.
  repeat split.
  - intros n Hin. rewrite Array_sort_perm in Hin.
    rewrite <- (collect_removeItem s k Hnone) in Hin.
    by apply collect_removeItem_elem_of.
  - intros k' raw' v Hk' Hp Hraw' Hne Hv Hb.
    rewrite Array_sort_perm. apply elem_of_collect. exists k'.
    split; [done|]. apply note_under_Some.
    by rewrite (parse_note_parsed _ _ _ _ Hraw' Hne Hv).
Qed.

(** C6: [update(id, fields)] on an id that is absent from the selected
    backend throws the error "Note not found" to its caller and writes
    nothing: both storage areas are as before and the only storage call
    made is the [getItem] of the lookup. *)
Theorem update_of_absent_is_not_found (id : string) (fields : value)
    (w : world) :
  absent (store_of (selected w) w) id →
  fst (updateNote id fields w) = Throw (Error "Note not found")
  ∧ localStorage (snd (updateNote id fields w)) = localStorage w
  ∧ sessionStorage (snd (updateNote id fields w)) = sessionStorage w
  ∧ calls (snd (updateNote id fields w))
    = calls w ++ [GetItem (selected w) (STORAGE_PREFIX +:+ id)].
Proof.
  intros Habs%absent_parse_note.
  unfold updateNote, mbind, M_bind. rewrite loadNote_run, Habs. done.
Qed.

(** C7 (amended): [delete(id)] always returns normally and removes the
    entry under the key of [id]: afterwards [get(id)] is [null], and
    every record that the store still holds, hence every record of a
    listing that returns, is the record that [get] returns for another
    id.  When the records lie under the keys of their own ids, none of
    them has the id [id]; a record stored under another key keeps
    whatever [id] attribute it has.  With numbers under every [updatedAt]
    the listing returns.  On an id without entry the storage is left as
    it is, and so it is by a second [delete(id)]. *)
Theorem delete_removes_the_entry (id : string) (w : world) :
  let sel := selected w in
  let s := store_of sel w in
  let w' := snd (deleteNote id w) in
  let left := collect (store_of sel w') in
  fst (deleteNote id w) = Ret tt
  ∧ store_of sel w' = Storage.removeItem s (STORAGE_PREFIX +:+ id)
  ∧ Storage.getItem (store_of sel w') (STORAGE_PREFIX +:+ id) = None
  ∧ fst (loadNote id w') = Ret VNull
  ∧ (∀ n, n ∈ left → ∃ id', id' ≠ id ∧ fst (loadNote id' w') = Ret n)
  ∧ (key_consistent s → ∀ n, n ∈ left → ToString (member n "id") ≠ id)
  ∧ (∀ notes, fst (listNotes w') = Ret notes → notes ≡ₚ left)
  ∧ (Forall (λ n, ∃ u, member n "updatedAt" = VNum u) (collect s) →
     fst (listNotes w') = Ret (Array_sort recent_first left))
  ∧ store_of (other sel) w' = store_of (other sel) w
  ∧ (Storage.getItem s (STORAGE_PREFIX +:+ id) = None →
     store_of sel w' = s)
  ∧ fst (deleteNote id w') = Ret tt
  ∧ store_of sel (snd (deleteNote id w')) = store_of sel w'.
Proof.
  intros sel s0 w' left. subst sel s0 w' left. rewrite deleteNote_run. simpl.
  set (s := store_of (selected w) w).
  set (key := STORAGE_PREFIX +:+ id).
  set (w' := log _ _).
  assert (selected w' = selected w) as Hsel by done.
  assert (store_of (selected w) w' = Storage.removeItem s key) as Hs.
  { unfold w', log. by rewrite store_of_add_calls, store_of_set_store. }
  rewrite Hs.
  assert (∀ n, n ∈ collect (Storage.removeItem s key) →
            ∃ id', id' ≠ id
                   ∧ note_under s (STORAGE_PREFIX +:+ id') = Some n
                   ∧ note_under (Storage.removeItem s key)
                       (STORAGE_PREFIX +:+ id') = Some n) as Hin.
  { intros n Hn.
    pose proof Hn as (k' & Hne & Hk' & Hnote)%collect_removeItem_elem_of.
    pose proof Hnote as [Hp _]%note_under_Some.
    apply startsWith_prefix_inv in Hp as [id' ->].
    exists id'. split; [by intros ->|]. split; [done|].
    by rewrite note_under_removeItem. }
  split; [done|]. split; [done|]. split.
  { rewrite StorageFacts.getItem_removeItem. by rewrite String.eqb_refl. }
  split.
  { rewrite loadNote_run. simpl. rewrite Hsel, Hs.
    rewrite StorageFacts.getItem_removeItem. by rewrite String.eqb_refl. }
  split.
  { intros n Hn. destruct (Hin n Hn) as (id' & Hne & _ & Hnote).
    exists id'. split; [done|]. rewrite loadNote_run. simpl.
    rewrite Hsel, Hs. by apply note_under_Some in Hnote as (_ & -> & _). }
  split.
  { intros Hcons n Hn. destruct (Hin n Hn) as (id' & Hne & Hnote & _).
    by rewrite (Hcons id' n Hnote). }
  split.
  { intros notes. rewrite listNotes_outcome, Hsel, Hs.
    apply Array_sort_with_perm. }
  split.
  { intros Hnum. rewrite listNotes_outcome, Hsel, Hs.
    apply Array_sort_numbers. rewrite Forall_forall in Hnum |- *.
    intros n Hn. apply Hnum.
    apply collect_removeItem_elem_of in Hn as (k' & _ & Hk' & Hnote).
    apply elem_of_collect. by exists k'. }
  split.
  { unfold w', log. by rewrite store_of_add_calls, store_of_set_store_other. }
  split.
  { intros Hnone. by apply StorageFacts.removeItem_absent. }
  split; [done|].
  rewrite Hsel.
  unfold log. rewrite store_of_add_calls, store_of_set_store, Hs.
  apply StorageFacts.removeItem_idemp.
Qed.

(** C9: every store operation makes its storage calls on the backend that
    [storeType] selects when it is called, reads, writes and removes items
    under keys that begin with 'sn:note:' only, and leaves the entries
    outside that prefix and the other backend as they were.  (The loops of
    [listNotes] and of the clear handler enumerate the key names of that
    backend with [length] and [key(i)].) *)
Theorem operations_stay_in_the_namespace (b : backend) :
  (∀ note, stays_in b (λ _, True) (saveNote note))
  ∧ (∀ arg, stays_in b (λ _, True) (addNote arg))
  ∧ (∀ id fields, stays_in b (λ _, True) (updateNote id fields))
  ∧ (∀ id, stays_in b (λ _, True) (deleteNote id))
  ∧ (∀ id, stays_in b (λ _, True) (loadNote id))
  ∧ stays_in b (λ _, True) listNotes
  ∧ (∀ ok, stays_in b (λ _, True) (clearAllBtn_click ok)).
Proof.
  split; [intros; apply stays_in_saveNote|].
  split; [intros; apply stays_in_addNote|].
  split; [intros; apply stays_in_updateNote|].
  split; [intros; apply stays_in_deleteNote|].
  split; [intros; apply stays_in_loadNote|].
  split; [apply stays_in_listNotes|].
  intros; apply stays_in_clearAllBtn_click.
Qed.

End Claims.

(** ** Adding and updating *)

Section AddUpdate.

Context `{JSON}.

Lemma addNote_run (arg : value) (w : world) :
  arg ≠ VUndefined → arg ≠ VNull →
  let note := added_note arg w in
  let key := STORAGE_PREFIX +:+ ToString (member note "id") in
  addNote arg w
  = (Ret note,
     log (SetItem (selected w) key (JSON_stringify note))
       (set_store (selected w)
          (Storage.setItem (store_of (selected w) w) key (JSON_stringify note))
          (read_clock (read_clock (read_clock (read_random (read_clock w))))))).
Proof. intros Hu Hn. by destruct arg. Qed.

Lemma updateNote_run (id raw : string) (props : list (string * value))
    (fields : value) (w : world) :
  Storage.getItem (store_of (selected w) w) (STORAGE_PREFIX +:+ id)
  = Some raw →
  raw ≠ "" →
  JSON_parse raw = Some (VObj props) →
  replaces_prototype props fields = false →
  updateNote id fields w
  = saveNote (VObj (Object_assign props fields))
      (log (GetItem (selected w) (STORAGE_PREFIX +:+ id)) w).
Proof.
  intros Hraw Hne Hparse Hproto.
  unfold updateNote, mbind, M_bind. rewrite loadNote_run.
  rewrite (parse_note_parsed (store_of (selected w) w) _ raw (VObj props))
    by done.
  cbn [ToBoolean negb]. by rewrite Hproto.
Qed.

(** Fields without [__proto__] leave the prototype of the record. *)
Lemma replaces_prototype_without props (fields : value) :
  has_prop "__proto__" (own_props fields) = false →
  replaces_prototype props fields = false.
Proof.
  intros Hf. unfold replaces_prototype. apply andb_false_iff. right.
  unfold has_prop in Hf. induction (own_props fields) as [|[k v] l IH];
    simpl in *; [done|].
  apply orb_false_iff in Hf as [-> Hl]. simpl. by apply IH.
Qed.

Lemma loadNote_after_setItem (id : string) (v : value) (b : backend)
    (s : Storage.t) (c : call) (w : world) :
  selected w = b → reads_back v →
  fst (loadNote id
         (log c (set_store b
                   (Storage.setItem s (STORAGE_PREFIX +:+ id) (JSON_stringify v))
                   w)))
  = Ret v.
Proof.
  intros <- [Hne Hrb]. rewrite loadNote_run. simpl. f_equal.
  change (selected (log c (set_store (selected w)
            (Storage.setItem s (STORAGE_PREFIX +:+ id) (JSON_stringify v)) w)))
    with (selected w).
  unfold log. rewrite store_of_add_calls, store_of_set_store.
  rewrite StorageFacts.getItem_setItem, String.eqb_refl. simpl.
  rewrite Hrb. by destruct (String.eqb_spec (JSON_stringify v) "").
Qed.

End AddUpdate.

Lemma js_or_truthy (a b : value) :
  ToBoolean b = true → ToBoolean (js_or a b) = true.
Proof. intros Hb. unfold js_or. by destruct (ToBoolean a) eqn:Ha. Qed.

Section ClaimsAddUpdate.

Context `{JSON}.

(** C3 (amended): for fields with a truthy title and a body that is truthy
    or the empty string, [add] builds the record from a generated id, the
    given title and body and the clock, stores its serialisation under the
    prefix and returns it; [get(id)] then returns that record whenever the
    codec reads back what it wrote.  [createdAt] and [updatedAt] come from
    two readings of the clock: they are equal when the two readings are,
    and [createdAt <= updatedAt] when the clock does not go back. *)
Theorem add_then_get (arg : value) (w : world) :
  ToBoolean (member arg "title") = true →
  ToBoolean (member arg "body") = true ∨ member arg "body" = VStr "" →
  let id := Radix.Number_toString 36 (now w (now_reads w)) +:+ "-" +:+
            JsString.slice 2 8 (random36 w (random_reads w)) in
  let created := now w (S (now_reads w)) in
  let saved := now w (S (S (S (now_reads w)))) in
  let note := VObj [("id", VStr id);
                    ("title", member arg "title");
                    ("body", member arg "body");
                    ("createdAt", VNum created);
                    ("updatedAt", VNum saved)] in
  let w' := snd (addNote arg w) in
  fst (addNote arg w) = Ret note
  ∧ Storage.getItem (store_of (selected w) w') (STORAGE_PREFIX +:+ id)
    = Some (JSON_stringify note)
  ∧ (reads_back note → fst (loadNote id w') = Ret note)
  ∧ (created = saved → member note "createdAt" = member note "updatedAt")
  ∧ ((∀ i j, (i <= j)%nat → now w i <= now w j) →
     created <= updatedAt_of note).
Proof.
  intros Htitle Hbody id created saved note w'.
  assert (arg ≠ VUndefined ∧ arg ≠ VNull) as [Hu Hn].
  { by destruct arg. }
  assert (added_note arg w = note) as Hnote.
  { unfold added_note, note, js_or. rewrite Htitle.
    destruct Hbody as [-> | ->]; done. }
  subst w'. rewrite (addNote_run arg w Hu Hn), Hnote. simpl.
  split; [done|]. split; [|split; [|split]].
  - unfold log. rewrite store_of_add_calls, store_of_set_store.
    by rewrite StorageFacts.getItem_setItem, String.eqb_refl.
  - intros Hrb. by apply loadNote_after_setItem.
  - by intros ->.
  - intros Hmono. unfold updatedAt_of. simpl. apply Hmono. lia.
Qed.

(** C10: [add] stores and returns the title 'Untitled' when the given title
    is absent or the empty string, and the body '' when the body is absent;
    the stored text is the serialisation of the returned record. *)
Theorem add_defaults_title_and_body (fields : list (string * value))
    (w : world) :
  ∃ note,
    fst (addNote (VObj fields) w) = Ret note
    ∧ Storage.getItem (store_of (selected w) (snd (addNote (VObj fields) w)))
        (STORAGE_PREFIX +:+ ToString (member note "id"))
      = Some (JSON_stringify note)
    ∧ (get_prop "title" fields = VUndefined ∨ get_prop "title" fields = VStr "" →
       member note "title" = VStr "Untitled")
    ∧ (get_prop "body" fields = VUndefined → member note "body" = VStr "")
    ∧ member note "title" ≠ VUndefined ∧ member note "title" ≠ VStr "".
Proof.
  exists (added_note (VObj fields) w).
  rewrite (addNote_run (VObj fields) w) by done. simpl.
  split; [done|]. split; [|split; [|split; [|split]]].
  - unfold log. rewrite store_of_add_calls, store_of_set_store.
    by rewrite StorageFacts.getItem_setItem, String.eqb_refl.
  - unfold js_or. by intros [-> | ->].
  - unfold js_or. by intros ->.
  - intros E. pose proof (js_or_truthy (get_prop "title" fields)
                            (VStr "Untitled") eq_refl) as Ht.
    by rewrite E in Ht.
  - intros E. pose proof (js_or_truthy (get_prop "title" fields)
                            (VStr "Untitled") eq_refl) as Ht.
    by rewrite E in Ht.
Qed.

(** C1 (amended): for a stored record, a plain object whose [id] attribute
    is its id, and fields of distinct names that name neither [id] nor
    [createdAt] and do not replace the prototype of the record through
    [__proto__], [update] overwrites the attributes that the fields name
    and no other, keeps [id] and [createdAt], sets [updatedAt] to the
    reading of the clock, stores the serialisation under the same key and
    returns the record, which [get(id)] returns afterwards whenever the
    codec reads back what it wrote.  A field [__proto__] is assigned like
    the others to a record that has an attribute of that name and creates
    none on a record that has not. *)
Theorem update_merges_fields (id raw : string) (props : list (string * value))
    (fields : value) (w : world) :
  let s := store_of (selected w) w in
  Storage.getItem s (STORAGE_PREFIX +:+ id) = Some raw →
  raw ≠ "" →
  JSON_parse raw = Some (VObj props) →
  get_prop "id" props = VStr id →
  NoDup (map fst (own_props fields)) →
  has_prop "id" (own_props fields) = false →
  has_prop "createdAt" (own_props fields) = false →
  replaces_prototype props fields = false →
  let t := now w (now_reads w) in
  let note := VObj (set_prop "updatedAt" (VNum t) (Object_assign props fields)) in
  let w' := snd (updateNote id fields w) in
  fst (updateNote id fields w) = Ret note
  ∧ member note "id" = VStr id
  ∧ member note "createdAt" = get_prop "createdAt" props
  ∧ member note "updatedAt" = VNum t
  ∧ updatedAt_of note = t
  ∧ (∀ k, k ≠ "updatedAt" →
          k ≠ "__proto__" ∨ has_prop "__proto__" props = true →
          member note k = if has_prop k (own_props fields)
                          then get_prop k (own_props fields)
                          else get_prop k props)
  ∧ (has_prop "__proto__" props = false →
     member note "__proto__" = VUndefined)
  ∧ Storage.getItem (store_of (selected w) w') (STORAGE_PREFIX +:+ id)
    = Some (JSON_stringify note)
  ∧ (reads_back note → fst (loadNote id w') = Ret note).
Proof.
  intros s Hraw Hne Hparse Hid Hnd Hfid Hfc Hproto t note w'.
  assert (∀ k, k ≠ "updatedAt" →
            k ≠ "__proto__" ∨ has_prop "__proto__" props = true →
            member note k = if has_prop k (own_props fields)
                            then get_prop k (own_props fields)
                            else get_prop k props) as Hmerge.
  { intros k Hk Hp. unfold note. simpl. rewrite get_set_prop.
    destruct (String.eqb_spec "updatedAt" k); [congruence|].
    destruct Hp as [Hp|Hp].
    - by rewrite get_prop_Object_assign, get_prop_rev.
    - by rewrite get_prop_Object_assign_own, get_prop_rev. }
  assert (member note "updatedAt" = VNum t) as Hupd.
  { unfold note. simpl. by rewrite get_set_prop. }
  assert (member note "id" = VStr id) as Hnid.
  { rewrite Hmerge by (done || by left). by rewrite Hfid. }
  assert (get_prop "id" (Object_assign props fields) = VStr id) as Hoid.
  { rewrite get_prop_Object_assign by done. by rewrite Hfid. }
  subst w'. rewrite (updateNote_run id raw props fields w) by done.
  rewrite saveNote_run by (by rewrite Hoid).
  change (now (log _ w) (now_reads (log _ w))) with t.
  change (selected (log (GetItem (selected w) (STORAGE_PREFIX +:+ id)) w))
    with (selected w).
  fold note. rewrite Hnid. simpl ToString. simpl fst. simpl snd.
  split; [done|]. split; [done|].
  split; [rewrite Hmerge by (done || by left); by rewrite Hfc|].
  split; [done|].
  split; [unfold updatedAt_of; by rewrite Hupd|].
  split; [done|]. split.
  { intros Hp. unfold note. simpl. rewrite get_set_prop. simpl.
    by apply get_proto_Object_assign. }
  split.
  - unfold log. rewrite store_of_add_calls, store_of_set_store.
    by rewrite StorageFacts.getItem_setItem, String.eqb_refl.
  - intros Hrb. by apply loadNote_after_setItem.
Qed.

(** C8 (amended): the ids that two calls of [add] generate are equal
    exactly when both calls read the same time from the clock and the
    same six-character suffix from the random source (for readings of the
    clock that are not negative). *)
Theorem added_ids_equal_iff (arg1 arg2 n1 n2 : value) (w1 w2 : world) :
  fst (addNote arg1 w1) = Ret n1 →
  fst (addNote arg2 w2) = Ret n2 →
  0 <= now w1 (now_reads w1) →
  0 <= now w2 (now_reads w2) →
  member n1 "id" = member n2 "id"
  ↔ now w1 (now_reads w1) = now w2 (now_reads w2)
    ∧ JsString.slice 2 8 (random36 w1 (random_reads w1))
      = JsString.slice 2 8 (random36 w2 (random_reads w2)).
Proof.
  intros Hrun1 Hrun2 Ht1 Ht2.
  assert (∀ arg w n, fst (addNote arg w) = Ret n → n = added_note arg w)
    as Hadd.
  { intros arg w n Hrun.
    destruct arg; try done;
      rewrite addNote_run in Hrun by done; simpl in Hrun; congruence. }
  rewrite (Hadd _ _ _ Hrun1), (Hadd _ _ _ Hrun2). simpl. split.
  - intros [= Hid].
    apply (split_at_separator "-") in Hid as [Ht Hr];
      [|by apply RadixFacts.Number_toString_no_dash..].
    split; [|done]. by apply RadixFacts.Number_toString_inj in Ht.
  - by intros [-> ->].
Qed.

(** C2 (amended): [list()] changes nothing in the stores and its outcome
    depends on the selected store only, so repeated calls on unchanged
    data give the same outcome; a listing that returns holds the
    parseable records under the prefix, each once.  When every one of
    these records has a number under [updatedAt], [list()] returns them
    most recently updated first, and records with equal [updatedAt] keep
    the order in which the backend enumerates their keys: ids are not
    compared. *)
Theorem list_is_sorted_by_recency (w : world) :
  let s := store_of (selected w) w in
  localStorage (snd (listNotes w)) = localStorage w
  ∧ sessionStorage (snd (listNotes w)) = sessionStorage w
  ∧ (∀ w2, store_of (selected w2) w2 = s →
           fst (listNotes w2) = fst (listNotes w))
  ∧ fst (listNotes (snd (listNotes w))) = fst (listNotes w)
  ∧ (∀ notes, fst (listNotes w) = Ret notes → notes ≡ₚ collect s)
  ∧ (Forall (λ n, ∃ u, member n "updatedAt" = VNum u) (collect s) →
     ∃ notes,
       fst (listNotes w) = Ret notes
       ∧ notes ≡ₚ collect s
       ∧ StronglySorted (λ a b, updatedAt_of b <= updatedAt_of a) notes
       ∧ (∀ u, List.filter (λ n, updatedAt_of n =? u) notes
               = List.filter (λ n, updatedAt_of n =? u) (collect s))).
Proof.
  intros s.
  destruct (listNotes_sorts w) as (cs & Hrun & _). fold s in Hrun.
  split; [by rewrite Hrun|]. split; [by rewrite Hrun|]. split.
  { intros w2 Hw2. by rewrite !listNotes_outcome, Hw2. }
  split.
  { rewrite !listNotes_outcome, Hrun. simpl.
    change (selected (add_calls cs w)) with (selected w).
    by rewrite store_of_add_calls. }
  split.
  { intros notes. rewrite listNotes_outcome. apply Array_sort_with_perm. }
  intros Hnum.
  pose proof (orders_desc_numbers _ Hnum) as Hord.
  exists (Array_sort recent_first (collect s)).
  rewrite listNotes_outcome. fold s.
  split; [by apply Array_sort_numbers|]. split; [apply Array_sort_perm|].
  split; [by apply Array_sort_sorted|].
  intros u; by apply Array_sort_stable.
Qed.

End ClaimsAddUpdate.

(** ** Recency: an update moves its record to the front *)

(** keys are unique in a storage object, and the operations keep them so *)
Lemma keys_setItem (s : Storage.t) (k v : string) :
  Storage.keys (Storage.setItem s k v)
  = match Storage.getItem s k with
    | Some _ => Storage.keys s
    | None => Storage.keys s ++ [k]
    end.
Proof.
  unfold Storage.keys. induction s as [|[k0 v0] s IH]; simpl; [done|].
  destruct (String.eqb_spec k0 k) as [->|Hne]; simpl; [done|].
  rewrite IH. by destruct (Storage.getItem s k).
Qed.

Lemma NoDup_keys_setItem (s : Storage.t) (k v : string) :
  NoDup (Storage.keys s) → NoDup (Storage.keys (Storage.setItem s k v)).
Proof.
  intros Hnd. rewrite keys_setItem.
  destruct (Storage.getItem s k) eqn:Hk; [done|].
  apply NoDup_app. split; [done|]. split; [|apply NoDup_singleton].
  intros k' Hk' ->%list_elem_of_singleton.
  apply StorageFacts.getItem_is_Some in Hk' as [? ?]. congruence.
Qed.

Lemma NoDup_keys_removeItem (s : Storage.t) (k : string) :
  NoDup (Storage.keys s) → NoDup (Storage.keys (Storage.removeItem s k)).
Proof.
  intros Hnd. rewrite StorageFacts.keys_removeItem.
  induction Hnd as [|k0 l Hk0 Hl IH]; simpl; [constructor|].
  destruct (negb (String.eqb k0 k)); [|done].
  constructor; [|done]. intros Hin. apply Hk0.
  apply list_elem_of_In, filter_In in Hin as [Hin _].
  by apply list_elem_of_In.
Qed.

Section Front.

Context {A : Type} (compareFn : A → A → option Z) (f : A → Z).

(** An entry that the comparator places before every other one comes out
    first, and the others are sorted as without it. *)
Lemma Array_sort_front (x : A) (l1 l2 : list A) :
  orders_desc compareFn f (l1 ++ x :: l2) →
  Forall (λ y, f y < f x) (l1 ++ l2) →
  Array_sort compareFn (l1 ++ x :: l2)
  = x :: Array_sort compareFn (l1 ++ l2).
Proof.
  intros Hc Hlt. induction l1 as [|y l1 IH]; simpl in *.
  - assert (Forall (λ y, f y < f x) (Array_sort compareFn l2)) as Hs.
    { by rewrite Array_sort_perm. }
    destruct (Array_sort compareFn l2) as [|y L] eqn:Heql; [done|].
    apply Forall_cons in Hs as [Hy _]. simpl.
    rewrite (Hc x y).
    + simpl. by destruct (Z.ltb_spec 0 (f y - f x)); [lia|].
    + by left.
    + right. rewrite <- (Array_sort_perm compareFn l2), Heql. by left.
  - apply Forall_cons in Hlt as [Hy Hlt].
    rewrite IH; [|intros a b Ha Hb; apply Hc; by right | done].
    simpl. rewrite (Hc y x).
    + simpl. by destruct (Z.ltb_spec 0 (f x - f y)); [|lia].
    + by left.
    + right. apply elem_of_app. right. by left.
Qed.

End Front.

Section UpdateFront.

Context `{JSON}.

Lemma note_under_setItem_ne (s : Storage.t) (k k' v : string) :
  k ≠ k' → note_under (Storage.setItem s k v) k' = note_under s k'.
Proof.
  intros Hne. unfold note_under. rewrite StorageFacts.getItem_setItem.
  by destruct (String.eqb_spec k k').
Qed.

Lemma omap_ext_elem_of {B C : Type} (g1 g2 : B → option C) (l : list B) :
  (∀ x, x ∈ l → g1 x = g2 x) → omap g1 l = omap g2 l.
Proof.
  intros Hg. apply list_omap_ext, Forall2_same_length_lookup.
  split; [done|]. intros i x y Hx Hy. simplify_eq.
  apply Hg. by eapply list_elem_of_lookup_2.
Qed.

Lemma filter_other_keys (k : string) (l : list string) :
  k ∉ l → List.filter (λ k', negb (String.eqb k' k)) l = l.
Proof.
  induction l as [|k0 l IH]; simpl; [done|].
  intros [Hne Hk]%not_elem_of_cons.
  destruct (String.eqb_spec k0 k); [congruence|]. simpl. by rewrite IH.
Qed.

(** Writing under an existing key changes the listing at the place of that
    key only. *)
Lemma collect_setItem_existing (s : Storage.t) (k v : string) :
  NoDup (Storage.keys s) →
  is_Some (Storage.getItem s k) →
  ∃ l1 l2,
    collect (Storage.removeItem s k) = l1 ++ l2
    ∧ collect (Storage.setItem s k v)
      = l1 ++ option_list (note_under (Storage.setItem s k v) k) ++ l2.
Proof.
  intros Hnd Hk. unfold collect.
  rewrite keys_setItem, StorageFacts.keys_removeItem.
  destruct Hk as [v0 Hv0]. rewrite Hv0.
  assert (k ∈ Storage.keys s) as Hin.
  { apply StorageFacts.getItem_is_Some. by eexists. }
  apply list_elem_of_split in Hin as (K1 & K2 & HK). rewrite HK in *.
  apply NoDup_app in Hnd as (_ & Hk1 & [Hk2 _]%NoDup_cons).
  assert (k ∉ K1) as Hk1'.
  { intros Hin. apply (Hk1 k Hin). by left. }
  exists (omap (note_under s) K1), (omap (note_under s) K2). split.
  - rewrite List.filter_app. simpl. rewrite String.eqb_refl. simpl.
    rewrite !filter_other_keys by done.
    rewrite omap_app. f_equal; apply omap_ext_elem_of; intros k' Hk';
      apply note_under_removeItem; intros ->; done.
  - rewrite omap_app. f_equal.
    { apply omap_ext_elem_of. intros k' Hk'.
      apply note_under_setItem_ne. by intros ->. }
    change (k :: K2) with ([k] ++ K2). rewrite omap_app.
    assert (omap (note_under (Storage.setItem s k v)) [k]
            = option_list (note_under (Storage.setItem s k v) k)) as ->.
    { unfold omap. simpl.
      by destruct (note_under (Storage.setItem s k v) k). }
    f_equal. apply omap_ext_elem_of. intros k' Hk'.
    apply note_under_setItem_ne. by intros ->.
Qed.

(** An update of a stored record, a plain object whose [id] attribute is
    its id, by fields that do not name [id] and do not replace the
    prototype of the record, at a clock reading later than every
    [updatedAt] in the store (all of them numbers) and with a codec that
    reads back the record written, moves the record to the front of the
    listing; the other records follow as they were listed without it. *)
Theorem update_moves_record_to_front (id raw : string)
    (props : list (string * value)) (fields : value) (w : world) :
  let s := store_of (selected w) w in
  let t := now w (now_reads w) in
  let note := VObj (set_prop "updatedAt" (VNum t) (Object_assign props fields)) in
  NoDup (Storage.keys s) →
  Storage.getItem s (STORAGE_PREFIX +:+ id) = Some raw →
  raw ≠ "" →
  JSON_parse raw = Some (VObj props) →
  get_prop "id" props = VStr id →
  has_prop "id" (own_props fields) = false →
  replaces_prototype props fields = false →
  reads_back note →
  Forall (λ n, ∃ u, member n "updatedAt" = VNum u ∧ u < t) (collect s) →
  fst (updateNote id fields w) = Ret note
  ∧ fst (listNotes (snd (updateNote id fields w)))
    = Ret (note :: Array_sort recent_first
                     (collect (Storage.removeItem s (STORAGE_PREFIX +:+ id)))).
Proof.
  intros s t note Hnd Hraw Hne Hparse Hid Hfid Hproto [Hrb1 Hrb2] Hold.
  set (key := STORAGE_PREFIX +:+ id).
  assert (get_prop "id" (Object_assign props fields) = VStr id) as Hoid.
  { rewrite get_prop_Object_assign by done. by rewrite Hfid. }
  assert (member note "id" = VStr id) as Hnid.
  { unfold note. simpl. by rewrite get_set_prop. }
  rewrite (updateNote_run id raw props fields w) by done.
  rewrite saveNote_run by (by rewrite Hoid).
  change (now (log _ w) (now_reads (log _ w))) with t.
  change (selected (log (GetItem (selected w) key) w)) with (selected w).
  fold note. rewrite Hnid. simpl ToString. cbn [fst snd]. fold key.
  split; [done|].
  rewrite listNotes_outcome.
  change (selected (log _ (set_store (selected w) _ _))) with (selected w).
  unfold log. rewrite !store_of_add_calls, store_of_set_store.
  change (store_of (selected w) (read_clock (add_calls _ w))) with s.
  change (selected (add_calls _ w)) with (selected w).
  fold s.
  destruct (collect_setItem_existing s key (JSON_stringify note) Hnd)
    as (l1 & l2 & Hrest & Hnew); [by eexists|].
  assert (note_under (Storage.setItem s key (JSON_stringify note)) key
          = Some note) as Hnote.
  { apply note_under_Some. split; [apply startsWith_app|]. split; [|done].
    rewrite StorageFacts.getItem_setItem, String.eqb_refl. simpl.
    rewrite Hrb2. by destruct (String.eqb_spec (JSON_stringify note) ""). }
  rewrite Hnew, Hnote, Hrest. simpl.
  assert (Forall (λ n, ∃ u, member n "updatedAt" = VNum u ∧ u < t)
            (l1 ++ l2)) as Hothers.
  { rewrite <- Hrest. apply Forall_forall. intros n Hn.
    apply collect_removeItem_elem_of in Hn as (k' & _ & Hk' & Hn).
    rewrite Forall_forall in Hold. apply Hold, elem_of_collect. eauto. }
  assert (updatedAt_of note = t) as Ht.
  { unfold updatedAt_of, note. simpl. by rewrite get_set_prop. }
  assert (Forall (λ n, ∃ u, member n "updatedAt" = VNum u)
            (l1 ++ note :: l2)) as Hnum.
  { apply Forall_app in Hothers as [H1 H2].
    apply Forall_app. split; [|constructor].
    - eapply Forall_impl; [exact H1|]. intros n (u & Hu & _). eauto.
    - exists t. unfold note. simpl. by rewrite get_set_prop.
    - eapply Forall_impl; [exact H2|]. intros n (u & Hu & _). eauto. }
  rewrite (Array_sort_numbers _ Hnum). f_equal.
  apply (Array_sort_front recent_first updatedAt_of).
  - by apply orders_desc_numbers.
  - rewrite Ht. eapply Forall_impl; [exact Hothers|]. simpl.
    intros n (u & Hu & Hlt). unfold updatedAt_of. by rewrite Hu.
Qed.

End UpdateFront.

(** ** Records are stored under the key of their id *)

Lemma append_inj_r (p a b : string) : p +:+ a = p +:+ b → a = b.
Proof. induction p as [|c p IH]; simpl; [done|]. intros [= E]. by apply IH. Qed.

Section KeyConsistency.

Context `{JSON}.

Lemma key_consistent_nil : key_consistent [].
Proof.
  intros id n (_ & Hn & Hb)%note_under_Some. simpl in Hn. by subst n.
Qed.

Lemma key_consistent_removeItem (s : Storage.t) (k : string) :
  key_consistent s → key_consistent (Storage.removeItem s k).
Proof.
  intros Hs id n Hn. apply Hs.
  destruct (decide (k = STORAGE_PREFIX +:+ id)) as [->|Hne].
  - apply note_under_Some in Hn as (_ & Hn & Hb).
    rewrite StorageFacts.getItem_removeItem, String.eqb_refl in Hn.
    simpl in Hn. by subst n.
  - by rewrite note_under_removeItem in Hn.
Qed.

(** Writing the serialisation of a record under the key of its id keeps the
    store consistent, when the codec reads back what it wrote. *)
Lemma key_consistent_setItem (s : Storage.t) (note : value) :
  key_consistent s →
  reads_back note →
  key_consistent
    (Storage.setItem s (STORAGE_PREFIX +:+ ToString (member note "id"))
                     (JSON_stringify note)).
Proof.
  intros Hs [Hne Hrb] id n Hn.
  destruct (decide (STORAGE_PREFIX +:+ ToString (member note "id")
                    = STORAGE_PREFIX +:+ id)) as [Heq|Hneq].
  - apply note_under_Some in Hn as (_ & Hn & _).
    rewrite <- Heq, StorageFacts.getItem_setItem, String.eqb_refl in Hn.
    simpl in Hn. rewrite Hrb in Hn.
    destruct (String.eqb_spec (JSON_stringify note) ""); [done|].
    simpl in Hn. subst n. by apply append_inj_r in Heq.
  - rewrite note_under_setItem_ne in Hn by done. by apply Hs.
Qed.

Lemma key_consistent_saveNote props (w : world) :
  let note := VObj (set_prop "updatedAt" (VNum (now w (now_reads w))) props) in
  key_consistent (store_of (selected w) w) →
  reads_back note →
  key_consistent (store_of (selected w) (snd (saveNote (VObj props) w))).
Proof.
  intros note Hs Hrb. destruct (converts (get_prop "id" props)) eqn:Hc.
  - rewrite saveNote_run by done. simpl. fold note.
    unfold log. rewrite store_of_add_calls, store_of_set_store.
    by apply (key_consistent_setItem _ note).
  - by rewrite saveNote_throws.
Qed.

Lemma key_consistent_addNote (arg : value) (w : world) :
  key_consistent (store_of (selected w) w) →
  reads_back (added_note arg w) →
  key_consistent (store_of (selected w) (snd (addNote arg w))).
Proof.
  intros Hs Hrb.
  assert (arg = VUndefined ∨ arg = VNull ∨ (arg ≠ VUndefined ∧ arg ≠ VNull))
    as [-> | [-> | [Hu Hn]]] by (destruct arg; auto); [done..|].
  rewrite addNote_run by done. simpl.
  unfold log. rewrite store_of_add_calls, store_of_set_store.
  by apply (key_consistent_setItem _ (added_note arg w)).
Qed.

(** In a consistent store with unique keys, the listed records have
    pairwise different ids. *)
Lemma listed_ids_are_distinct (s : Storage.t) :
  NoDup (Storage.keys s) → key_consistent s →
  NoDup ((λ n, ToString (member n "id")) <$> collect s).
Proof.
  intros Hnd Hs. unfold collect.
  assert (∀ k n, note_under s k = Some n →
            STORAGE_PREFIX +:+ ToString (member n "id") = k) as Hkey.
  { intros k n Hn. pose proof Hn as [Hp _]%note_under_Some.
    apply startsWith_prefix_inv in Hp as [id ->]. f_equal. by apply Hs. }
  induction Hnd as [|k l Hk Hl IH]; [constructor|].
  change (omap (note_under s) (k :: l))
    with (match note_under s k with
          | Some n => n :: omap (note_under s) l
          | None => omap (note_under s) l
          end).
  destruct (note_under s k) as [n|] eqn:Hn; [|done].
  rewrite fmap_cons. constructor; [|done].
  intros (n' & Hid & (k' & Hk' & Hn')%list_elem_of_omap)%list_elem_of_fmap.
  apply Hk. apply Hkey in Hn, Hn'. by rewrite <- Hn, Hid, Hn'.
Qed.

(** For a store with unique keys whose records lie under the keys of
    their ids and carry numbers under [updatedAt], [list()] returns, and
    the records that it returns have pairwise different ids. *)
Theorem listed_records_have_distinct_ids (w : world) :
  let s := store_of (selected w) w in
  NoDup (Storage.keys s) → key_consistent s →
  Forall (λ n, ∃ u, member n "updatedAt" = VNum u) (collect s) →
  ∃ notes,
    fst (listNotes w) = Ret notes
    ∧ NoDup ((λ n, ToString (member n "id")) <$> notes).
Proof.
  intros s Hnd Hs Hnum.
  destruct (listNotes_run w Hnum) as (cs & -> & _). fold s.
  eexists. split; [reflexivity|].
  rewrite Array_sort_perm. by apply listed_ids_are_distinct.
Qed.

End KeyConsistency.

(** ** Trimming, lower case and substrings *)

Module JsStringFacts.
Import JsString.

Lemma trimEnd_empty (s : string) : trimEnd s = "" ↔ blank s = true.
Proof.
  induction s as [|c s IH]; simpl; [done|].
  destruct (is_space c); simpl; [|done].
  destruct (String.eqb_spec (trimEnd s) "") as [E|E].
  - split; [intros _; by apply IH | done].
  - split; [done | intros Hb; by apply IH in Hb].
Qed.

Lemma blank_trimStart (s : string) : blank (trimStart s) = blank s.
Proof.
  induction s as [|c s IH]; simpl; [done|].
  destruct (is_space c) eqn:Hc; simpl; [done | by rewrite Hc].
Qed.

Lemma trim_empty (s : string) : trim s = "" ↔ blank s = true.
Proof. unfold trim. by rewrite trimEnd_empty, blank_trimStart. Qed.

Lemma prefix_app (q b : string) : String.prefix q (q +:+ b) = true.
Proof. apply (startsWith_app q b). Qed.

Lemma prefix_inv (q s : string) :
  String.prefix q s = true → ∃ b, s = q +:+ b.
Proof. apply (startsWith_prefix_inv q s). Qed.

(** [includes] finds exactly the substrings *)
Lemma includes_spec (q s : string) :
  includes q s = true ↔ ∃ a b, s = a +:+ q +:+ b.
Proof.
  induction s as [|c s IH].
  - change (includes q "") with (String.prefix q "" || false).
    rewrite orb_false_r. split.
    + intros [b Hb]%prefix_inv. by exists "", b.
    + intros (a & b & E). destruct a as [|x a]; [|done].
      destruct q; [done | discriminate E].
  - change (includes q (String c s))
      with (String.prefix q (String c s) || includes q s).
    rewrite orb_true_iff, IH. split.
    + intros [[b Hb]%prefix_inv | (a & b & E)].
      * by exists "", b.
      * exists (String c a), b.
        change (String c a +:+ q +:+ b) with (String c (a +:+ q +:+ b)).
        by rewrite E.
    + intros (a & b & E). destruct a as [|x a].
      * left. change ("" +:+ q +:+ b) with (q +:+ b) in E.
        rewrite E. apply prefix_app.
      * right.
        change (String x a +:+ q +:+ b) with (String x (a +:+ q +:+ b)) in E.
        injection E as _ E. by exists a, b.
Qed.

Lemma includes_empty (s : string) : includes "" s = true.
Proof. apply includes_spec. by exists "", s. Qed.

Lemma lower_char_idemp (c : ascii) : lower_char (lower_char c) = lower_char c.
Proof. destruct c as [[] [] [] [] [] [] [] []]; reflexivity. Qed.

Lemma is_space_lower_char (c : ascii) : is_space (lower_char c) = is_space c.
Proof. destruct c as [[] [] [] [] [] [] [] []]; reflexivity. Qed.

Lemma toLowerCase_idemp (s : string) :
  toLowerCase (toLowerCase s) = toLowerCase s.
Proof.
  induction s as [|c s IH]; simpl; [done|].
  by rewrite lower_char_idemp, IH.
Qed.

Lemma toLowerCase_empty (s : string) : toLowerCase s = "" ↔ s = "".
Proof. by destruct s. Qed.

Lemma toLowerCase_trimStart (s : string) :
  toLowerCase (trimStart s) = trimStart (toLowerCase s).
Proof.
  induction s as [|c s IH]; simpl; [done|].
  rewrite is_space_lower_char. by destruct (is_space c).
Qed.

Lemma toLowerCase_trimEnd (s : string) :
  toLowerCase (trimEnd s) = trimEnd (toLowerCase s).
Proof.
  induction s as [|c s IH]; simpl; [done|].
  rewrite is_space_lower_char, <- IH.
  destruct (String.eqb_spec (trimEnd s) "") as [->|E].
  - simpl. by destruct (is_space c).
  - destruct (String.eqb_spec (toLowerCase (trimEnd s)) "")
      as [E'|_]; [by destruct (trimEnd s)|].
    by rewrite !andb_false_r.
Qed.

Lemma toLowerCase_trim (s : string) :
  toLowerCase (trim s) = trim (toLowerCase s).
Proof. unfold trim. by rewrite toLowerCase_trimEnd, toLowerCase_trimStart. Qed.

Lemma trimEnd_idemp (s : string) : trimEnd (trimEnd s) = trimEnd s.
Proof.
  induction s as [|c s IH]; simpl; [done|].
  destruct (is_space c) eqn:Hc; simpl.
  - destruct (String.eqb_spec (trimEnd s) "") as [E|E]; [done|].
    simpl. rewrite Hc, IH. simpl.
    by destruct (String.eqb_spec (trimEnd s) "").
  - by rewrite Hc, IH.
Qed.

Lemma trimStart_trimEnd (s : string) :
  trimStart (trimEnd (trimStart s)) = trimEnd (trimStart s).
Proof.
  induction s as [|c s IH]; simpl; [done|].
  destruct (is_space c) eqn:Hc; [done|].
  simpl. rewrite Hc. simpl. by rewrite Hc.
Qed.

Lemma trim_idemp (s : string) : trim (trim s) = trim s.
Proof. unfold trim. by rewrite trimStart_trimEnd, trimEnd_idemp. Qed.

Lemma or_else_nonempty (a b : string) : b ≠ "" → or_else a b ≠ "".
Proof. unfold or_else. by destruct (String.eqb_spec a ""). Qed.

End JsStringFacts.

(** ** The listing after a write *)

Section ListingAfterWrite.

Context `{JSON}.

Lemma note_under_written (s : Storage.t) (key : string) (note : value) :
  JsString.startsWith STORAGE_PREFIX key = true →
  reads_back note → ToBoolean note = true →
  note_under (Storage.setItem s key (JSON_stringify note)) key = Some note.
Proof.
  intros Hkey [Hne Hrb] Hb. apply note_under_Some.
  split; [done|]. split; [|done].
  rewrite StorageFacts.getItem_setItem, String.eqb_refl. simpl.
  rewrite Hrb. by destruct (String.eqb_spec (JSON_stringify note) "").
Qed.

(** Writing under a fresh key adds its record at the end of the array that
    [listNotes] collects. *)
Lemma collect_setItem_fresh (s : Storage.t) (k v : string) :
  Storage.getItem s k = None →
  collect (Storage.setItem s k v)
  = collect s ++ option_list (note_under (Storage.setItem s k v) k).
Proof.
  intros Hk. unfold collect. rewrite keys_setItem, Hk, omap_app.
  f_equal. apply omap_ext_elem_of. intros k' Hk'.
  apply note_under_setItem_ne. intros ->.
  apply StorageFacts.getItem_is_Some in Hk'. rewrite Hk in Hk'.
  by destruct Hk'.
Qed.

Lemma collect_setItem (s : Storage.t) (k v : string) :
  NoDup (Storage.keys s) →
  ∃ l1 l2,
    collect (Storage.removeItem s k) = l1 ++ l2
    ∧ collect (Storage.setItem s k v)
      = l1 ++ option_list (note_under (Storage.setItem s k v) k) ++ l2.
Proof.
  intros Hnd. destruct (Storage.getItem s k) as [raw|] eqn:Hk.
  - apply collect_setItem_existing; [done | by eexists].
  - exists (collect s), []. rewrite !app_nil_r.
    split; [by rewrite StorageFacts.removeItem_absent|].
    by apply collect_setItem_fresh.
Qed.

(** A record written with an [updatedAt] later than that of every other
    record is listed first; the others follow as they are listed without
    the entry of its key. *)
Lemma listing_after_write (s : Storage.t) (key : string) (note : value)
    (t : Z) :
  NoDup (Storage.keys s) →
  JsString.startsWith STORAGE_PREFIX key = true →
  reads_back note → ToBoolean note = true →
  member note "updatedAt" = VNum t →
  Forall (λ n, ∃ u, member n "updatedAt" = VNum u ∧ u < t)
         (collect (Storage.removeItem s key)) →
  Array_sort recent_first
    (collect (Storage.setItem s key (JSON_stringify note)))
  = note :: Array_sort recent_first (collect (Storage.removeItem s key)).
Proof.
  intros Hnd Hkey Hrb Hb Ht Hold.
  destruct (collect_setItem s key (JSON_stringify note) Hnd)
    as (l1 & l2 & Hrest & Hnew).
  rewrite Hnew, note_under_written, Hrest by done. simpl.
  rewrite Hrest in Hold.
  assert (updatedAt_of note = t) as Hu.
  { unfold updatedAt_of. by rewrite Ht. }
  apply (Array_sort_front recent_first updatedAt_of).
  - apply orders_desc_numbers, Forall_forall. intros n Hn.
    assert (n = note ∨ n ∈ l1 ++ l2) as [->|Hn'].
    { rewrite elem_of_app, elem_of_cons in Hn. rewrite elem_of_app. tauto. }
    + by exists t.
    + rewrite Forall_forall in Hold. destruct (Hold n Hn') as (u & E & _).
      by exists u.
  - rewrite Hu. eapply Forall_impl; [exact Hold|]. simpl.
    intros n (u & E & Hlt). unfold updatedAt_of. by rewrite E.
Qed.


(** After that write every record of the store has a number under
    [updatedAt]. *)
Lemma numbers_after_write (s : Storage.t) (key : string) (note : value)
    (t : Z) :
  NoDup (Storage.keys s) →
  JsString.startsWith STORAGE_PREFIX key = true →
  reads_back note → ToBoolean note = true →
  member note "updatedAt" = VNum t →
  Forall (λ n, ∃ u, member n "updatedAt" = VNum u)
         (collect (Storage.removeItem s key)) →
  Forall (λ n, ∃ u, member n "updatedAt" = VNum u)
         (collect (Storage.setItem s key (JSON_stringify note))).
Proof.
  intros Hnd Hkey Hrb Hb Ht Hold.
  destruct (collect_setItem s key (JSON_stringify note) Hnd)
    as (l1 & l2 & Hrest & Hnew).
  rewrite Hnew, note_under_written by done. simpl.
  rewrite Hrest in Hold. apply Forall_app in Hold as [H1 H2].
  apply Forall_app. split; [done|]. constructor; [by exists t | done].
Qed.

(** The listing after that write. *)
Lemma listing_after_write_sorts (s : Storage.t) (key : string) (note : value)
    (t : Z) :
  NoDup (Storage.keys s) →
  JsString.startsWith STORAGE_PREFIX key = true →
  reads_back note → ToBoolean note = true →
  member note "updatedAt" = VNum t →
  Forall (λ n, ∃ u, member n "updatedAt" = VNum u ∧ u < t)
         (collect (Storage.removeItem s key)) →
  Array_sort_with by_updatedAt
    (collect (Storage.setItem s key (JSON_stringify note)))
  = Ret (note :: Array_sort recent_first
                   (collect (Storage.removeItem s key))).
Proof.
  intros Hnd Hkey Hrb Hb Ht Hold.
  rewrite Array_sort_numbers.
  - f_equal. by apply (listing_after_write s key note t).
  - apply (numbers_after_write s key note t); try done.
    eapply Forall_impl; [exact Hold|]. intros n (u & E & _). by exists u.
Qed.

Lemma listNotes_after_saveNote props (w : world) :
  let s := store_of (selected w) w in
  let t := now w (now_reads w) in
  let note := VObj (set_prop "updatedAt" (VNum t) props) in
  let key := STORAGE_PREFIX +:+ ToString (member note "id") in
  NoDup (Storage.keys s) →
  converts (get_prop "id" props) = true →
  reads_back note →
  Forall (λ n, ∃ u, member n "updatedAt" = VNum u ∧ u < t)
         (collect (Storage.removeItem s key)) →
  fst (listNotes (snd (saveNote (VObj props) w)))
  = Ret (note :: Array_sort recent_first
                   (collect (Storage.removeItem s key))).
Proof.
  intros s t note key Hnd Hid Hrb Hold. rewrite saveNote_run by done.
  fold t. fold note. fold key. simpl snd.
  rewrite listNotes_outcome.
  change (selected (log _ (set_store (selected w) _ _))) with (selected w).
  unfold log. rewrite !store_of_add_calls, store_of_set_store.
  change (store_of (selected w) (read_clock w)) with s.
  apply (listing_after_write_sorts s key note t); try done.
  - apply startsWith_app.
  - unfold note. simpl. by rewrite get_set_prop.
Qed.


(** [list] and [get] never write: whatever the stored texts are, both
    storage areas, the selection and the readings of the clock and of the
    random source are after the call as before.  [get] always returns a
    value; [list] returns one for a store with fewer than two records and
    for a store whose records carry numbers under [updatedAt], and a
    second call ends as the first. *)
Theorem list_and_get_only_read (id : string) (w : world) :
  let s := store_of (selected w) w in
  let unchanged (w' : world) :=
    localStorage w' = localStorage w
    ∧ sessionStorage w' = sessionStorage w
    ∧ storeType w' = storeType w
    ∧ now_reads w' = now_reads w
    ∧ random_reads w' = random_reads w in
  (∃ v, fst (loadNote id w) = Ret v)
  ∧ unchanged (snd (loadNote id w))
  ∧ unchanged (snd (listNotes w))
  ∧ fst (listNotes (snd (listNotes w))) = fst (listNotes w)
  ∧ ((length (collect s) < 2)%nat → fst (listNotes w) = Ret (collect s))
  ∧ (Forall (λ n, ∃ u, member n "updatedAt" = VNum u) (collect s) →
     ∃ notes, fst (listNotes w) = Ret notes).
Proof.
  intros s unchanged. rewrite loadNote_run.
  destruct (listNotes_sorts w) as (cs & Hrun & _).
  split; [by eexists|]. split; [done|]. split; [by rewrite Hrun|]. split.
  { rewrite !listNotes_outcome, Hrun. simpl.
    change (selected (add_calls cs w)) with (selected w).
    by rewrite store_of_add_calls. }
  split.
  { rewrite listNotes_outcome. fold s. intros Hlen.
    destruct (collect s) as [|x [|y l]]; [done|done|]. simpl in Hlen. lia. }
  intros Hnum. destruct (listNotes_run w Hnum) as (cs' & -> & _).
  by eexists.
Qed.

End ListingAfterWrite.

(** ** The ids that [genId] makes *)

Lemma length_substring (n m : nat) (s : string) :
  (String.length (String.substring n m s) ≤ m)%nat.
Proof.
  revert n m. induction s as [|c s IH]; intros [|n] [|m]; simpl;
    try lia.
  - specialize (IH 0%nat m). lia.
  - apply (IH n 0%nat).
  - apply (IH n (S m)).
Qed.

(** For a clock reading that is not negative, the id is the reading in
    base 36, a dash and at most six characters of the random text: the
    part before the dash holds no dash and reads back as the clock
    reading. *)
Theorem genId_shape (w : world) :
  0 <= now w (now_reads w) →
  ∃ time suffix,
    fst (genId w) = Ret (time +:+ "-" +:+ suffix)
    ∧ JsString.has_char "-" time = false
    ∧ Radix.parse_digits 36 time = Some (Z.to_N (now w (now_reads w)))
    ∧ suffix = JsString.slice 2 8 (random36 w (random_reads w))
    ∧ (String.length suffix ≤ 6)%nat.
Proof.
  intros Hpos.
  exists (Radix.Number_toString 36 (now w (now_reads w))),
         (JsString.slice 2 8 (random36 w (random_reads w))).
  split; [done|]. split; [by apply RadixFacts.Number_toString_no_dash|].
  split; [|split; [done | apply length_substring]].
  destruct (now w (now_reads w)) as [|p|p]; [done| |lia].
  apply (RadixFacts.parse_digits_N_toString 36 (Npos p)). lia.
Qed.

(** ** The store over the ECMAScript codec

    With [EcmaJSON.codec] the records that [add] and [update] write are
    read back: what is stated above under [reads_back] holds for them
    without a hypothesis on the codec. *)

Section OverEcmaJSON.

Import EcmaJSONSpec EcmaJSONFacts.



Lemma map_fst_replace_prop (k : string) (v : value) props :
  map fst (replace_prop k v props) = map fst props.
Proof.
  induction props as [|[k' v'] l IH]; simpl; [done|].
  destruct (String.eqb k' k); simpl; [done|]. by rewrite IH.
Qed.

Lemma record_props_replace_prop (k : string) (v : value) props :
  plain v → record_props props → record_props (replace_prop k v props).
Proof.
  intros Hv. induction 1 as [|[k' v'] l [Hk Hv'] Hl IH]; simpl.
  - apply List.Forall_nil.
  - destruct (String.eqb k' k); apply List.Forall_cons; done.
Qed.

Lemma set_prop_named (k : string) (v : value) props :
  array_index k = None → plain v →
  named props → record_props props →
  named (set_prop k v props) ∧ record_props (set_prop k v props).
Proof.
  intros Hk Hv [Hnd Hix] Hrec. unfold set_prop.
  destruct (has_prop k props) eqn:Hhas.
  - split; [|by apply record_props_replace_prop].
    split; [by rewrite map_fst_replace_prop|].
    eapply Forall_impl; [apply record_props_replace_prop; done|].
    by intros p [? _].
  - rewrite Hk. apply has_prop_false in Hhas. split; [split|].
    + rewrite map_app. apply NoDup_app. split; [done|]. split.
      * intros x Hx [->|[]%elem_of_nil]%elem_of_cons. done.
      * apply NoDup_singleton.
    + apply Forall_app. split; [done|]. by apply Forall_singleton.
    + apply Forall_app. split; [done|]. by apply Forall_singleton.
Qed.

Lemma assign_record_props (l props : list (string * value)) :
  record_props l → named props → record_props props →
  named (fold_left (fun o p => set_prop (fst p) (snd p) o) l props)
  ∧ record_props (fold_left (fun o p => set_prop (fst p) (snd p) o) l props).
Proof.
  intros Hl. revert props.
  induction Hl as [|[k v] l [Hk Hv] Hl IH]; intros props Hn Hr; simpl;
    [done|].
  destruct (set_prop_named k v props Hk Hv Hn Hr) as [Hn' Hr'].
  by apply IH.
Qed.

Lemma record_props_plain (props : list (string * value)) :
  named props → record_props props → plain (VObj props).
Proof.
  intros Hn Hr. apply plain_named; [done|].
  eapply Forall_impl; [exact Hr|]. by intros p [_ ?].
Qed.


(** With the ECMAScript codec, [update] of a stored record whose names
    are distinct and no array indices and whose values are plain, by
    fields of that kind that name neither [id] nor [__proto__], returns
    a record that [get] returns for the id afterwards. *)
Theorem update_then_get_over_ecma (id raw : string)
    (props fprops : list (string * value)) (w : world) :
  let s := store_of (selected w) w in
  Storage.getItem s (STORAGE_PREFIX +:+ id) = Some raw →
  raw ≠ "" →
  EcmaJSON.parse raw = Some (VObj props) →
  named props → record_props props →
  get_prop "id" props = VStr id →
  record_props fprops →
  has_prop "id" fprops = false →
  has_prop "__proto__" fprops = false →
  let r := @updateNote EcmaJSON.codec id (VObj fprops) w in
  let note := VObj (set_prop "updatedAt" (VNum (now w (now_reads w)))
                      (Object_assign props (VObj fprops))) in
  fst r = Ret note
  ∧ fst (@loadNote EcmaJSON.codec id (snd r)) = Ret note.
Proof.
  intros s Hraw Hne Hparse Hnamed Hrec Hid Hfrec Hfid Hfproto r note.
  subst r.
  assert (get_prop "id" (Object_assign props (VObj fprops)) = VStr id)
    as Hoid.
  { rewrite get_prop_Object_assign by done. simpl own_props.
    by rewrite Hfid. }
  rewrite (@updateNote_run EcmaJSON.codec id raw props (VObj fprops) w)
    by (done || by apply replaces_prototype_without).
  rewrite saveNote_run by (by rewrite Hoid).
  change (now (log _ w) (now_reads (log _ w))) with (now w (now_reads w)).
  fold note.
  assert (member note "id" = VStr id) as Hnid.
  { unfold note. simpl. by rewrite get_set_prop. }
  assert (plain note) as Hplain.
  { destruct (assign_record_props fprops props Hfrec Hnamed Hrec)
      as [Hn1 Hr1].
    change (fold_left _ fprops props)
      with (create_props props (own_props (VObj fprops))) in Hn1, Hr1.
    rewrite <- (Object_assign_create props (VObj fprops)) in Hn1, Hr1
      by done.
    destruct (set_prop_named "updatedAt" (VNum (now w (now_reads w)))
                (Object_assign props (VObj fprops)) eq_refl I Hn1 Hr1)
      as [Hn2 Hr2].
    by apply record_props_plain. }
  rewrite Hnid. cbn [fst snd ToString].
  split; [done|].
  apply (@loadNote_after_setItem EcmaJSON.codec); [done|].
  by apply reads_back_plain.
Qed.

End OverEcmaJSON.

(** ** The page *)

Lemma or_else_empty (a : string) : JsString.or_else a "" = a.
Proof. unfold JsString.or_else. by destruct (String.eqb_spec a ""). Qed.

Lemma textContent_or_else (a b : string) :
  textContent (js_or (VStr a) (VStr b)) = JsString.or_else a b.
Proof.
  unfold js_or, JsString.or_else. simpl.
  by destruct (String.eqb a "").
Qed.

Lemma js_or_or_else (a b : string) :
  js_or (VStr a) (VStr b) = VStr (JsString.or_else a b).
Proof.
  unfold js_or, JsString.or_else. simpl.
  by destruct (String.eqb a "").
Qed.

Lemma setStatus_text (msg : string) (p : page) :
  setStatus (VStr msg) p = set_status msg p.
Proof.
  unfold setStatus. by rewrite textContent_or_else, or_else_empty.
Qed.

(** The card of a record whose attributes convert. *)
Lemma createNoteCard_shows (Date_toLocaleString : value → string)
    (n : value) :
  shows n = true →
  createNoteCard Date_toLocaleString n = Ret (card_of Date_toLocaleString n).
Proof.
  unfold shows. rewrite !andb_true_iff. intros [[[Hi Ht] Hu] Hb].
  unfold createNoteCard, to_string, set_textContent, fmtDate.
  by rewrite Hi, Ht, Hu, Hb.
Qed.

(** A record whose attribute does not convert has no card. *)
Lemma createNoteCard_throws (Date_toLocaleString : value → string)
    (n : value) :
  shows n = false → createNoteCard Date_toLocaleString n = Throw TypeError.
Proof.
  unfold shows. rewrite !andb_false_iff. intros Hs.
  unfold createNoteCard, to_string, set_textContent, fmtDate.
  destruct (converts (member n "id")); [|done].
  destruct (converts (member n "title")); [|done].
  destruct (converts (member n "updatedAt")); [|done].
  destruct (converts (member n "body")); [|done].
  by destruct Hs as [[[?|?]|?]|?].
Qed.

(** The card of a record as [addNote] builds it from two strings. *)
Lemma createNoteCard_record (Date_toLocaleString : value → string)
    (id title body : string) (created saved : Z) :
  createNoteCard Date_toLocaleString
    (VObj [("id", VStr id); ("title", VStr title); ("body", VStr body);
           ("createdAt", VNum created); ("updatedAt", VNum saved)])
  = Ret (mkCard id title ("Updated " +:+ Date_toLocaleString (VNum saved))
           body "" false None).
Proof. reflexivity. Qed.

(** The cards of records that convert. *)
Lemma renderNotes_shows (Date_toLocaleString : value → string)
    (notes : list value) (p : page) (w : world) :
  Forall (λ n, shows n = true) notes →
  renderNotes Date_toLocaleString notes p w
  = (Ret (set_cards (map (card_of Date_toLocaleString) notes) p), w).
Proof.
  intros Hs. unfold renderNotes, mbind at 1, M_bind at 1.
  assert (∀ frag,
            for_each (fun frag n =>
                        c ← lift (createNoteCard Date_toLocaleString n);
                        mret (frag ++ [c])) notes frag w
            = (Ret (frag ++ map (card_of Date_toLocaleString) notes), w))
    as ->.
  { induction Hs as [|n l Hn Hl IH]; intros frag; simpl.
    - by rewrite app_nil_r.
    - unfold mbind, M_bind, lift. rewrite (createNoteCard_shows _ n Hn).
      unfold mret at 1, M_ret at 1. fold (@mbind M _). 
      change (for_each _ l (frag ++ [card_of Date_toLocaleString n]) w)
        with (for_each (fun frag n =>
                          c ← lift (createNoteCard Date_toLocaleString n);
                          mret (frag ++ [c])) l
                (frag ++ [card_of Date_toLocaleString n]) w).
      by rewrite IH, <- app_assoc. }
  done.
Qed.

(** The search box shows the cards whose title contains the text of the
    box, without regard to case and to white space around the text: a
    card is displayed when its title in lower case splits around the
    trimmed text in lower case and is hidden otherwise, and nothing else
    of the page changes.  A blank text displays every card, and a second
    run of the handler changes nothing. *)
Theorem search_displays_matching_titles (p : page) :
  let q := JsString.toLowerCase (JsString.trim (search_value p)) in
  let matches (c : card) :=
    ∃ a b, JsString.toLowerCase (card_title c) = a +:+ q +:+ b in
  let p' := search_input p in
  set_cards (cards p) p' = p
  ∧ length (cards p') = length (cards p)
  ∧ (∀ i c, cards p !! i = Some c →
       ∃ c', cards p' !! i = Some c'
             ∧ c' = set_display (card_display c') c
             ∧ (card_display c' = "" ∧ matches c
                ∨ card_display c' = "none" ∧ ¬ matches c))
  ∧ (blank (search_value p) = true →
     Forall (λ c, card_display c = "") (cards p'))
  ∧ search_input p' = p'.
Proof.
  intros q matches p'.
  assert (∀ c, JsString.includes q (JsString.toLowerCase (card_title c))
               = true ↔ matches c) as Hinc.
  { intros c. apply JsStringFacts.includes_spec. }
  split; [by destruct p|]. split; [apply length_map|].
  split; [|split].
  - intros i c Hc. unfold p', search_input. fold q. simpl.
    rewrite list_lookup_fmap, Hc. simpl. eexists. split; [done|].
    rewrite or_else_empty.
    destruct (JsString.includes q (JsString.toLowerCase (card_title c)))
      eqn:Hm; simpl.
    + split; [done|]. left. split; [done|]. by apply Hinc.
    + split; [done|]. right. split; [done|].
      intros Hc'%Hinc. congruence.
  - intros Hblank. apply JsStringFacts.trim_empty in Hblank.
    unfold p', search_input. fold q. simpl.
    apply Forall_fmap, Forall_forall. intros c _. simpl.
    unfold q. rewrite Hblank. simpl.
    by rewrite JsStringFacts.includes_empty.
  - unfold p', search_input, set_cards. simpl. fold q. f_equal.
    rewrite <- list_fmap_compose. apply list_fmap_ext. by intros i c _.
Qed.

Section PageFacts.

Context `{JSON}.
Variable html : markup.
Variable Date_toLocaleString : value → string.
Variable engine_message : exn → string.

(** A form whose two fields are blank adds nothing: no storage call is
    made, the clock is not read, the cards and the fields stay, and the
    status line asks for a title or a body. *)
Theorem submit_of_blank_form_adds_nothing (p : page) (w : world) :
  blank (title_value p) = true →
  blank (body_value p) = true →
  noteForm_submit html Date_toLocaleString p w
  = (Ret (set_status "Please add a title or body." p), w).
Proof.
  intros Ht%JsStringFacts.trim_empty Hb%JsStringFacts.trim_empty.
  unfold noteForm_submit. rewrite Ht, Hb. simpl.
  by rewrite setStatus_text.
Qed.

(** A form with a title or a body adds the note of the trimmed title
    ('Untitled' when that is empty) and the trimmed body to the selected
    storage, puts its card before all others, resets the two fields and
    reports 'Note added.'. *)
Theorem submit_adds_trimmed_note (p : page) (w : world) :
  blank (title_value p) = false
  ∨ blank (body_value p) = false →
  let title := JsString.or_else (JsString.trim (title_value p)) "Untitled" in
  let body := JsString.trim (body_value p) in
  let r := noteForm_submit html Date_toLocaleString p w in
  ∃ id created saved,
    let note := VObj [("id", VStr id); ("title", VStr title);
                      ("body", VStr body); ("createdAt", VNum created);
                      ("updatedAt", VNum saved)] in
    fst r
    = Ret (mkPage (title_default html) (body_default html) (search_value p)
             (select_value p) "Note added."
             (mkCard id title
                     ("Updated " +:+ Date_toLocaleString (VNum saved))
                     body "" false None :: cards p))
    ∧ Storage.getItem (store_of (selected w) (snd r)) (STORAGE_PREFIX +:+ id)
      = Some (JSON_stringify note)
    ∧ store_of (other (selected w)) (snd r) = store_of (other (selected w)) w.
Proof.
  intros Hnb title body r.
  set (arg := VObj [("title", VStr (JsString.trim (title_value p)));
                    ("body", VStr body)]).
  assert (r = (note ← addNote arg;
               c ← lift (createNoteCard Date_toLocaleString note);
               mret (setStatus (VStr "Note added.")
                       (form_reset html (insert_first c p))))
              w) as ->.
  { unfold r, noteForm_submit. fold body. simpl.
    destruct (String.eqb_spec (JsString.trim (title_value p)) "") as [Et|Et];
      [|done].
    destruct (String.eqb_spec body "") as [Eb|Eb]; [|done].
    apply JsStringFacts.trim_empty in Et, Eb.
    destruct Hnb; congruence. }
  unfold mbind, M_bind. rewrite (addNote_run arg w) by done.
  assert (added_note arg w
          = VObj [("id", VStr (Radix.Number_toString 36 (now w (now_reads w))
                               +:+ "-" +:+
                               JsString.slice 2 8
                                 (random36 w (random_reads w))));
                  ("title", VStr title); ("body", VStr body);
                  ("createdAt", VNum (now w (S (now_reads w))));
                  ("updatedAt", VNum (now w (S (S (S (now_reads w))))))])
    as ->.
  { unfold added_note, arg. simpl member.
    rewrite !js_or_or_else, or_else_empty. done. }
  unfold lift. rewrite createNoteCard_record.
  eexists _, _, _. cbn [fst snd mret M_ret].
  split; [|split].
  - by rewrite setStatus_text.
  - cbn [member get_prop String.eqb Ascii.eqb Bool.eqb ToString].
    unfold log. rewrite store_of_add_calls, store_of_set_store.
    by rewrite StorageFacts.getItem_setItem, String.eqb_refl.
  - unfold log. rewrite store_of_add_calls, store_of_set_store_other.
    done.
Qed.

(** Cancelling an edit puts back the title and the body that the card
    had when the edit began, whatever was typed since, leaves the edit
    mode, and touches neither storage nor the other cards; before any
    edit of the card the handler stops with a TypeError and changes
    nothing. *)
Theorem cancel_restores_texts (i : nat) (c : card) (title body : string)
    (p : page) (w : world) :
  cards p !! i = Some c →
  cancelBtn_click i (user_edits i title body (editBtn_click i p)) w
  = (Ret (set_status "Edit cancelled."
            (set_cards
               (<[i := mkCard (card_id c) (card_title c) (card_meta c)
                          (card_body c) (card_display c) false
                          (Some (card_title c, card_body c))]> (cards p))
               p)),
     w)
  ∧ (card_original c = None → cancelBtn_click i p w = (Throw TypeError, w)).
Proof.
  intros Hc. split.
  - unfold cancelBtn_click.
    assert (cards (user_edits i title body (editBtn_click i p)) !! i
            = Some (set_texts title body (enterEdit c))) as ->.
    { unfold user_edits, editBtn_click, update_card. simpl.
      by rewrite !list_lookup_alter_eq, Hc. }
    cbn [card_original set_texts enterEdit]. unfold mret, M_ret.
    rewrite setStatus_text.
    unfold user_edits, editBtn_click, update_card, set_status, set_cards.
    simpl. do 3 f_equal.
    apply list_eq. intros j. destruct (decide (i = j)) as [<-|Hne].
    + rewrite !list_lookup_alter_eq, Hc. simpl.
      by rewrite list_lookup_insert_eq by (by eapply lookup_lt_Some).
    + by rewrite !list_lookup_alter_ne, list_lookup_insert_ne by done.
  - intros Ho. unfold cancelBtn_click. by rewrite Hc, Ho.
Qed.

(** A click on the demo button adds the note of the fixed title and body
    to the selected storage whatever the form holds, puts its card before
    all others, leaves the fields of the form as they are and reports
    'Demo note added.'. *)
Theorem demo_click_adds_the_demo_note (p : page) (w : world) :
  let title := "Demo note" in
  let body := "This note shows add/edit/delete and storage persistence." in
  let r := newDemoBtn_click Date_toLocaleString p w in
  ∃ id created saved,
    let note := VObj [("id", VStr id); ("title", VStr title);
                      ("body", VStr body); ("createdAt", VNum created);
                      ("updatedAt", VNum saved)] in
    fst r
    = Ret (mkPage (title_value p) (body_value p) (search_value p)
             (select_value p) "Demo note added."
             (mkCard id title
                     ("Updated " +:+ Date_toLocaleString (VNum saved))
                     body "" false None :: cards p))
    ∧ Storage.getItem (store_of (selected w) (snd r)) (STORAGE_PREFIX +:+ id)
      = Some (JSON_stringify note)
    ∧ store_of (other (selected w)) (snd r) = store_of (other (selected w)) w.
Proof.
  intros title body r. unfold r, newDemoBtn_click, mbind, M_bind.
  rewrite addNote_run by done.
  unfold lift, added_note. cbn [member get_prop String.eqb Ascii.eqb Bool.eqb].
  change (js_or (VStr "Demo note") (VStr "Untitled")) with (VStr title).
  change (js_or (VStr _) (VStr "")) with (VStr body).
  rewrite createNoteCard_record.
  eexists _, _, _. cbn [fst snd mret M_ret].
  split; [|split].
  - unfold mret, M_ret. by rewrite setStatus_text.
  - unfold mret, M_ret. cbn [fst snd].
    unfold log. rewrite store_of_add_calls, store_of_set_store.
    by rewrite StorageFacts.getItem_setItem, String.eqb_refl.
  - unfold mret, M_ret. cbn [fst snd].
    unfold log. by rewrite store_of_add_calls, store_of_set_store_other.
Qed.

End PageFacts.

(** ** The storage selection *)

Section Selection.

Context `{JSON}.
Variable html : markup.
Variable Date_toLocaleString : value → string.



Lemma applyStoreTypeUI_run (p : page) (w : world) :
  applyStoreTypeUI html p w
  = (Ret (set_status (using_text (storeType w))
            (set_select html (storeType w) p)), w).
Proof.
  unfold applyStoreTypeUI, mbind, M_bind, get_storeType, mret, M_ret.
  by rewrite setStatus_text.
Qed.

Lemma showable_numbers (l : list value) :
  showable l → Forall (λ n, ∃ u, member n "updatedAt" = VNum u) l.
Proof. intros Hl. eapply Forall_impl; [exact Hl|]. by intros n [? _]. Qed.

Lemma showable_sorted (l : list value) :
  showable l → Forall (λ n, shows n = true) (Array_sort recent_first l).
Proof.
  intros Hl. apply Forall_forall. intros n Hn.
  rewrite Array_sort_perm in Hn. unfold showable in Hl.
  rewrite Forall_forall in Hl. by destruct (Hl n Hn).
Qed.

Lemma init_run (p : page) (w : world) :
  showable (collect (store_of (selected w) w)) →
  ∃ cs,
    init html Date_toLocaleString p w
    = (Ret (set_cards
              (map (card_of Date_toLocaleString)
                 (Array_sort recent_first (collect (store_of (selected w) w))))
              (set_status (using_text (storeType w))
                 (set_select html (storeType w) p))),
       add_calls cs w).
Proof.
  intros Hs.
  destruct (listNotes_run w (showable_numbers _ Hs)) as (cs & Hl & _).
  exists cs.
  unfold init, mbind, M_bind. rewrite applyStoreTypeUI_run, Hl.
  by rewrite renderNotes_shows by (by apply showable_sorted).
Qed.

Lemma script_run (p : page) (w : world) :
  let t := match Storage.getItem (localStorage w) STORE_PREF_KEY with
           | Some t => JsString.or_else t "local"
           | None => "local"
           end in
  showable (collect (store_of (backend_of t) w)) →
  ∃ w',
    script html Date_toLocaleString p w
    = (Ret (set_cards
              (map (card_of Date_toLocaleString)
                 (Array_sort recent_first
                    (collect (store_of (backend_of t) w))))
              (set_status (using_text t) (set_select html t p))),
       w')
    ∧ localStorage w' = localStorage w
    ∧ sessionStorage w' = sessionStorage w
    ∧ storeType w' = t.
Proof.
  intros t Hs.
  set (w1 := mkWorld (localStorage w) (sessionStorage w) t (now w)
               (now_reads w) (random36 w) (random_reads w) (exotic_assign w)
               (calls w ++ [GetItem Local STORE_PREF_KEY])).
  destruct (init_run p w1) as (cs & Hinit); [exact Hs|].
  exists (add_calls cs w1). split; [|done].
  unfold script, load_storeType, mbind, M_bind, Storage_getItem,
    set_storeType.
  cbn [fst snd store_of]. fold t.
  match goal with |- init _ _ _ ?x = _ => change x with w1 end.
  by rewrite Hinit.
Qed.

(** The script starts from the preference stored in localStorage
    ('local' when there is none or it is empty) and changes no entry.
    When the records of the storage that the preference selects carry
    numbers under [updatedAt] and an id, a title and a body that convert
    to text, it shows the listing of that storage.  sessionStorage is
    selected by the preference 'session' and localStorage by every other
    one, while the status line names localStorage for the preference
    'local' and sessionStorage for every other one: under a preference
    that is neither of the two the notes are those of localStorage and
    the status line says 'Using sessionStorage.'. *)
Theorem script_shows_the_selected_store (p : page) (w : world) :
  let t := match Storage.getItem (localStorage w) STORE_PREF_KEY with
           | Some t => JsString.or_else t "local"
           | None => "local"
           end in
  let r := script html Date_toLocaleString p w in
  showable (collect (store_of (backend_of t) w)) →
  ∃ p',
    fst r = Ret p'
    ∧ storeType (snd r) = t
    ∧ localStorage (snd r) = localStorage w
    ∧ sessionStorage (snd r) = sessionStorage w
    ∧ cards p'
      = map (card_of Date_toLocaleString)
          (Array_sort recent_first (collect (store_of (selected (snd r)) w)))
    ∧ (t = "session" →
       selected (snd r) = Session ∧ status_text p' = "Using sessionStorage.")
    ∧ (t = "local" →
       selected (snd r) = Local ∧ status_text p' = "Using localStorage.")
    ∧ (t ≠ "session" → t ≠ "local" →
       selected (snd r) = Local ∧ status_text p' = "Using sessionStorage.").
Proof.
  intros t r Hshow.
  destruct (script_run p w Hshow) as (w' & Hr & Hl & Hs & Ht).
  fold t in Hr, Ht. unfold r. rewrite Hr. cbn [fst snd].
  eexists. split; [done|]. split; [done|]. split; [done|]. split; [done|].
  assert (selected w' = backend_of t) as Hsel.
  { unfold selected. by rewrite Ht. }
  split; [by rewrite Hsel|].
  rewrite Hsel. unfold backend_of, using_text. simpl.
  split; [by intros ->|]. split; [by intros ->|].
  intros Hs' Hl'.
  destruct (String.eqb_spec t "session"); [done|].
  by destruct (String.eqb_spec t "local").
Qed.



End Selection.

(** ** Sorting and filtering *)

Section SortFilter.

Context {A : Type} (compareFn : A → A → option Z) (f : A → Z).
Context (P : A → bool).

Lemma sort_insert_first (x : A) (l : list A) :
  orders_desc compareFn f (x :: l) →
  Forall (λ z, f z <= f x) l →
  sort_insert compareFn x l = x :: l.
Proof.
  intros Hc Hl. destruct l as [|z l]; [done|].
  apply Forall_cons in Hl as [Hz _]. simpl.
  rewrite (Hc x z) by solve_elem_of_cons. simpl.
  by destruct (Z.ltb_spec 0 (f z - f x)); [lia|].
Qed.

Lemma orders_desc_filter (l : list A) :
  orders_desc compareFn f l → orders_desc compareFn f (List.filter P l).
Proof.
  intros Hc a b Ha Hb. apply Hc.
  - apply list_elem_of_In. apply list_elem_of_In, filter_In in Ha. tauto.
  - apply list_elem_of_In. apply list_elem_of_In, filter_In in Hb. tauto.
Qed.

Lemma sort_insert_filter (x : A) (l : list A) :
  orders_desc compareFn f (x :: l) →
  StronglySorted (λ a b, f b <= f a) l →
  List.filter P (sort_insert compareFn x l)
  = if P x then sort_insert compareFn x (List.filter P l)
    else List.filter P l.
Proof.
  intros Hc Hs. induction l as [|y l IH].
  - simpl. by destruct (P x).
  - apply StronglySorted_inv in Hs as [Hs Hy].
    assert (orders_desc compareFn f (x :: l)) as Hc'.
    { intros a b Ha Hb. apply Hc; solve_elem_of_cons. }
    specialize (IH Hc' Hs).
    change (sort_insert compareFn x (y :: l))
      with (if 0 <? default 0 (compareFn x y)
            then y :: sort_insert compareFn x l else x :: y :: l).
    rewrite (Hc x y) by solve_elem_of_cons. simpl default.
    destruct (Z.ltb_spec 0 (f y - f x)) as [Hlt|Hge].
    + simpl List.filter. rewrite IH.
      destruct (P y) eqn:Hy', (P x) eqn:Hx; try done.
      simpl. rewrite (Hc x y) by solve_elem_of_cons. simpl.
      by destruct (Z.ltb_spec 0 (f y - f x)); [|lia].
    + change (List.filter P (x :: y :: l))
        with (if P x then x :: List.filter P (y :: l)
              else List.filter P (y :: l)).
      destruct (P x) eqn:Hx; [|done].
      symmetry. apply sort_insert_first.
      * intros a b Ha Hb. apply Hc.
        -- apply elem_of_cons in Ha as [->|Ha]; [by left|right].
           apply list_elem_of_In. apply list_elem_of_In, filter_In in Ha.
           tauto.
        -- apply elem_of_cons in Hb as [->|Hb]; [by left|right].
           apply list_elem_of_In. apply list_elem_of_In, filter_In in Hb.
           tauto.
      * apply Forall_forall. intros z Hz.
        apply list_elem_of_In, filter_In in Hz as [Hz _].
        apply list_elem_of_In, elem_of_cons in Hz as [->|Hz]; [lia|].
        rewrite Forall_forall in Hy. specialize (Hy z Hz). simpl in Hy. lia.
Qed.

(** The sort of [listNotes] commutes with the removal of entries. *)
Lemma Array_sort_filter (l : list A) :
  orders_desc compareFn f l →
  Array_sort compareFn (List.filter P l)
  = List.filter P (Array_sort compareFn l).
Proof.
  induction l as [|x l IH]; intros Hc; [done|].
  assert (orders_desc compareFn f l) as Hc'.
  { intros a b Ha Hb. apply Hc; solve_elem_of_cons. }
  change (Array_sort compareFn (x :: l))
    with (sort_insert compareFn x (Array_sort compareFn l)).
  rewrite sort_insert_filter.
  - rewrite <- IH by done. simpl. by destruct (P x).
  - intros a b Ha Hb. apply Hc.
    + revert Ha. rewrite !elem_of_cons, Array_sort_perm. tauto.
    + revert Hb. rewrite !elem_of_cons, Array_sort_perm. tauto.
  - by apply Array_sort_sorted.
Qed.

End SortFilter.

Lemma filter_ne_delete (l : list string) (i : nat) (x : string) :
  NoDup l → l !! i = Some x →
  List.filter (λ y, negb (String.eqb y x)) l = delete i l.
Proof.
  intros Hnd. revert i. induction Hnd as [|y l Hy Hl IH]; intros i Hi;
    [done|].
  destruct i as [|i]; simpl in *.
  - injection Hi as ->. rewrite String.eqb_refl. simpl.
    by apply filter_other_keys.
  - destruct (String.eqb_spec y x) as [->|Hne].
    + destruct Hy. by eapply list_elem_of_lookup_2.
    + simpl. f_equal. by apply IH.
Qed.

(** ** The page and the listing *)

Section PageAndListing.

Context `{JSON}.
Variable html : markup.
Variable Date_toLocaleString : value → string.
Variable engine_message : exn → string.

Lemma omap_filter {B C : Type} (g : B → option C) (Q : B → bool)
    (P : C → bool) (l : list B) :
  (∀ k n, k ∈ l → g k = Some n → Q k = P n) →
  omap g (List.filter Q l) = List.filter P (omap g l).
Proof.
  induction l as [|k l IH]; intros Hg; [done|].
  assert (omap g (List.filter Q l) = List.filter P (omap g l)) as IH'.
  { apply IH. intros k' n Hk'. apply Hg. by right. }
  change (omap g (k :: l))
    with (match g k with Some n => n :: omap g l | None => omap g l end).
  simpl List.filter.
  destruct (g k) as [n|] eqn:Hn.
  - rewrite (Hg k n) by (done || by left). simpl.
    destruct (P n); [|done].
    change (omap g (k :: List.filter Q l))
      with (match g k with
            | Some n => n :: omap g (List.filter Q l)
            | None => omap g (List.filter Q l)
            end).
    by rewrite Hn, IH'.
  - destruct (Q k); [|done].
    change (omap g (k :: List.filter Q l))
      with (match g k with
            | Some n => n :: omap g (List.filter Q l)
            | None => omap g (List.filter Q l)
            end).
    by rewrite Hn.
Qed.

(** In a store whose records lie under the keys of their ids, removing
    the entry of an id removes the records of that id from the array
    that [listNotes] collects. *)
Lemma collect_removeItem_filter (s : Storage.t) (id : string) :
  key_consistent s →
  collect (Storage.removeItem s (STORAGE_PREFIX +:+ id))
  = List.filter (λ n, negb (String.eqb (note_id n) id)) (collect s).
Proof.
  intros Hs. unfold collect. rewrite StorageFacts.keys_removeItem.
  rewrite <- (omap_filter (note_under s)
                (λ k', negb (String.eqb k' (STORAGE_PREFIX +:+ id)))).
  - apply omap_ext_elem_of. intros k' Hk'.
    apply list_elem_of_In, filter_In in Hk' as [_ Hne%negb_true_iff].
    apply String.eqb_neq in Hne. by apply note_under_removeItem.
  - intros k n _ Hn. pose proof Hn as [Hp _]%note_under_Some.
    apply startsWith_prefix_inv in Hp as [id' ->].
    unfold note_id. rewrite (Hs id' n Hn).
    destruct (String.eqb_spec id' id) as [->|Hne].
    + by rewrite String.eqb_refl.
    + destruct (String.eqb_spec (STORAGE_PREFIX +:+ id') (STORAGE_PREFIX +:+ id))
        as [E%append_inj_r|]; done.
Qed.

(** The ids of the listing without the entry of the card at position
    [i], for a page that shows the listing. *)
Lemma listed_ids_without (s : Storage.t) (l : list card) (i : nat)
    (c : card) :
  NoDup (Storage.keys s) → key_consistent s →
  Forall (λ n, ∃ u, member n "updatedAt" = VNum u) (collect s) →
  map card_id l = map note_id (Array_sort recent_first (collect s)) →
  l !! i = Some c →
  map note_id
    (Array_sort recent_first
       (collect (Storage.removeItem s (STORAGE_PREFIX +:+ card_id c))))
  = map card_id (delete i l).
Proof.
  intros Hnd Hs Hnum Hshow Hc.
  rewrite collect_removeItem_filter by done.
  rewrite (Array_sort_filter recent_first updatedAt_of)
    by (by apply orders_desc_numbers).
  rewrite <- (filter_map_swap (λ y, negb (String.eqb y (card_id c))) note_id).
  rewrite <- Hshow.
  change (map card_id (delete i l)) with (card_id <$> delete i l).
  rewrite list_fmap_delete. apply filter_ne_delete.
  - change (NoDup (map card_id l)). rewrite Hshow.
    change (NoDup (note_id <$> Array_sort recent_first (collect s))).
    rewrite Array_sort_perm. by apply listed_ids_are_distinct.
  - by rewrite list_lookup_fmap, Hc.
Qed.

Lemma card_id_card_of (n : value) :
  card_id (card_of Date_toLocaleString n) = note_id n.
Proof. done. Qed.


Lemma updateNote_absent_run (id : string) (fields : value) (w : world) :
  absent (store_of (selected w) w) id →
  updateNote id fields w
  = (Throw (Error "Note not found"),
     log (GetItem (selected w) (STORAGE_PREFIX +:+ id)) w).
Proof.
  intros Ha. unfold updateNote, mbind, M_bind. rewrite loadNote_run.
  by rewrite absent_parse_note.
Qed.

Lemma replaces_prototype_saved_fields props (c : card) :
  replaces_prototype props (saved_fields c) = false.
Proof. by apply replaces_prototype_without. Qed.

(** The attributes of the note that the Save button writes. *)
Lemma member_saved_note (c : card) props (t : Z) (k : string) :
  let title := JsString.or_else (JsString.trim (card_title c)) "Untitled" in
  let body := JsString.trim (card_body c) in
  member (VObj (set_prop "updatedAt" (VNum t)
                  (Object_assign props (saved_fields c)))) k
  = if String.eqb "updatedAt" k then VNum t
    else if String.eqb "title" k then VStr title
    else if String.eqb "body" k then VStr body
    else get_prop k props.
Proof.
  intros title body. cbn [member]. rewrite get_set_prop.
  destruct (String.eqb "updatedAt" k); [done|].
  rewrite (Object_assign_create props (saved_fields c)) by done.
  rewrite get_prop_create_props.
  unfold saved_fields. cbn [own_props has_prop existsb fst rev app get_prop].
  fold title. fold body.
  destruct (String.eqb_spec "title" k) as [<-|_]; [done|].
  by destruct (String.eqb "body" k).
Qed.

Lemma saveBtn_click_run (i : nat) (c : card) (raw : string)
    (props : list (string * value)) (p : page) (w : world) :
  let s := store_of (selected w) w in
  let note := VObj (set_prop "updatedAt" (VNum (now w (now_reads w)))
                      (Object_assign props (saved_fields c))) in
  cards p !! i = Some c →
  Storage.getItem s (STORAGE_PREFIX +:+ card_id c) = Some raw →
  raw ≠ "" →
  JSON_parse raw = Some (VObj props) →
  converts (get_prop "id" props) = true →
  saveBtn_click Date_toLocaleString engine_message i p w
  = (Ret (set_status "Note saved."
            (set_cards (card_of Date_toLocaleString note
                        :: delete i (cards p)) p)),
     snd (saveNote (VObj (Object_assign props (saved_fields c)))
            (log (GetItem (selected w) (STORAGE_PREFIX +:+ card_id c)) w))).
Proof.
  intros s note Hc Hraw Hne Hparse Hid.
  assert (get_prop "id" (Object_assign props (saved_fields c))
          = get_prop "id" props) as Hoid.
  { by rewrite get_prop_Object_assign. }
  unfold saveBtn_click. rewrite Hc. unfold try_catch, mbind, M_bind.
  fold (saved_fields c).
  rewrite (updateNote_run (card_id c) raw props (saved_fields c) w)
    by (done || apply replaces_prototype_saved_fields).
  rewrite saveNote_run by (by rewrite Hoid).
  change (now (log _ w) (now_reads (log _ w))) with (now w (now_reads w)).
  fold note. unfold lift.
  assert (shows note = true) as Hshows.
  { unfold shows, note. rewrite !member_saved_note. simpl. by rewrite Hid. }
  assert (fmtDate Date_toLocaleString (member note "updatedAt")
          = Ret (Date_toLocaleString (member note "updatedAt"))) as ->.
  { unfold note. by rewrite member_saved_note. }
  rewrite (createNoteCard_shows _ note Hshows).
  unfold mret, M_ret. by rewrite setStatus_text.
Qed.

(** An id attribute that does not convert to a string stops the save
    before it writes; the handler reports the TypeError. *)
Lemma saveBtn_click_throws (i : nat) (c : card) (raw : string)
    (props : list (string * value)) (p : page) (w : world) :
  let s := store_of (selected w) w in
  cards p !! i = Some c →
  Storage.getItem s (STORAGE_PREFIX +:+ card_id c) = Some raw →
  raw ≠ "" →
  JSON_parse raw = Some (VObj props) →
  converts (get_prop "id" props) = false →
  saveBtn_click Date_toLocaleString engine_message i p w
  = (Ret (set_status (engine_message TypeError) p),
     read_clock (log (GetItem (selected w) (STORAGE_PREFIX +:+ card_id c)) w)).
Proof.
  intros s Hc Hraw Hne Hparse Hid.
  assert (get_prop "id" (Object_assign props (saved_fields c))
          = get_prop "id" props) as Hoid.
  { by rewrite get_prop_Object_assign. }
  unfold saveBtn_click. rewrite Hc. unfold try_catch, mbind, M_bind.
  fold (saved_fields c).
  rewrite (updateNote_run (card_id c) raw props (saved_fields c) w)
    by (done || apply replaces_prototype_saved_fields).
  rewrite saveNote_throws by (by rewrite Hoid).
  unfold mret, M_ret, message. by rewrite setStatus_text.
Qed.

(** A click on Save for a card whose note is missing (or is treated as
    missing) writes nothing: the only storage call is the lookup, the
    cards stay as they are, the card stays in its edit mode, and the
    status line shows 'Note not found'. *)
Theorem save_of_missing_note_reports_not_found (i : nat) (c : card)
    (p : page) (w : world) :
  cards p !! i = Some c →
  absent (store_of (selected w) w) (card_id c) →
  saveBtn_click Date_toLocaleString engine_message i p w
  = (Ret (set_status "Note not found" p),
     log (GetItem (selected w) (STORAGE_PREFIX +:+ card_id c)) w).
Proof.
  intros Hc Ha. unfold saveBtn_click. rewrite Hc.
  unfold try_catch, mbind, M_bind.
  rewrite updateNote_absent_run by done.
  unfold mret, M_ret, message. by rewrite setStatus_text.
Qed.

(** A click on Save for a card whose note is stored as a plain object
    with an id attribute that converts to a string writes the note with
    the trimmed title of the card ('Untitled' when that is empty), the
    trimmed body and the clock reading as [updatedAt], every other
    attribute as it was stored; the card leaves its place and a new card
    of the written note comes first.  With an id attribute that does not
    convert, nothing is written, the cards stay, and the status line
    shows the message of the TypeError. *)
Theorem save_stores_the_trimmed_texts (i : nat) (c : card) (raw : string)
    (props : list (string * value)) (p : page) (w : world) :
  let s := store_of (selected w) w in
  let title := JsString.or_else (JsString.trim (card_title c)) "Untitled" in
  let body := JsString.trim (card_body c) in
  let t := now w (now_reads w) in
  let r := saveBtn_click Date_toLocaleString engine_message i p w in
  cards p !! i = Some c →
  Storage.getItem s (STORAGE_PREFIX +:+ card_id c) = Some raw →
  raw ≠ "" →
  JSON_parse raw = Some (VObj props) →
  (converts (get_prop "id" props) = true →
   ∃ note,
     fst r
     = Ret (set_status "Note saved."
              (set_cards
                 (mkCard (note_id note) title
                         ("Updated " +:+ Date_toLocaleString (VNum t))
                         body "" false None
                  :: delete i (cards p)) p))
     ∧ member note "title" = VStr title
     ∧ member note "body" = VStr body
     ∧ member note "updatedAt" = VNum t
     ∧ (∀ k, k ≠ "title" → k ≠ "body" → k ≠ "updatedAt" →
             member note k = get_prop k props)
     ∧ Storage.getItem (store_of (selected w) (snd r))
         (STORAGE_PREFIX +:+ note_id note)
       = Some (JSON_stringify note)
     ∧ title ≠ "")
  ∧ (converts (get_prop "id" props) = false →
     fst r = Ret (set_status (engine_message TypeError) p)
     ∧ localStorage (snd r) = localStorage w
     ∧ sessionStorage (snd r) = sessionStorage w).
Proof.
  intros s title body t r Hc Hraw Hne Hparse. split.
  2: { intros Hid. unfold r.
       by rewrite (saveBtn_click_throws i c raw props p w). }
  intros Hid.
  set (note := VObj (set_prop "updatedAt" (VNum t)
                       (Object_assign props (saved_fields c)))).
  pose proof (member_saved_note c props t) as Hm. cbn zeta in Hm.
  fold title body note in Hm.
  exists note. unfold r.
  rewrite (saveBtn_click_run i c raw props p w) by done.
  rewrite saveNote_run by (by rewrite get_prop_Object_assign).
  cbn [fst snd].
  change (VObj (set_prop "updatedAt" _ _)) with note.
  assert (member note "title" = VStr title) as Ht by (by rewrite Hm).
  assert (member note "body" = VStr body) as Hb by (by rewrite Hm).
  assert (member note "updatedAt" = VNum t) as Hu by (by rewrite Hm).
  split; [|split; [|split; [|split; [|split; [|split]]]]]; try done.
  - unfold card_of. by rewrite Ht, Hb, Hu.
  - intros k Hk1 Hk2 Hk3. rewrite Hm.
    destruct (String.eqb_spec "updatedAt" k); [congruence|].
    destruct (String.eqb_spec "title" k); [congruence|].
    by destruct (String.eqb_spec "body" k); [congruence|].
  - change (selected (log (GetItem (selected w) _) w)) with (selected w).
    unfold log. rewrite store_of_add_calls, store_of_set_store.
    rewrite StorageFacts.getItem_setItem. unfold note_id.
    by rewrite String.eqb_refl.
  - by apply JsStringFacts.or_else_nonempty.
Qed.

(** A click on Save at a clock reading later than every [updatedAt] of
    the store keeps the page and the listing together: when the page
    showed the listing before (of a store with unique keys whose records
    lie under the keys of their ids and carry numbers under
    [updatedAt]), the note of the card is a plain object with an id
    attribute that converts to a string and the codec reads back the
    note written, the page shows the listing afterwards, with the saved
    note first. *)
Theorem save_click_keeps_page_and_listing_together (i : nat) (c : card)
    (raw : string) (props : list (string * value)) (p : page) (w : world) :
  let s := store_of (selected w) w in
  let t := now w (now_reads w) in
  let note := VObj (set_prop "updatedAt" (VNum t)
                      (Object_assign props (saved_fields c))) in
  let r := saveBtn_click Date_toLocaleString engine_message i p w in
  cards p !! i = Some c →
  NoDup (Storage.keys s) → key_consistent s →
  Storage.getItem s (STORAGE_PREFIX +:+ card_id c) = Some raw →
  raw ≠ "" →
  JSON_parse raw = Some (VObj props) →
  converts (get_prop "id" props) = true →
  reads_back note →
  Forall (λ n, ∃ u, member n "updatedAt" = VNum u ∧ u < t) (collect s) →
  map card_id (cards p) = map note_id (Array_sort recent_first (collect s)) →
  ∃ p' notes,
    fst r = Ret p'
    ∧ fst (listNotes (snd r)) = Ret notes
    ∧ head notes = Some note
    ∧ map card_id (cards p') = map note_id notes.
Proof.
  intros s t note r Hc Hnd Hs Hraw Hne Hparse Hconv Hrb Hold Hshow.
  set (key := STORAGE_PREFIX +:+ card_id c).
  assert (note_under s key = Some (VObj props)) as Hunder.
  { apply note_under_Some. split; [apply startsWith_app|].
    split; [by apply (parse_note_parsed s key raw) | done]. }
  assert (get_prop "id" (Object_assign props (saved_fields c))
          = get_prop "id" props) as Hoid.
  { by rewrite get_prop_Object_assign. }
  assert (note_id note = card_id c) as Hid.
  { rewrite <- (Hs (card_id c) (VObj props) Hunder).
    unfold note_id, note. cbn [member].
    by rewrite get_set_prop, Hoid. }
  unfold r. rewrite (saveBtn_click_run i c raw props p w) by done.
  cbn [fst snd].
  set (w0 := log (GetItem (selected w) key) w).
  pose proof (listNotes_after_saveNote
                (Object_assign props (saved_fields c)) w0) as Hl.
  cbn zeta in Hl.
  change (now w0 (now_reads w0)) with t in Hl.
  change (store_of (selected w0) w0) with s in Hl.
  fold note in Hl. fold (note_id note) in Hl. rewrite Hid in Hl. fold key in Hl.
  assert (Forall (λ n, ∃ u, member n "updatedAt" = VNum u ∧ u < t)
            (collect (Storage.removeItem s key))) as Hold'.
  { by apply Forall_collect_removeItem. }
  rewrite Hoid in Hl. specialize (Hl Hnd Hconv Hrb Hold').
  change (snd (saveNote _ _))
    with (snd (saveNote (VObj (Object_assign props (saved_fields c))) w0)).
  eexists _, _. split; [done|]. rewrite Hl. split; [done|].
  split; [done|].
  cbn [cards set_status set_cards map].
  rewrite card_id_card_of. f_equal.
  symmetry. apply listed_ids_without; try done.
  eapply Forall_impl; [exact Hold|]. simpl. intros n (u & Hu & _). eauto.
Qed.


(** A click on 'Clear all' that is confirmed leaves no card on the page
    and no record in the listing; one that is not confirmed changes
    neither the page nor the storage. *)
Theorem clear_click_empties_page_and_listing (p : page) (w : world) :
  let r := clearAllBtn_onclick Date_toLocaleString true p w in
  fst r = Ret (set_status "All notes cleared." (set_cards [] p))
  ∧ store_of (selected w) (snd r) = outside (store_of (selected w) w)
  ∧ fst (listNotes (snd r)) = Ret []
  ∧ clearAllBtn_onclick Date_toLocaleString false p w = (Ret p, w).
Proof.
  intros r. destruct (clearAllBtn_click_run w) as (cs & Hrun).
  assert (r = (Ret (set_status "All notes cleared." (set_cards [] p)),
               add_calls cs
                 (set_store (selected w)
                    (outside (store_of (selected w) w)) w))) as ->.
  { unfold r, clearAllBtn_onclick, mbind, M_bind. rewrite Hrun.
    cbn [negb]. rewrite renderNotes_shows by constructor.
    unfold mret, M_ret. by rewrite setStatus_text. }
  cbn [fst snd]. split; [done|].
  rewrite listNotes_outcome.
  change (selected (add_calls cs (set_store (selected w) _ w)))
    with (selected w).
  rewrite store_of_add_calls, store_of_set_store.
  split; [done|]. split; [by rewrite collect_outside|done].
Qed.

Lemma key_consistentb_spec (s : Storage.t) :
  key_consistentb s = true → key_consistent s.
Proof.
  intros Hb id n Hn.
  assert (STORAGE_PREFIX +:+ id ∈ Storage.keys s) as Hk.
  { apply StorageFacts.getItem_is_Some.
    apply note_under_Some in Hn as (_ & Hp & Ht).
    destruct (Storage.getItem s (STORAGE_PREFIX +:+ id)); [by eexists|].
    simpl in Hp. subst n. done. }
  unfold key_consistentb in Hb. rewrite forallb_forall in Hb.
  specialize (Hb _ (proj1 (list_elem_of_In _ _) Hk)). simpl in Hb.
  rewrite Hn in Hb. apply String.eqb_eq, append_inj_r in Hb. exact Hb.
Qed.

End PageAndListing.

(** ** What the operations keep *)

Section Kept.

Context `{JSON}.

(** A value that [saveNote] returns was written under the key of its id. *)
Lemma saveNote_returns (note note' : value) (w : world) :
  let key := STORAGE_PREFIX +:+ note_id note' in
  fst (saveNote note w) = Ret note' →
  snd (saveNote note w)
  = log (SetItem (selected w) key (JSON_stringify note'))
      (set_store (selected w)
         (Storage.setItem (store_of (selected w) w) key (JSON_stringify note'))
         (read_clock w)).
Proof.
  intros key. unfold key, note_id.
  destruct note as [| |b|n|s|l|props]; try done;
    try (by intros [= <-]).
  destruct (converts (get_prop "id" props)) eqn:Hid.
  - rewrite saveNote_run by done. cbn [fst snd]. by intros [= <-].
  - by rewrite saveNote_throws.
Qed.

(** When [saveNote] throws, nothing was written. *)
Lemma saveNote_throws_unchanged (note : value) (w : world) (e : exn) :
  fst (saveNote note w) = Throw e → snd (saveNote note w) = read_clock w.
Proof.
  destruct note as [| |b|n|s|l|props]; try done.
  destruct (converts (get_prop "id" props)) eqn:Hid.
  - by rewrite saveNote_run.
  - by rewrite saveNote_throws.
Qed.

(** The call of [saveNote] that ends an [updateNote] which returns or
    throws. *)
Lemma updateNote_cases (id : string) (fields : value) (w : world) :
  let w0 := log (GetItem (selected w) (STORAGE_PREFIX +:+ id)) w in
  (∃ note, updateNote id fields w = saveNote note w0)
  ∨ (∃ e, updateNote id fields w = (Throw e, w0))
  ∨ ((∃ e, fst (updateNote id fields w) = Throw e
           ∧ snd (updateNote id fields w) = read_clock w0)
     ∨ fst (updateNote id fields w) = Unmodelled).
Proof.
  intros w0. unfold updateNote, mbind, M_bind. rewrite loadNote_run.
  fold w0.
  destruct (parse_note _) as [| |b|n|s|l|props]; cbn [ToBoolean negb].
  - right. left. by eexists.
  - right. left. by eexists.
  - destruct b; cbn [negb]; [left | right; left]; by eexists.
  - destruct (n =? 0); cbn [negb]; [right; left | left]; by eexists.
  - destruct (String.eqb s ""); cbn [negb]; [right; left; by eexists|].
    destruct (names_read_only s fields); [right; left | left]; by eexists.
  - destruct (own_props fields); [left; by eexists|].
    right. unfold update_exotic.
    destruct (exotic_assign w0 (VArr l) fields) as [e|observed];
      [left; by eexists|right].
    unfold saveNote_exotic, mbind, M_bind, Date_now, getStore, lift,
      to_string.
    destruct (converts _); [by right | left; by eexists].
  - destruct (replaces_prototype props fields); [|left; by eexists].
    right. unfold update_exotic.
    destruct (exotic_assign w0 (VObj props) fields) as [e|observed];
      [left; by eexists|right].
    unfold saveNote_exotic, mbind, M_bind, Date_now, getStore, lift,
      to_string.
    destruct (converts _); [by right | left; by eexists].
Qed.

(** A value that [updateNote] returns was written under the key of its
    id. *)
Lemma updateNote_returns (id : string) (fields note : value) (w : world) :
  let w0 := log (GetItem (selected w) (STORAGE_PREFIX +:+ id)) w in
  let key := STORAGE_PREFIX +:+ note_id note in
  fst (updateNote id fields w) = Ret note →
  snd (updateNote id fields w)
  = log (SetItem (selected w) key (JSON_stringify note))
      (set_store (selected w)
         (Storage.setItem (store_of (selected w) w) key (JSON_stringify note))
         (read_clock w0)).
Proof.
  intros w0 key.
  destruct (updateNote_cases id fields w)
    as [[n ->]|[[e ->]|[(e & -> & _)| ->]]]; try done.
  intros Hret. by rewrite (saveNote_returns n note _ Hret).
Qed.

(** When [updateNote] throws, nothing was written. *)
Lemma updateNote_throws_unchanged (id : string) (fields : value) (w : world)
    (e : exn) (b : backend) :
  fst (updateNote id fields w) = Throw e →
  store_of b (snd (updateNote id fields w)) = store_of b w.
Proof.
  destruct (updateNote_cases id fields w)
    as [[n Hrun]|[[e' ->]|[(e' & _ & ->)| ->]]]; try done;
    [|by destruct b..].
  rewrite Hrun. intros Hthrow.
  rewrite (saveNote_throws_unchanged n _ e Hthrow). by destruct b.
Qed.

Lemma removeItem_setItem_fresh (s : Storage.t) (k v : string) :
  Storage.getItem s k = None →
  Storage.removeItem (Storage.setItem s k v) k = s.
Proof.
  induction s as [|[k' v'] s IH]; simpl; intros Hk.
  - by rewrite String.eqb_refl.
  - destruct (String.eqb_spec k' k) as [->|Hne]; [done|]. simpl.
    destruct (String.eqb_spec k' k) as [->|_]; [done|]. simpl.
    f_equal. by apply IH.
Qed.

Lemma NoDup_keys_outside (s : Storage.t) :
  NoDup (Storage.keys s) → NoDup (Storage.keys (outside s)).
Proof.
  unfold Storage.keys, outside. induction s as [|[k v] s IH]; simpl;
    intros Hnd; [done|].
  apply NoDup_cons in Hnd as [Hk Hnd].
  destruct (JsString.startsWith STORAGE_PREFIX k); simpl; [by apply IH|].
  apply NoDup_cons. split; [|by apply IH].
  intros Hin. apply Hk.
  apply list_elem_of_fmap in Hin as (e & -> & He).
  apply list_elem_of_fmap. exists e. split; [done|].
  apply list_elem_of_In. apply list_elem_of_In, filter_In in He. tauto.
Qed.

(** The store operations keep the keys of the selected storage unique and
    its records under the keys of their ids, for a codec that reads back
    the records written: [add], an [update] that returns a value (also
    with fields that name [id]) or that throws, [delete] and the
    confirmed 'Clear all'.  The update of a stored array, and the update
    that replaces the prototype of a record, return an object that is
    not JSON-shaped; they are not covered. *)
Theorem operations_keep_records_under_their_ids (w : world) :
  let kept (w' : world) := well_kept (store_of (selected w) w') in
  kept w →
  (∀ arg, reads_back (added_note arg w) → kept (snd (addNote arg w)))
  ∧ (∀ id fields note,
       fst (updateNote id fields w) = Ret note → reads_back note →
       kept (snd (updateNote id fields w)))
  ∧ (∀ id fields e,
       fst (updateNote id fields w) = Throw e →
       kept (snd (updateNote id fields w)))
  ∧ (∀ id, kept (snd (deleteNote id w)))
  ∧ kept (snd (clearAllBtn_click true w)).
Proof.
  intros kept [Hnd Hs]. split; [|split; [|split; [|split]]].
  - intros arg Hrb. split; [|by apply key_consistent_addNote].
    assert (arg = VUndefined ∨ arg = VNull
            ∨ (arg ≠ VUndefined ∧ arg ≠ VNull))
      as [-> | [-> | [Hu Hn]]] by (destruct arg; auto); [done..|].
    rewrite addNote_run by done. cbn [snd].
    unfold log. rewrite store_of_add_calls, store_of_set_store.
    by apply NoDup_keys_setItem.
  - intros id fields note Hret Hrb. unfold kept.
    rewrite (updateNote_returns id fields note w Hret).
    unfold log. rewrite store_of_add_calls, store_of_set_store.
    split; [by apply NoDup_keys_setItem|].
    by apply (key_consistent_setItem _ note).
  - intros id fields e Hthrow. unfold kept.
    by rewrite (updateNote_throws_unchanged id fields w e).
  - intros id. unfold kept. rewrite deleteNote_run. cbn [snd].
    unfold log. rewrite store_of_add_calls, store_of_set_store.
    split; [by apply NoDup_keys_removeItem
           | by apply key_consistent_removeItem].
  - destruct (clearAllBtn_click_run w) as (cs & ->). unfold kept. cbn [snd].
    rewrite store_of_add_calls, store_of_set_store.
    split; [by apply NoDup_keys_outside|].
    intros id n Hn. by rewrite note_under_outside in Hn.
Qed.

(** [add] followed by [delete] of the id that [add] returned leaves both
    storage areas as they were before the [add], when that id was not
    taken. *)
Theorem add_then_delete_restores_the_store (arg : value) (w : world) :
  let s := store_of (selected w) w in
  let note := added_note arg w in
  let r := addNote arg w in
  arg ≠ VUndefined → arg ≠ VNull →
  Storage.getItem s (STORAGE_PREFIX +:+ note_id note) = None →
  fst r = Ret note
  ∧ localStorage (snd (deleteNote (note_id note) (snd r))) = localStorage w
  ∧ sessionStorage (snd (deleteNote (note_id note) (snd r)))
    = sessionStorage w.
Proof.
  intros s note r Hu Hn Hfresh. unfold r.
  rewrite (addNote_run arg w Hu Hn). fold note. cbn [fst snd].
  split; [done|]. rewrite deleteNote_run. cbn [snd].
  change (selected (log _ (set_store (selected w) _ _))) with (selected w).
  unfold log. rewrite !store_of_add_calls, store_of_set_store.
  fold s. fold (note_id note).
  rewrite removeItem_setItem_fresh by done.
  unfold s, selected.
  by destruct (String.eqb (storeType w) "session").
Qed.

(** [add], [update] and [delete] leave the records of the other ids as
    they are: [get] of an id other than the id of the value that [add]
    or [update] returns (for a stored number, boolean or string that is
    the id 'undefined'), or than the id removed, returns afterwards what
    it returned before, and an update that throws changes no record.
    The update of a stored array, and the update that replaces the
    prototype of a record, return an object that is not JSON-shaped;
    they are not covered. *)
Theorem writes_leave_other_records (id' : string) (w : world) :
  (∀ arg note,
     fst (addNote arg w) = Ret note → id' ≠ note_id note →
     fst (loadNote id' (snd (addNote arg w))) = fst (loadNote id' w))
  ∧ (∀ id fields note,
       fst (updateNote id fields w) = Ret note → id' ≠ note_id note →
       fst (loadNote id' (snd (updateNote id fields w)))
       = fst (loadNote id' w))
  ∧ (∀ id fields e,
       fst (updateNote id fields w) = Throw e →
       fst (loadNote id' (snd (updateNote id fields w)))
       = fst (loadNote id' w))
  ∧ (∀ id, id' ≠ id →
       fst (loadNote id' (snd (deleteNote id w))) = fst (loadNote id' w)).
Proof.
  assert (∀ id v (w0 : world) c s0,
            selected w0 = selected w →
            s0 = store_of (selected w) w →
            id' ≠ id →
            fst (loadNote id'
                   (log c (set_store (selected w)
                             (Storage.setItem s0 (STORAGE_PREFIX +:+ id) v)
                             w0)))
            = fst (loadNote id' w)) as Hset.
  { intros id v w0 c s0 Hsel Hst Hne. rewrite !loadNote_run. cbn [fst].
    change (selected (log c (set_store (selected w) _ w0)))
      with (selected w0).
    rewrite Hsel. unfold log.
    rewrite store_of_add_calls, store_of_set_store.
    rewrite StorageFacts.getItem_setItem, Hst.
    destruct (String.eqb_spec (STORAGE_PREFIX +:+ id) (STORAGE_PREFIX +:+ id'))
      as [E%append_inj_r|_]; [congruence | done]. }
  split; [|split; [|split]].
  - intros arg note Hret Hne.
    assert (arg = VUndefined ∨ arg = VNull
            ∨ (arg ≠ VUndefined ∧ arg ≠ VNull))
      as [-> | [-> | [Hu Hn]]] by (destruct arg; auto); [done..|].
    rewrite (addNote_run arg w Hu Hn) in *. cbn [fst snd] in *.
    injection Hret as <-. by apply Hset.
  - intros id fields note Hret Hne.
    rewrite (updateNote_returns id fields note w Hret).
    by apply Hset.
  - intros id fields e Hthrow. rewrite !loadNote_run. cbn [fst].
    assert (selected (snd (updateNote id fields w)) = selected w) as ->.
    { destruct (stays_in_updateNote (selected w) id fields w eq_refl)
        as [Hsel _]. exact Hsel. }
    by rewrite (updateNote_throws_unchanged id fields w e).
  - intros id Hne. rewrite deleteNote_run. cbn [snd].
    rewrite !loadNote_run. cbn [fst].
    change (selected (log _ (set_store (selected w) _ w))) with (selected w).
    unfold log. rewrite store_of_add_calls, store_of_set_store.
    rewrite StorageFacts.getItem_removeItem.
    destruct (String.eqb_spec (STORAGE_PREFIX +:+ id) (STORAGE_PREFIX +:+ id'))
      as [E%append_inj_r|_]; [congruence | done].
Qed.

End Kept.

(** ** Concrete runs, with the executable codec *)

(** C1, counterexample: fields that name [id] and [createdAt] overwrite
    both, and the result is stored under the new id while the entry of
    the old id stays. *)
Lemma update_overwrites_id_and_createdAt :
  let fields := VObj [("id", VStr "b"); ("createdAt", VNum 0)] in
  let updated := VObj [("id", VStr "b"); ("title", VStr "T");
                       ("body", VStr "B"); ("createdAt", VNum 0);
                       ("updatedAt", VNum 2000)] in
  let r := @updateNote EcmaJSON.codec "a" fields world_with_a in
  fst (@loadNote EcmaJSON.codec "a" world_with_a) = Ret stored_a
  ∧ fst r = Ret updated
  ∧ member updated "id" ≠ member stored_a "id"
  ∧ member updated "createdAt" ≠ member stored_a "createdAt"
  ∧ Storage.getItem (localStorage (snd r)) "sn:note:a"
    = Some (EcmaJSON.stringify stored_a)
  ∧ Storage.getItem (localStorage (snd r)) "sn:note:b"
    = Some (EcmaJSON.stringify updated).
Proof. vm_compute. by repeat split. Qed.

(** C1, witness: the Save button's update of the title of [stored_a]. *)
Lemma update_merges_fields_witness :
  let fields := VObj [("title", VStr "T2")] in
  let updated := VObj [("id", VStr "a"); ("title", VStr "T2");
                       ("body", VStr "B"); ("createdAt", VNum 1000);
                       ("updatedAt", VNum 2000)] in
  let r := @updateNote EcmaJSON.codec "a" fields world_with_a in
  fst r = Ret updated
  ∧ fst (@loadNote EcmaJSON.codec "a" (snd r)) = Ret updated
  ∧ 1000 < updatedAt_of updated.
Proof.
  intros fields updated r.
  destruct (@update_merges_fields EcmaJSON.codec "a"
              (EcmaJSON.stringify stored_a)
              [("id", VStr "a"); ("title", VStr "T"); ("body", VStr "B");
               ("createdAt", VNum 1000); ("updatedAt", VNum 1000)]
              fields world_with_a)
    as (Hret & _ & _ & _ & Hupd & _ & _ & _ & Hget).
  - reflexivity.
  - vm_compute. discriminate.
  - vm_compute. reflexivity.
  - reflexivity.
  - apply NoDup_singleton.
  - reflexivity.
  - reflexivity.
  - reflexivity.
  - split; [exact Hret|]. split.
    + apply Hget. split; [vm_compute; discriminate | vm_compute; reflexivity].
    + vm_compute. reflexivity.
Defined.

(** C1: a field [__proto__] with a primitive value creates no attribute,
    and the record is written as it was with the new [updatedAt]. *)
Example update_with_proto_field :
  let fields := VObj [("__proto__", VNum 5)] in
  let updated := VObj [("id", VStr "a"); ("title", VStr "T");
                       ("body", VStr "B"); ("createdAt", VNum 1000);
                       ("updatedAt", VNum 2000)] in
  let r := @updateNote EcmaJSON.codec "a" fields world_with_a in
  fst r = Ret updated
  ∧ Storage.getItem (localStorage (snd r)) "sn:note:a"
    = Some (EcmaJSON.stringify updated).
Proof. vm_compute. by split. Qed.

(** C2, counterexample: two records with the same [updatedAt], added in
    the two possible orders, are listed in the order of insertion each
    time: the tie is not decided by their ids. *)
Lemma ties_follow_insertion_order :
  let t := 1700000000000 in
  let a := recordA "loyw3v28-aaaaaa" t t in
  let b := recordB "loyw3v28-bbbbbb" t t in
  let w_ab := snd (@addNote EcmaJSON.codec argB
                (snd (@addNote EcmaJSON.codec argA
                   (empty_world (λ _, t) rand_ab)))) in
  let w_ba := snd (@addNote EcmaJSON.codec argA
                (snd (@addNote EcmaJSON.codec argB
                   (empty_world (λ _, t) rand_ba)))) in
  fst (@listNotes EcmaJSON.codec w_ab) = Ret [a; b]
  ∧ fst (@listNotes EcmaJSON.codec w_ba) = Ret [b; a]
  ∧ member a "updatedAt" = member b "updatedAt"
  ∧ localStorage w_ab ≡ₚ localStorage w_ba.
Proof.
  vm_compute. split; [done|]. split; [done|]. split; [done|].
  apply Permutation_swap.
Qed.

(** Hence no order on ids decides the ties of every listing. *)
Lemma ties_not_decided_by_id :
  ¬ ∃ before : string → string → Prop,
      (∀ x y, before x y → before y x → False)
      ∧ ∀ w notes i j a b,
          fst (@listNotes EcmaJSON.codec w) = Ret notes →
          (i < j)%nat → notes !! i = Some a → notes !! j = Some b →
          member a "updatedAt" = member b "updatedAt" →
          before (ToString (member a "id")) (ToString (member b "id")).
Proof.
  intros (before & Hasym & Hties).
  set (t := 1700000000000).
  set (a := recordA "loyw3v28-aaaaaa" t t).
  set (b := recordB "loyw3v28-bbbbbb" t t).
  set (w_ab := snd (@addNote EcmaJSON.codec argB
                 (snd (@addNote EcmaJSON.codec argA
                    (empty_world (λ _, t) rand_ab))))).
  set (w_ba := snd (@addNote EcmaJSON.codec argA
                 (snd (@addNote EcmaJSON.codec argB
                    (empty_world (λ _, t) rand_ba))))).
  assert (fst (@listNotes EcmaJSON.codec w_ab) = Ret [a; b]) as Hab
    by (vm_compute; reflexivity).
  assert (fst (@listNotes EcmaJSON.codec w_ba) = Ret [b; a]) as Hba
    by (vm_compute; reflexivity).
  apply (Hasym (ToString (member a "id")) (ToString (member b "id"))).
  - apply (Hties w_ab [a; b] 0%nat 1%nat a b Hab).
    + lia.
    + reflexivity.
    + reflexivity.
    + reflexivity.
  - apply (Hties w_ba [b; a] 0%nat 1%nat b a Hba).
    + lia.
    + reflexivity.
    + reflexivity.
    + reflexivity.
Qed.

(** C2, witness: two records added at different times. *)
Lemma list_is_sorted_by_recency_witness :
  let w := snd (@addNote EcmaJSON.codec argB
             (snd (@addNote EcmaJSON.codec argA
                (empty_world stepping rand_ab)))) in
  ∃ notes,
    fst (@listNotes EcmaJSON.codec w) = Ret notes
    ∧ notes = [recordB "loyw3v2c-bbbbbb" 1700000000005 1700000000007;
               recordA "loyw3v28-aaaaaa" 1700000000001 1700000000003]
    ∧ StronglySorted (λ a b, updatedAt_of b <= updatedAt_of a) notes.
Proof.
  intros w.
  destruct (@list_is_sorted_by_recency EcmaJSON.codec w)
    as (_ & _ & _ & _ & _ & Hsort).
  destruct Hsort as (notes & Hret & _ & Hsorted & _).
  - vm_compute. repeat constructor; eexists; reflexivity.
  - exists notes. split; [exact Hret|]. split; [|exact Hsorted].
    vm_compute in Hret. injection Hret as <-. reflexivity.
Defined.

(** C3, counterexample: the clock advances by one millisecond between the
    reading for [createdAt] and the reading of [saveNote]; the record
    that [get] returns has [createdAt] before [updatedAt]. *)
Lemma add_createdAt_before_updatedAt :
  let w := empty_world ticking (λ _, "0.4fzyo82mvyr") in
  let note := recordA "loyw3v28-4fzyo8" 1700000000000 1700000000001 in
  fst (@addNote EcmaJSON.codec argA w) = Ret note
  ∧ fst (@loadNote EcmaJSON.codec "loyw3v28-4fzyo8"
           (snd (@addNote EcmaJSON.codec argA w))) = Ret note
  ∧ member note "createdAt" ≠ member note "updatedAt".
Proof. vm_compute. by repeat split. Qed.

(** C3, witness: an [add] during which the clock does not advance. *)
Lemma add_then_get_witness :
  let w := empty_world (λ _, 1700000000000) (λ _, "0.4fzyo82mvyr") in
  let note := recordA "loyw3v28-4fzyo8" 1700000000000 1700000000000 in
  fst (@addNote EcmaJSON.codec argA w) = Ret note
  ∧ fst (@loadNote EcmaJSON.codec "loyw3v28-4fzyo8"
           (snd (@addNote EcmaJSON.codec argA w))) = Ret note
  ∧ member note "createdAt" = member note "updatedAt".
Proof.
  intros w note.
  destruct (@add_then_get EcmaJSON.codec argA w)
    as (Hret & _ & Hget & Heq & _).
  - reflexivity.
  - left. reflexivity.
  - split; [exact Hret|]. split.
    + apply Hget. split; [vm_compute; discriminate | vm_compute; reflexivity].
    + apply Heq. reflexivity.
Defined.

(** C5, witness: the listing of [world_with_corrupt]. *)
Lemma corrupt_entry_is_skipped_witness :
  fst (@listNotes EcmaJSON.codec world_with_corrupt) = Ret [stored_a].
Proof.
  destruct (@corrupt_entry_is_skipped EcmaJSON.codec world_with_corrupt
              "sn:note:bad" "{oops")
    as (_ & _ & Hsame & _).
  - reflexivity.
  - reflexivity.
  - vm_compute. reflexivity.
  - rewrite <- Hsame. vm_compute. reflexivity.
Defined.

(** C5, counterexample: beside a value that does not parse, the store
    holds two records, one of them with an object under [updatedAt] that
    has a property [toString]: the comparator throws a TypeError when it
    converts that object, and [list()] fails; so it does without the
    corrupt entry. *)
Lemma list_fails_beside_a_corrupt_entry :
  let s := [("sn:note:bad", "{oops");
            ("sn:note:a", EcmaJSON.stringify stored_a);
            ("sn:note:b",
             String.concat ""
               ["{"; EcmaJSON.quote "id"; ":"; EcmaJSON.quote "b"; ",";
                EcmaJSON.quote "updatedAt"; ":{";
                EcmaJSON.quote "toString"; ":0}}"])] in
  let w := mkWorld s [] "local" (λ _, 2000) 0 (λ _, "0.4fzyo82mvyr") 0
             no_exotic [] in
  EcmaJSON.parse "{oops" = None
  ∧ @collect EcmaJSON.codec s
    = [stored_a;
       VObj [("id", VStr "b");
             ("updatedAt", VObj [("toString", VNum 0)])]]
  ∧ fst (@listNotes EcmaJSON.codec w) = Throw TypeError
  ∧ fst (@listNotes EcmaJSON.codec
           (set_store Local (Storage.removeItem s "sn:note:bad") w))
    = Throw TypeError.
Proof. vm_compute. by repeat split. Qed.

(** The conversions of the comparator: [updatedAt] '1', '2', null and
    true count as 1, 2, 0 and 1, and the records are listed b, a, d, c. *)
Example listing_converts_updatedAt :
  let a := VObj [("id", VStr "a"); ("updatedAt", VStr "1")] in
  let b := VObj [("id", VStr "b"); ("updatedAt", VStr "2")] in
  let c := VObj [("id", VStr "c"); ("updatedAt", VNull)] in
  let d := VObj [("id", VStr "d"); ("updatedAt", VBool true)] in
  let s := [("sn:note:a", EcmaJSON.stringify a);
            ("sn:note:b", EcmaJSON.stringify b);
            ("sn:note:c", EcmaJSON.stringify c);
            ("sn:note:d", EcmaJSON.stringify d)] in
  let w := mkWorld s [] "local" (λ _, 2000) 0 (λ _, "0.4fzyo82mvyr") 0
             no_exotic [] in
  fst (@listNotes EcmaJSON.codec w) = Ret [b; a; d; c].
Proof. vm_compute. reflexivity. Qed.

(** The update of a stored number: the fields are dropped, and the number
    is written again under the key of the id 'undefined'. *)
Example update_of_stored_number :
  let w := mkWorld [("sn:note:n", "5")] [] "local" (λ _, 2000) 0
             (λ _, "0.4fzyo82mvyr") 0 no_exotic [] in
  let r := @updateNote EcmaJSON.codec "n" (VObj [("title", VStr "T")]) w in
  fst r = Ret (VNum 5)
  ∧ localStorage (snd r) = [("sn:note:n", "5"); ("sn:note:undefined", "5")].
Proof. vm_compute. by split. Qed.

(** The update of a stored array by a field [id]: the array is written
    under the key of the new id, in a store that was well kept and is not
    any more. *)
Example update_of_stored_array :
  let w := mkWorld [("sn:note:undefined", "[1]")] [] "local" (λ _, 2000) 0
             (λ _, "0.4fzyo82mvyr") 0
             (named_fields_on_array EcmaJSON.stringify) [] in
  let r := @updateNote EcmaJSON.codec "undefined"
             (VObj [("id", VStr "zz")]) w in
  @key_consistentb EcmaJSON.codec (localStorage w) = true
  ∧ fst r = Unmodelled
  ∧ localStorage (snd r)
    = [("sn:note:undefined", "[1]"); ("sn:note:zz", "[1]")]
  ∧ @key_consistentb EcmaJSON.codec (localStorage (snd r)) = false.
Proof. vm_compute. by repeat split. Qed.

(** C7, counterexample: a record whose [id] attribute is 'a' lies under
    the key of the id 'x'; after [delete('a')] the listing still holds
    a record with the id 'a'. *)
Lemma delete_leaves_record_under_another_key :
  let record := VObj [("id", VStr "a"); ("updatedAt", VNum 1000)] in
  let w := mkWorld [("sn:note:x", EcmaJSON.stringify record)] [] "local"
             (λ _, 2000) 0 (λ _, "0.4fzyo82mvyr") 0 no_exotic [] in
  let w' := snd (deleteNote "a" w) in
  fst (deleteNote "a" w) = Ret tt
  ∧ fst (@listNotes EcmaJSON.codec w') = Ret [record]
  ∧ ToString (member record "id") = "a".
Proof. vm_compute. by repeat split. Qed.

(** C7, witness: two records were added and the first is deleted; the
    store keeps its records under the keys of their ids and they carry
    numbers under [updatedAt], so the listing returns, holds the second
    record only, and no record of it has the id deleted. *)
Lemma delete_removes_the_entry_witness :
  let w := snd (@addNote EcmaJSON.codec argB
             (snd (@addNote EcmaJSON.codec argA
                (empty_world stepping rand_ab)))) in
  let w' := snd (deleteNote "loyw3v28-aaaaaa" w) in
  fst (@loadNote EcmaJSON.codec "loyw3v28-aaaaaa" w') = Ret VNull
  ∧ fst (@listNotes EcmaJSON.codec w')
    = Ret [recordB "loyw3v2c-bbbbbb" 1700000000005 1700000000007]
  ∧ (∀ n, n ∈ @collect EcmaJSON.codec (store_of (selected w) w') →
          ToString (member n "id") ≠ "loyw3v28-aaaaaa").
Proof.
  intros w w'.
  destruct (@delete_removes_the_entry EcmaJSON.codec "loyw3v28-aaaaaa" w)
    as (_ & _ & _ & Hget & _ & Hids & _ & Hlist & _).
  split; [exact Hget|]. split.
  - fold w' in Hlist. rewrite Hlist.
    + vm_compute. reflexivity.
    + vm_compute. repeat constructor; eexists; reflexivity.
  - apply Hids. apply key_consistentb_spec. vm_compute. reflexivity.
Defined.

(** C6, witness: an id without entry, and an id whose entry does not
    parse. *)
Lemma update_of_absent_is_not_found_witness :
  fst (@updateNote EcmaJSON.codec "zzz" (VObj [("title", VStr "T2")])
         world_with_a) = Throw (Error "Note not found")
  ∧ fst (@updateNote EcmaJSON.codec "bad" (VObj [("title", VStr "T2")])
           world_with_corrupt) = Throw (Error "Note not found").
Proof.
  split.
  - apply (@update_of_absent_is_not_found EcmaJSON.codec "zzz"
             (VObj [("title", VStr "T2")]) world_with_a).
    vm_compute. exact I.
  - apply (@update_of_absent_is_not_found EcmaJSON.codec "bad"
             (VObj [("title", VStr "T2")]) world_with_corrupt).
    vm_compute. right. left. reflexivity.
Defined.

(** C8, counterexample: two calls of [add] in the same millisecond that
    draw the same random suffix generate the same id, and the second
    record replaces the first. *)
Lemma same_tick_same_suffix_same_id :
  let t := 1700000000000 in
  let w := empty_world (λ _, t) (λ _, "0.4fzyo82mvyr") in
  let r1 := @addNote EcmaJSON.codec argA w in
  let r2 := @addNote EcmaJSON.codec argB (snd r1) in
  fst r1 = Ret (recordA "loyw3v28-4fzyo8" t t)
  ∧ fst r2 = Ret (recordB "loyw3v28-4fzyo8" t t)
  ∧ fst (@listNotes EcmaJSON.codec (snd r2))
    = Ret [recordB "loyw3v28-4fzyo8" t t].
Proof. vm_compute. by repeat split. Qed.

(** C8, witness: two calls of [add] at different times. *)
Lemma added_ids_equal_iff_witness :
  let w1 := empty_world stepping rand_ab in
  let w2 := snd (@addNote EcmaJSON.codec argA w1) in
  let a := recordA "loyw3v28-aaaaaa" 1700000000001 1700000000003 in
  let b := recordB "loyw3v2c-bbbbbb" 1700000000005 1700000000007 in
  fst (@addNote EcmaJSON.codec argA w1) = Ret a
  ∧ fst (@addNote EcmaJSON.codec argB w2) = Ret b
  ∧ member a "id" ≠ member b "id".
Proof.
  intros w1 w2 a b.
  assert (fst (@addNote EcmaJSON.codec argA w1) = Ret a) as Ha
    by reflexivity.
  assert (fst (@addNote EcmaJSON.codec argB w2) = Ret b) as Hb
    by reflexivity.
  split; [exact Ha|]. split; [exact Hb|]. intros Heq.
  apply (@added_ids_equal_iff EcmaJSON.codec argA argB a b w1 w2 Ha Hb)
    in Heq as [Ht _].
  - vm_compute in Ht. discriminate.
  - vm_compute. discriminate.
  - vm_compute. discriminate.
Defined.

(** The update of the scenario below moves its record to the front. *)
Lemma update_moves_record_to_front_witness :
  let w2 := snd (@addNote EcmaJSON.codec argB
              (snd (@addNote EcmaJSON.codec argA
                 (empty_world stepping rand_ab)))) in
  fst (@listNotes EcmaJSON.codec
         (snd (@updateNote EcmaJSON.codec "loyw3v28-aaaaaa"
                 (VObj [("title", VStr "A2")]) w2)))
  = Ret [VObj [("id", VStr "loyw3v28-aaaaaa"); ("title", VStr "A2");
               ("body", VStr "x"); ("createdAt", VNum 1700000000001);
               ("updatedAt", VNum 1700000000008)];
         recordB "loyw3v2c-bbbbbb" 1700000000005 1700000000007].
Proof.
  intros w2.
  destruct (@update_moves_record_to_front EcmaJSON.codec "loyw3v28-aaaaaa"
              (EcmaJSON.stringify
                 (recordA "loyw3v28-aaaaaa" 1700000000001 1700000000003))
              [("id", VStr "loyw3v28-aaaaaa"); ("title", VStr "A");
               ("body", VStr "x"); ("createdAt", VNum 1700000000001);
               ("updatedAt", VNum 1700000000003)]
              (VObj [("title", VStr "A2")]) w2) as [_ Hlist].
  10: (rewrite Hlist; vm_compute; reflexivity).
  - vm_compute. apply NoDup_cons. split.
    + intros [E|E]%elem_of_cons; [discriminate E | by apply elem_of_nil in E].
    + apply NoDup_singleton.
  - vm_compute. reflexivity.
  - vm_compute. discriminate.
  - vm_compute. reflexivity.
  - reflexivity.
  - reflexivity.
  - reflexivity.
  - split; [vm_compute; discriminate | vm_compute; reflexivity].
  - assert (@collect EcmaJSON.codec (store_of (selected w2) w2)
            = [recordA "loyw3v28-aaaaaa" 1700000000001 1700000000003;
               recordB "loyw3v2c-bbbbbb" 1700000000005 1700000000007]) as ->
      by (vm_compute; reflexivity).
    apply Forall_cons. split.
    { exists 1700000000003. split; [reflexivity | vm_compute; reflexivity]. }
    apply Forall_cons. split.
    { exists 1700000000007. split; [reflexivity | vm_compute; reflexivity]. }
    by apply Forall_nil.
Defined.

(** The scenario of the specification: [add] A, [add] B, then [update] A,
    with a clock that advances at every reading. *)
Example scenario_add_add_update :
  let w2 := snd (@addNote EcmaJSON.codec argB
              (snd (@addNote EcmaJSON.codec argA
                 (empty_world stepping rand_ab)))) in
  let w3 := snd (@updateNote EcmaJSON.codec "loyw3v28-aaaaaa"
                   (VObj [("title", VStr "A2")]) w2) in
  fst (@listNotes EcmaJSON.codec w2)
  = Ret [recordB "loyw3v2c-bbbbbb" 1700000000005 1700000000007;
         recordA "loyw3v28-aaaaaa" 1700000000001 1700000000003]
  ∧ fst (@listNotes EcmaJSON.codec w3)
    = Ret [VObj [("id", VStr "loyw3v28-aaaaaa"); ("title", VStr "A2");
                 ("body", VStr "x"); ("createdAt", VNum 1700000000001);
                 ("updatedAt", VNum 1700000000008)];
           recordB "loyw3v2c-bbbbbb" 1700000000005 1700000000007].
Proof. vm_compute. by split. Qed.

(** The two records of the scenario have different ids. *)
Lemma listed_records_have_distinct_ids_witness :
  let w2 := snd (@addNote EcmaJSON.codec argB
              (snd (@addNote EcmaJSON.codec argA
                 (empty_world stepping rand_ab)))) in
  ∃ notes,
    fst (@listNotes EcmaJSON.codec w2) = Ret notes
    ∧ NoDup ((λ n, ToString (member n "id")) <$> notes).
Proof.
  intros w2.
  apply (@listed_records_have_distinct_ids EcmaJSON.codec w2).
  - vm_compute. apply NoDup_cons. split.
    + intros [E|E]%elem_of_cons; [discriminate E | by apply elem_of_nil in E].
    + apply NoDup_singleton.
  - set (w0 := empty_world stepping rand_ab).
    set (w1 := snd (@addNote EcmaJSON.codec argA w0)).
    change (@key_consistent EcmaJSON.codec
              (store_of (selected w1) (snd (@addNote EcmaJSON.codec argB w1)))).
    apply (@key_consistent_addNote EcmaJSON.codec argB w1).
    + change (@key_consistent EcmaJSON.codec
                (store_of (selected w0)
                   (snd (@addNote EcmaJSON.codec argA w0)))).
      apply (@key_consistent_addNote EcmaJSON.codec argA w0).
      * apply key_consistent_nil.
      * split; [vm_compute; discriminate | vm_compute; reflexivity].
    + split; [vm_compute; discriminate | vm_compute; reflexivity].
  - vm_compute. repeat constructor; eexists; reflexivity.
Defined.

(** *** Runs of the further properties *)


(** The update of the title of [stored_a], over the executable codec. *)
Lemma update_then_get_over_ecma_witness :
  let r := @updateNote EcmaJSON.codec "a" (VObj [("title", VStr "T2")])
             world_with_a in
  let note := VObj [("id", VStr "a"); ("title", VStr "T2");
                    ("body", VStr "B"); ("createdAt", VNum 1000);
                    ("updatedAt", VNum 2000)] in
  fst r = Ret note
  ∧ fst (@loadNote EcmaJSON.codec "a" (snd r)) = Ret note.
Proof.
  apply (update_then_get_over_ecma "a" (EcmaJSON.stringify stored_a)
           [("id", VStr "a"); ("title", VStr "T"); ("body", VStr "B");
            ("createdAt", VNum 1000); ("updatedAt", VNum 1000)]
           [("title", VStr "T2")] world_with_a).
  - reflexivity.
  - vm_compute. discriminate.
  - vm_compute. reflexivity.
  - split; [distinct_strings|].
    repeat (apply List.Forall_cons; [vm_compute; reflexivity|]).
    apply List.Forall_nil.
  - repeat (apply List.Forall_cons;
            [split; [vm_compute; reflexivity | exact I]|]).
    apply List.Forall_nil.
  - reflexivity.
  - repeat (apply List.Forall_cons;
            [split; [vm_compute; reflexivity | exact I]|]).
    apply List.Forall_nil.
  - reflexivity.
  - reflexivity.
Defined.


(** The id of the first [add] of the scenario. *)
Lemma genId_shape_witness :
  ∃ time suffix,
    fst (genId (empty_world stepping rand_ab)) = Ret (time +:+ "-" +:+ suffix)
    ∧ JsString.has_char "-" time = false
    ∧ Radix.parse_digits 36 time = Some 1700000000000%N
    ∧ suffix = "aaaaaa"
    ∧ (String.length suffix ≤ 6)%nat.
Proof.
  apply (genId_shape (empty_world stepping rand_ab)).
  vm_compute. discriminate.
Defined.

(** A form that holds two spaces and nothing else. *)
Lemma submit_of_blank_form_adds_nothing_witness :
  let p := mkPage "  " "" "" "local" "" [card_a] in
  @noteForm_submit EcmaJSON.codec markup0 date_text p world_with_a
  = (Ret (mkPage "  " "" "" "local" "Please add a title or body." [card_a]),
     world_with_a).
Proof.
  intros p.
  apply (@submit_of_blank_form_adds_nothing EcmaJSON.codec markup0 date_text
           p world_with_a); reflexivity.
Defined.

(** The form of [page_with_a]: the title and the body are trimmed. *)
Lemma submit_adds_trimmed_note_witness :
  let r := @noteForm_submit EcmaJSON.codec markup0 date_text page_with_a
             world_with_a in
  ∃ id created saved,
    let note := VObj [("id", VStr id); ("title", VStr "Groceries");
                      ("body", VStr "milk"); ("createdAt", VNum created);
                      ("updatedAt", VNum saved)] in
    fst r
    = Ret (mkPage "" "" "" "local" "Note added."
             [mkCard id "Groceries" ("Updated " +:+ date_text (VNum saved))
                     "milk" "" false None;
              card_a])
    ∧ Storage.getItem (localStorage (snd r)) (STORAGE_PREFIX +:+ id)
      = Some (EcmaJSON.stringify note)
    ∧ sessionStorage (snd r) = sessionStorage world_with_a.
Proof.
  apply (@submit_adds_trimmed_note EcmaJSON.codec markup0 date_text
           page_with_a world_with_a).
  left. reflexivity.
Defined.

(** An edit of [card_a] that is cancelled after typing. *)
Lemma cancel_restores_texts_witness :
  let p := mkPage "" "" "" "local" "" [card_a] in
  cancelBtn_click 0 (user_edits 0 "typed" "over" (editBtn_click 0 p))
    world_with_a
  = (Ret (mkPage "" "" "" "local" "Edit cancelled."
            [mkCard "a" "T" "Updated 1000" "B" "" false (Some ("T", "B"))]),
     world_with_a)
  ∧ cancelBtn_click 0 p world_with_a = (Throw TypeError, world_with_a).
Proof.
  intros p.
  destruct (cancel_restores_texts 0 card_a "typed" "over" p world_with_a)
    as [Hc He]; [reflexivity|].
  split; [exact Hc | apply He; reflexivity].
Defined.


(** The script on [world_with_a]: no preference is stored, and the page
    shows the card of [stored_a]. *)
Lemma script_shows_the_selected_store_witness :
  let r := @script EcmaJSON.codec markup0 date_text page_with_a
             world_with_a in
  ∃ p',
    fst r = Ret p'
    ∧ storeType (snd r) = "local"
    ∧ cards p' = [card_a]
    ∧ status_text p' = "Using localStorage.".
Proof.
  intros r.
  destruct (@script_shows_the_selected_store EcmaJSON.codec markup0
              date_text page_with_a world_with_a)
    as (p' & Hr & Ht & _ & _ & Hcards & _ & Hlocal & _).
  - assert (@collect EcmaJSON.codec (localStorage world_with_a) = [stored_a])
      as Hc by (vm_compute; reflexivity).
    change (showable (@collect EcmaJSON.codec (localStorage world_with_a))).
    rewrite Hc. apply List.Forall_cons; [|apply List.Forall_nil].
    split; [by exists 1000 | reflexivity].
  - exists p'. split; [exact Hr|]. split; [exact Ht|]. split.
    + rewrite Hcards. vm_compute. reflexivity.
    + apply Hlocal. reflexivity.
Defined.


(** Save on a card whose note is not in the store. *)
Lemma save_of_missing_note_reports_not_found_witness :
  let c := mkCard "zz" "T" "" "B" "" true (Some ("T", "B")) in
  let p := mkPage "" "" "" "local" "" [c] in
  @saveBtn_click EcmaJSON.codec date_text engine_text 0 p world_with_a
  = (Ret (mkPage "" "" "" "local" "Note not found" [c]),
     log (GetItem Local "sn:note:zz") world_with_a).
Proof.
  intros c p.
  apply (@save_of_missing_note_reports_not_found EcmaJSON.codec date_text
           engine_text 0 c p world_with_a).
  - reflexivity.
  - vm_compute. exact I.
Defined.

(** Save on the card of [stored_a] after the title was cleared and the
    body retyped. *)
Lemma save_stores_the_trimmed_texts_witness :
  let c := mkCard "a" "   " "Updated 1000" " B2 " "" true (Some ("T", "B")) in
  let p := mkPage "" "" "" "local" "" [c] in
  let r := @saveBtn_click EcmaJSON.codec date_text engine_text 0 p
             world_with_a in
  let note := VObj [("id", VStr "a"); ("title", VStr "Untitled");
                    ("body", VStr "B2"); ("createdAt", VNum 1000);
                    ("updatedAt", VNum 2000)] in
  fst r
  = Ret (mkPage "" "" "" "local" "Note saved."
           [mkCard "a" "Untitled" "Updated 2000" "B2" "" false None])
  ∧ Storage.getItem (localStorage (snd r)) "sn:note:a"
    = Some (EcmaJSON.stringify note).
Proof.
  intros c p r note.
  destruct (@save_stores_the_trimmed_texts EcmaJSON.codec date_text
              engine_text 0 c (EcmaJSON.stringify stored_a)
              [("id", VStr "a"); ("title", VStr "T"); ("body", VStr "B");
               ("createdAt", VNum 1000); ("updatedAt", VNum 1000)]
              p world_with_a)
    as [Hsave _].
  - reflexivity.
  - reflexivity.
  - vm_compute. discriminate.
  - vm_compute. reflexivity.
  - destruct (Hsave eq_refl) as (note' & Hp & _).
    split; vm_compute; reflexivity.
Defined.

(** Save on the card of a note whose id attribute is an object with a
    property [toString]: nothing is written, and the status line shows
    the message of the TypeError. *)
Example save_with_unconvertible_id :
  let record := VObj [("id", VObj [("toString", VNum 0)]);
                      ("title", VStr "T"); ("updatedAt", VNum 1000)] in
  let s := [("sn:note:[object Object]", EcmaJSON.stringify record)] in
  let w := mkWorld s [] "local" (λ _, 2000) 0 (λ _, "0.4fzyo82mvyr") 0
             no_exotic [] in
  let c := mkCard "[object Object]" "T2" "" "B" "" true (Some ("T", "")) in
  let p := mkPage "" "" "" "local" "" [c] in
  let r := @saveBtn_click EcmaJSON.codec date_text engine_text 0 p w in
  @collect EcmaJSON.codec s = [record]
  ∧ fst r = Ret (mkPage "" "" "" "local" "TypeError" [c])
  ∧ localStorage (snd r) = s.
Proof. vm_compute. by repeat split. Qed.

(** Save on the card of [stored_a]: the page shows the listing before and
    after. *)
Lemma save_click_keeps_page_and_listing_together_witness :
  let c := mkCard "a" "T2" "Updated 1000" "B" "" true (Some ("T", "B")) in
  let p := mkPage "" "" "" "local" "" [c] in
  let r := @saveBtn_click EcmaJSON.codec date_text engine_text 0 p
             world_with_a in
  ∃ p' notes,
    fst r = Ret p'
    ∧ fst (@listNotes EcmaJSON.codec (snd r)) = Ret notes
    ∧ head notes
      = Some (VObj [("id", VStr "a"); ("title", VStr "T2");
                    ("body", VStr "B"); ("createdAt", VNum 1000);
                    ("updatedAt", VNum 2000)])
    ∧ map card_id (cards p') = map note_id notes.
Proof.
  intros c p.
  apply (@save_click_keeps_page_and_listing_together EcmaJSON.codec date_text
           engine_text 0 c (EcmaJSON.stringify stored_a)
           [("id", VStr "a"); ("title", VStr "T"); ("body", VStr "B");
            ("createdAt", VNum 1000); ("updatedAt", VNum 1000)]
           p world_with_a).
  - reflexivity.
  - distinct_strings.
  - apply key_consistentb_spec. vm_compute. reflexivity.
  - reflexivity.
  - vm_compute. discriminate.
  - vm_compute. reflexivity.
  - reflexivity.
  - split; [vm_compute; discriminate | vm_compute; reflexivity].
  - assert (@collect EcmaJSON.codec
              (store_of (selected world_with_a) world_with_a) = [stored_a])
      as -> by (vm_compute; reflexivity).
    apply List.Forall_cons; [|apply List.Forall_nil].
    exists 1000. split; [reflexivity | vm_compute; reflexivity].
  - vm_compute. reflexivity.
Defined.


(** [add] and [delete] in [world_with_a] keep its store well kept. *)
Lemma operations_keep_records_under_their_ids_witness :
  @well_kept EcmaJSON.codec
    (localStorage (snd (@addNote EcmaJSON.codec argA world_with_a)))
  ∧ @well_kept EcmaJSON.codec
      (localStorage (snd (deleteNote "a" world_with_a))).
Proof.
  destruct (@operations_keep_records_under_their_ids EcmaJSON.codec
              world_with_a) as (Hadd & _ & _ & Hdel & _).
  - split; [distinct_strings|].
    apply key_consistentb_spec. vm_compute. reflexivity.
  - split; [|apply Hdel]. apply Hadd.
    split; [vm_compute; discriminate | vm_compute; reflexivity].
Defined.

(** [add] of the record A in [world_with_a], then [delete] of its id. *)
Lemma add_then_delete_restores_the_store_witness :
  let r := @addNote EcmaJSON.codec argA world_with_a in
  fst r = Ret (recordA "1jk-4fzyo8" 2000 2000)
  ∧ localStorage (snd (deleteNote "1jk-4fzyo8" (snd r)))
    = localStorage world_with_a
  ∧ sessionStorage (snd (deleteNote "1jk-4fzyo8" (snd r)))
    = sessionStorage world_with_a.
Proof.
  apply (@add_then_delete_restores_the_store EcmaJSON.codec argA
           world_with_a).
  - discriminate.
  - discriminate.
  - vm_compute. reflexivity.
Defined.
